(** * anasm: the two-pass assembler of [internal/compiler/compiler.go]

    A shallow embedding of the compiler package: the preprocessing pass
    ([preproc]), the compile pass ([compile], [compileInst], [compileLet],
    [argToWord], [writeMemory], [writeInst]) and the container writer
    ([CompileToBinary]).  Go's [uint64] is a [Z] with its wrap-around written
    out, a byte buffer is a list of 8-bit values, a Go [map[string]Word] is a
    [gmap string Z], and a Go function that can return an error or panic
    returns a [result]. *)

From Stdlib Require Import ZArith Ascii String List Lia SpecFloat.
From stdpp Require Import base tactics option list gmap strings.

Local Open Scope Z_scope.

(** ** Words and bytes *)

(** [type Word uint64]: arithmetic on it wraps modulo 2^64. *)
Definition wrap64 (z : Z) : Z := z mod 2 ^ 64.

(** [binary.Write(buf, binary.BigEndian, v)] for a [width]-byte unsigned
    integer: the most significant byte first.  The value is narrowed to
    [width] bytes because every byte is taken modulo 256. *)
Fixpoint be_bytes (width : nat) (v : Z) : list Z :=
  match width with
  | O => []
  | S w => (v / 2 ^ (8 * Z.of_nat w)) mod 256 :: be_bytes w v
  end.

(** The value of a Go [byte] of a string. *)
Definition byte_of_ascii (a : ascii) : Z := Z.of_N (N_of_ascii a).

Definition bytes_of_string (s : string) : list Z :=
  map byte_of_ascii (list_ascii_of_string s).

(** ** Tokens (package [token]) *)

Module token.

(** Modelled from the spec: the token kinds of the token source ("bare
    word, label declaration, variable-declaration keyword, size specifiers
    (1/2/4/8 bytes), literal forms (decimal, hex, octal, binary, character,
    floating-point, string), address reference, comma separator, end
    marker, error marker"), under the names the compiler uses for them. *)
Inductive Kind :=
| EOF | Error
| Word | Label | Let
| Size8 | Size16 | Size32 | Size64
| Dec | Hex | Oct | Bin | Char | Float | String
| Addr | Comma.

#[global] Instance Kind_eq_dec : EqDecision Kind.
Proof. solve_decision. Defined.

(** Modelled from the spec: a source position. *)
Record Where := mkWhere { Row : nat; Col : nat }.

(** Modelled from the spec: a token is { kind, textual payload, source
    position }. The field holding the kind is [Type] in the Go code. *)
Record Token := mkToken { Type_ : Kind; Data : string; Where_ : Where }.

(** Modelled from the spec: a token is argument-shaped when it is "one of:
    integer literal in base 10/16/8/2, character literal, floating-point
    literal, or address/name reference". *)
Definition IsArg (t : Token) : bool :=
  match Type_ t with
  | Dec | Hex | Oct | Bin | Char | Float | Addr => true
  | _ => false
  end.

End token.

Abbreviation Token := token.Token.
Abbreviation Tok k d := (token.mkToken k d (token.mkWhere 0 0)).

(** ** The token source (package [lexer]) *)

Module lexer.

(** Modelled from the spec: the token source "supplies a sequential stream
    of typed tokens", ending in an end-of-stream token.  The lexer state is
    the list of tokens it has yet to produce; once they are used up it
    keeps answering with the end marker. *)
Definition Lexer := list Token.

Definition eofToken : Token := Tok token.EOF "".

Definition NextToken (l : Lexer) : Token * Lexer :=
  match l with
  | [] => (eofToken, [])
  | t :: l' => (t, l')
  end.

End lexer.

(** ** Errors, panics and results *)

(** The text of the compiler's error messages, one constructor per format
    string. *)
Inductive message :=
| LexMessage (text : string)            (* the payload of an error token, as the format *)
| RedefinitionOfLabel (name : string)   (* "Redefinition of label '%v'" *)
| Unexpected (t : Token)                (* "Unexpected %v" *)
| ExpectedIdentifier (t : Token)        (* "Expected variable identifier, got %v" *)
| RedefinedVariable (name : string)     (* "Redefined variable '%v'" *)
| LabelAlreadyExists (name : string)    (* "Label '%v' already exists" *)
| ExpectedSize (t : Token)              (* "Expected data element size (...), got %v" *)
| ExpectedData (t : Token)              (* "Expected data, got %v" *)
| NotAnInstruction (name : string)      (* "'%v' is not an instruction" *)
| ExpectsArgument (name : string)       (* "Instruction '%v' expects an argument" *)
| ExpectsNoArguments (name : string)    (* "Instruction '%v' expects no arguments" *)
| ExpectedArgumentGot (t : Token)       (* "Expected argument, got %v" *)
| AddressNotDeclared (name : string)    (* "Address name '%v' was not declared" *)
| ExpectedRegisterArgument (t : Token). (* "Expected register argument, instead got %v" *)

Inductive error :=
| At (w : token.Where) (m : message)    (* c.Error and c.ErrorFrom: "At %v: %v" *)
| EntryNotFound                         (* "Program entry point label 'entry' not found" *)
| WrongElementSize (size : Z)           (* "Got wrong data element size %v" *)
| IOError (path : string).              (* an error of package os *)

Inductive panic :=
| PanicParse (text : string)            (* panic(err) after strconv fails *)
| PanicCharLength                       (* panic("len(tok.Data) > 1") *)
| PanicIndex.                           (* run-time panic: index out of range *)

(** What a call does: return normally, return an error, or panic.
    [OutOfFuel] belongs to the model only: the two [for] loops of the compile
    pass are run with a bound on their iterations, and the bound is shown
    never to be reached ([compile_total], [compileLet_fuel]). *)
Inductive result (A : Type) :=
| Ok (a : A)
| Err (e : error)
| Panic (p : panic)
| OutOfFuel.

Arguments Ok {A} a.
Arguments Err {A} e.
Arguments Panic {A} p.
Arguments OutOfFuel {A}.

#[global] Instance result_ret : MRet result := λ A a, Ok a.
#[global] Instance result_bind : MBind result := λ A B f r,
  match r with
  | Ok a => f a
  | Err e => Err e
  | Panic p => Panic p
  | OutOfFuel => OutOfFuel
  end.

(** ** strconv.ParseInt *)

(** The value of a digit of [strconv.ParseUint]: ['0'-'9'], and letters of
    either case from 10 on. *)
Definition digit_val (a : ascii) : option Z :=
  let n := byte_of_ascii a in
  if (48 <=? n) && (n <=? 57) then Some (n - 48)
  else if (97 <=? n) && (n <=? 122) then Some (n - 97 + 10)
  else if (65 <=? n) && (n <=? 90) then Some (n - 65 + 10)
  else None.

Fixpoint parse_digits (base : Z) (s : string) (acc : Z) : option Z :=
  match s with
  | EmptyString => Some acc
  | String.String a s' =>
      match digit_val a with
      | Some d => if d <? base then parse_digits base s' (acc * base + d) else None
      | None => None
      end
  end.

(** [strconv.ParseUint(s, base, 64)] with an explicit base: no prefix and no
    underscore is accepted, the empty string is a syntax error, a value of
    2^64 or more is a range error.  [None] stands for a non-nil [err]. *)
Definition ParseUint (s : string) (base : Z) : option Z :=
  match s with
  | EmptyString => None
  | _ =>
      match parse_digits base s 0 with
      | Some n => if n <? 2 ^ 64 then Some n else None
      | None => None
      end
  end.

(** [strconv.ParseInt(s, base, 64)]: an optional sign, then [ParseUint]; the
    result must fit [int64]. *)
Definition ParseInt (s : string) (base : Z) : option Z :=
  match s with
  | EmptyString => None
  | String.String a s' =>
      let neg := bool_decide (a = "-"%char) in
      let body := if bool_decide (a = "+"%char) || neg then s' else s in
      match ParseUint body base with
      | None => None
      | Some un =>
          if neg then (if un <=? 2 ^ 63 then Some (- un) else None)
          else (if un <? 2 ^ 63 then Some un else None)
      end
  end.

(** ** strconv.ParseFloat and math.Float64bits *)

(** A [float64] is a value of the Standard Library's specification of
    IEEE-754 numbers: a sign, and a mantissa [m] and exponent [e] standing
    for [m * 2^e]. *)
Definition float64 := spec_float.

(** Rounding of the positive rational [num / den] to the nearest number
    with a [prec]-bit mantissa and an exponent of at least [emin], ties to
    the even mantissa: the pair (mantissa, exponent). *)
Definition round_ratio (prec emin : Z) (num den : Z) : Z * Z :=
  let scaled e := if 0 <=? e then (num, den * 2 ^ e) else (num * 2 ^ (- e), den) in
  let e1 := Z.max emin (Z.log2 num - Z.log2 den - prec) in
  let e := if 2 ^ prec <=? fst (scaled e1) / snd (scaled e1) then e1 + 1 else e1 in
  let '(n, d) := scaled e in
  let q := n / d in
  let r := n mod d in
  let q' := if (d <? 2 * r) || ((d =? 2 * r) && Z.odd q) then q + 1 else q in
  if q' =? 2 ^ prec then (2 ^ (prec - 1), e + 1) else (q', e).

(** The decimal digits of a string, as a number; [None] when a character is
    not a decimal digit. *)
Definition digits10 (s : string) : option Z := parse_digits 10 s 0.

(** Splitting a string at the first occurrence of a character for which
    [p] holds. *)
Fixpoint split_at (p : ascii -> bool) (s : string) : string * option string :=
  match s with
  | EmptyString => (EmptyString, None)
  | String.String a s' =>
      if p a then (EmptyString, Some s')
      else let '(l, r) := split_at p s' in (String.String a l, r)
  end.

Definition strip_sign (s : string) : bool * string :=
  match s with
  | String.String "-"%char s' => (true, s')
  | String.String "+"%char s' => (false, s')
  | _ => (false, s)
  end.

(** [strconv.ParseFloat(s, bitSize)] on decimal literals: an optional sign,
    digits with an optional point, an optional decimal exponent.  The
    result is the correctly rounded [float32] when [bitSize] is 32 and the
    correctly rounded [float64] for every other [bitSize]; a value too
    large for the format is a range error.  [None] stands for a non-nil
    [err].  (The other spellings Go accepts, hexadecimal mantissas,
    infinities and NaN, are left out: they answer [None] here.) *)
Definition ParseFloat (s : string) (bitSize : Z) : option float64 :=
  let '(neg, s1) := strip_sign s in
  let '(mant, exp) := split_at (fun a => bool_decide (a = "e"%char) || bool_decide (a = "E"%char)) s1 in
  let '(int_part, frac) := split_at (fun a => bool_decide (a = "."%char)) mant in
  let frac_part := default EmptyString frac in
  let exp10 :=
    match exp with
    | None => Some 0
    | Some x =>
        let '(eneg, ed) := strip_sign x in
        match ed with
        | EmptyString => None
        | _ => (fun v => if eneg then - v else v) <$> digits10 ed
        end
    end in
  match append int_part frac_part, digits10 (append int_part frac_part), exp10 with
  | String.String _ _, Some m, Some x =>
      if m =? 0 then Some (S754_zero neg) else
      let e10 := x - Z.of_nat (String.length frac_part) in
      let num := if 0 <=? e10 then m * 10 ^ e10 else m in
      let den := if 0 <=? e10 then 1 else 10 ^ (- e10) in
      let '(prec, emin, emax) := if bitSize =? 32 then (24, -149, 104) else (53, -1074, 971) in
      let '(q, e) := round_ratio prec emin num den in
      if emax <? e then None
      else if q =? 0 then Some (S754_zero neg)
      else Some (S754_finite neg (Z.to_pos q) e)
  | _, _, _ => None
  end.

(** [math.Float64bits]: the IEEE-754 binary64 encoding, sign bit, 11 bits of
    biased exponent, 52 bits of fraction.  A finite number is first brought
    to a 53-bit mantissa, or to the least exponent for a subnormal. *)
Definition Float64bits (f : float64) : Z :=
  let sign (s : bool) := if s then 2 ^ 63 else 0 in
  match f with
  | S754_zero s => sign s
  | S754_infinity s => sign s + 2047 * 2 ^ 52
  | S754_nan => 2047 * 2 ^ 52 + 1
  | S754_finite s m e =>
      let shift := Z.min (52 - Z.log2 (Z.pos m)) (e + 1074) in
      let m' := Z.pos m * 2 ^ shift in
      let e' := e - shift in
      if m' <? 2 ^ 52 then sign s + m'
      else sign s + (e' + 1075) * 2 ^ 52 + (m' - 2 ^ 52)
  end.

(** ** Ranging over a string *)

(** The replacement rune U+FFFD that Go yields for an invalid encoding. *)
Definition RuneError : Z := 0xFFFD.

Definition is_cont (b : Z) : bool := (0x80 <=? b) && (b <=? 0xBF).

(** [utf8.DecodeRuneInString]: the first rune of a byte string and the
    number of bytes it takes; an invalid or truncated encoding is
    [RuneError] of width 1. *)
Definition DecodeRune (bs : list Z) : Z * nat :=
  match bs with
  | [] => (RuneError, 0%nat)
  | b0 :: r0 =>
      if b0 <? 0x80 then (b0, 1%nat)
      else
        match r0 with
        | [] => (RuneError, 1%nat)
        | b1 :: r1 =>
            if (0xC2 <=? b0) && (b0 <=? 0xDF) then
              if is_cont b1
              then (Z.lor (Z.shiftl (Z.land b0 0x1F) 6) (Z.land b1 0x3F), 2%nat)
              else (RuneError, 1%nat)
            else
              match r1 with
              | [] => (RuneError, 1%nat)
              | b2 :: r2 =>
                  let lo3 := if b0 =? 0xE0 then 0xA0 else 0x80 in
                  let hi3 := if b0 =? 0xED then 0x9F else 0xBF in
                  if (0xE0 <=? b0) && (b0 <=? 0xEF) then
                    if (lo3 <=? b1) && (b1 <=? hi3) && is_cont b2
                    then (Z.lor (Z.shiftl (Z.land b0 0x0F) 12)
                            (Z.lor (Z.shiftl (Z.land b1 0x3F) 6) (Z.land b2 0x3F)), 3%nat)
                    else (RuneError, 1%nat)
                  else
                    match r2 with
                    | [] => (RuneError, 1%nat)
                    | b3 :: _ =>
                        let lo4 := if b0 =? 0xF0 then 0x90 else 0x80 in
                        let hi4 := if b0 =? 0xF4 then 0x8F else 0xBF in
                        if (0xF0 <=? b0) && (b0 <=? 0xF4) && (lo4 <=? b1) && (b1 <=? hi4)
                           && is_cont b2 && is_cont b3
                        then (Z.lor (Z.shiftl (Z.land b0 0x07) 18)
                                (Z.lor (Z.shiftl (Z.land b1 0x3F) 12)
                                   (Z.lor (Z.shiftl (Z.land b2 0x3F) 6) (Z.land b3 0x3F))), 4%nat)
                        else (RuneError, 1%nat)
                    end
              end
        end
  end.

(** The runes that [for _, ch := range s] visits.  Every step consumes at
    least one byte, so as many steps as there are bytes always suffice. *)
Fixpoint range_runes (steps : nat) (bs : list Z) : list Z :=
  match steps, bs with
  | O, _ | _, [] => []
  | S n, _ => let '(r, w) := DecodeRune bs in r :: range_runes n (drop w bs)
  end.

Definition runes (s : string) : list Z :=
  let bs := bytes_of_string s in range_runes (length bs) bs.

(** ** The compiler state *)

(** [VersionPatch] has no expression of its own: in a Go constant block it
    repeats the expression of the line before, which is 7. *)
Definition VersionMajor : Z := 1.
Definition VersionMinor : Z := 7.
Definition VersionPatch : Z := 7.

(** An entry of the instruction table: { opcode: byte, hasArg: bool }. *)
Record Inst := mkInst { Op : Z; HasArg : bool }.

Record Compiler := mkCompiler {
  toks : list Token;
  pos : Z;
  tok : Token;
  programSize : Z;
  memorySize : Z;
  entryPoint : Z;
  labels : gmap string Z;
  vars : gmap string Z;
  memory : list Z;
  program : list Z;
  l : lexer.Lexer
}.

Definition set_toks (v : list Token) (c : Compiler) : Compiler :=
  mkCompiler v (pos c) (tok c) (programSize c) (memorySize c) (entryPoint c)
    (labels c) (vars c) (memory c) (program c) (l c).
Definition set_pos (v : Z) (c : Compiler) : Compiler :=
  mkCompiler (toks c) v (tok c) (programSize c) (memorySize c) (entryPoint c)
    (labels c) (vars c) (memory c) (program c) (l c).
Definition set_tok (v : Token) (c : Compiler) : Compiler :=
  mkCompiler (toks c) (pos c) v (programSize c) (memorySize c) (entryPoint c)
    (labels c) (vars c) (memory c) (program c) (l c).
Definition set_programSize (v : Z) (c : Compiler) : Compiler :=
  mkCompiler (toks c) (pos c) (tok c) v (memorySize c) (entryPoint c)
    (labels c) (vars c) (memory c) (program c) (l c).
Definition set_memorySize (v : Z) (c : Compiler) : Compiler :=
  mkCompiler (toks c) (pos c) (tok c) (programSize c) v (entryPoint c)
    (labels c) (vars c) (memory c) (program c) (l c).
Definition set_entryPoint (v : Z) (c : Compiler) : Compiler :=
  mkCompiler (toks c) (pos c) (tok c) (programSize c) (memorySize c) v
    (labels c) (vars c) (memory c) (program c) (l c).
Definition set_labels (v : gmap string Z) (c : Compiler) : Compiler :=
  mkCompiler (toks c) (pos c) (tok c) (programSize c) (memorySize c) (entryPoint c)
    v (vars c) (memory c) (program c) (l c).
Definition set_vars (v : gmap string Z) (c : Compiler) : Compiler :=
  mkCompiler (toks c) (pos c) (tok c) (programSize c) (memorySize c) (entryPoint c)
    (labels c) v (memory c) (program c) (l c).
Definition set_memory (v : list Z) (c : Compiler) : Compiler :=
  mkCompiler (toks c) (pos c) (tok c) (programSize c) (memorySize c) (entryPoint c)
    (labels c) (vars c) v (program c) (l c).
Definition set_program (v : list Z) (c : Compiler) : Compiler :=
  mkCompiler (toks c) (pos c) (tok c) (programSize c) (memorySize c) (entryPoint c)
    (labels c) (vars c) (memory c) v (l c).
Definition set_l (v : lexer.Lexer) (c : Compiler) : Compiler :=
  mkCompiler (toks c) (pos c) (tok c) (programSize c) (memorySize c) (entryPoint c)
    (labels c) (vars c) (memory c) (program c) v.

(** [New]: a fresh compiler over a token source; every other field has its
    zero value.  The zero token is never read: both passes assign [tok]
    before they look at it. *)
Definition New (input : lexer.Lexer) : Compiler :=
  mkCompiler [] 0 lexer.eofToken 0 0 0 ∅ ∅ [] [] input.

(** [c.Error]: the message with the position of the current token. *)
Definition Error (c : Compiler) (m : message) : error :=
  At (token.Where_ (tok c)) m.

(** [c.ErrorFrom]: the message with a given position. *)
Definition ErrorFrom (w : token.Where) (m : message) : error := At w m.

(** [next]: step to the following token, unless the current one is the end
    marker.  Indexing past the end of [toks] panics. *)
Definition next (c : Compiler) : result Compiler :=
  if decide (token.Type_ (tok c) = token.EOF) then Ok c
  else
    let p := wrap64 (pos c + 1) in
    match toks c !! Z.to_nat p with
    | Some t => Ok (set_tok t (set_pos p c))
    | None => Panic PanicIndex
    end.

(** [writeMemory]: append [data] narrowed to [size] bytes, big-endian. *)
Definition writeMemory (data : Z) (size : Z) (c : Compiler) : result Compiler :=
  if size =? 1 then Ok (set_memory (memory c ++ be_bytes 1 data) c)
  else if size =? 2 then Ok (set_memory (memory c ++ be_bytes 2 data) c)
  else if size =? 4 then Ok (set_memory (memory c ++ be_bytes 4 data) c)
  else if size =? 8 then Ok (set_memory (memory c ++ be_bytes 8 data) c)
  else Err (WrongElementSize size).

(** [writeInst]: one instruction record, the opcode byte and the operand as
    eight big-endian bytes. *)
Definition writeInst (op : Z) (data : Z) (c : Compiler) : Compiler :=
  set_program (program c ++ be_bytes 1 op ++ be_bytes 8 data) c.

(** The integer cases of [argToWord]: parse in the given base, panic when
    that fails, convert the [int64] to a [Word]. *)
Definition parseWord (text : string) (base : Z) : result Z :=
  match ParseInt text base with
  | Some data => Ok (wrap64 data)
  | None => Panic (PanicParse text)
  end.

(** [argToWord]: the [Word] an argument token stands for. *)
Definition argToWord (c : Compiler) (t : Token) : result Z :=
  match token.Type_ t with
  | token.Dec => parseWord (token.Data t) 10
  | token.Hex => parseWord (token.Data t) 16
  | token.Oct => parseWord (token.Data t) 8
  | token.Bin => parseWord (token.Data t) 2
  | token.Char =>
      if decide (1 < String.length (token.Data t))%nat then Panic PanicCharLength
      else
        match token.Data t with
        | String.String a _ => Ok (byte_of_ascii a)
        | EmptyString => Panic PanicIndex
        end
  | token.Float =>
      match ParseFloat (token.Data t) 8 with
      | Some data => Ok (Float64bits data)
      | None => Panic (PanicParse (token.Data t))
      end
  | token.Addr =>
      match labels c !! token.Data t with
      | Some data => Ok data
      | None =>
          match vars c !! token.Data t with
          | Some data => Ok data
          | None => Err (Error c (AddressNotDeclared (token.Data t)))
          end
      end
  | _ => Err (Error c (ExpectedRegisterArgument t))
  end.

(** ** The file system (package [os]) *)

Module os.

(** A file: its bytes and its permission bits. *)
Record File := mkFile { contents : list Z; mode : Z }.

(** The part of the world the container writer acts on: the files by
    path, the paths at which a file cannot be created, the process's
    umask, and the number of bytes the device still takes. *)
Record World := mkWorld {
  files : gmap string File;
  denied : gset string;
  umask : Z;
  space : nat
}.

(** [os.Create]: create the file with mode 0666 (before umask), or truncate
    it when it exists; [None] is a non-nil [err]. *)
Definition Create (path : string) (w : World) : option World :=
  if decide (path ∈ denied w) then None
  else
    let m := match files w !! path with
             | Some f => mode f
             | None => Z.ldiff 438 (umask w)
             end in
    Some (mkWorld (<[path := mkFile [] m]> (files w)) (denied w) (umask w) (space w)).

(** [f.Write] on the file created at [path]: the bytes are appended as far
    as there is room; the flag tells whether all of them were written
    ([err == nil]). *)
Definition Write (path : string) (bs : list Z) (w : World) : World * bool :=
  let n := Nat.min (length bs) (space w) in
  let fs := match files w !! path with
            | Some f => <[path := mkFile (contents f ++ take n bs) (mode f)]> (files w)
            | None => files w
            end in
  (mkWorld fs (denied w) (umask w) (space w - n)%nat, bool_decide (n = length bs)).

(** [os.Chmod]: set the permission bits of an existing file. *)
Definition Chmod (path : string) (m : Z) (w : World) : World :=
  match files w !! path with
  | Some f => mkWorld (<[path := mkFile (contents f) m]> (files w)) (denied w) (umask w) (space w)
  | None => w
  end.

End os.

(** [fileWriteWord]: the word as eight big-endian bytes. *)
Definition fileWriteWord (path : string) (word : Z) (w : os.World) : os.World * bool :=
  os.Write path (be_bytes 8 word) w.

(** The interpreter line written in front of an executable image. *)
Definition shebang : list Z := bytes_of_string "#!/usr/bin/avm
".

Definition magic : list Z := bytes_of_string "AVM".

(** ** The two passes *)

Section Passes.

(** The instruction table [Insts] of the package, from instruction name to
    descriptor.  It is declared in a file of the package that is not at
    hand, so the passes are stated for any table. *)
Variable Insts : gmap string Inst.

(** *** The compile pass *)

(** [compileInst]: one instruction, with its argument if it takes one. *)
Definition compileInst (c : Compiler) : result Compiler :=
  let t := tok c in
  match Insts !! token.Data t with
  | None => Err (Error c (NotAnInstruction (token.Data t)))
  | Some inst =>
      c ← next c;
      if negb (token.IsArg (tok c)) then
        if HasArg inst
        then Err (ErrorFrom (token.Where_ t) (ExpectsArgument (token.Data t)))
        else Ok (writeInst (Op inst) 0 c)
      else if negb (HasArg inst) then
        Err (ErrorFrom (token.Where_ t) (ExpectsNoArguments (token.Data t)))
      else if negb (token.IsArg (tok c)) then
        Err (ErrorFrom (token.Where_ (tok c)) (ExpectedArgumentGot (tok c)))
      else
        data ← argToWord c (tok c);
        c ← next c;
        Ok (writeInst (Op inst) data c)
  end.

(** The body of [for _, ch := range c.tok.Data]: every rune is written at
    the element size and [memorySize] grows by that size. *)
Fixpoint writeRunes (rs : list Z) (size : Z) (c : Compiler) : result Compiler :=
  match rs with
  | [] => Ok c
  | ch :: rs' =>
      c ← writeMemory ch size c;
      writeRunes rs' size (set_memorySize (wrap64 (memorySize c + size)) c)
  end.

(** One data item of a [let]: a string, or an argument-shaped token. *)
Definition compileLet_item (size : Z) (c : Compiler) : result Compiler :=
  if decide (token.Type_ (tok c) = token.String) then
    writeRunes (runes (token.Data (tok c))) size c
  else if negb (token.IsArg (tok c)) then
    Err (Error c (ExpectedData (tok c)))
  else
    data ← argToWord c (tok c);
    c ← writeMemory data size c;
    Ok (set_memorySize (wrap64 (memorySize c + size)) c).

(** The [for] loop of [compileLet] over the comma-separated data items,
    with a bound on its iterations. *)
Fixpoint compileLet_items (fuel : nat) (size : Z) (c : Compiler) : result Compiler :=
  match fuel with
  | O => OutOfFuel
  | S fuel' =>
      c ← compileLet_item size c;
      c ← next c;
      if decide (token.Type_ (tok c) ≠ token.Comma) then Ok c
      else
        c ← next c;
        compileLet_items fuel' size c
  end.

(** [compileLet]: a variable declaration.  The loop runs at most once per
    token. *)
Definition compileLet (c : Compiler) : result Compiler :=
  c ← next c;
  if decide (token.Type_ (tok c) ≠ token.Word) then
    Err (Error c (ExpectedIdentifier (tok c)))
  else
    let name := token.Data (tok c) in
    if decide (is_Some (vars c !! name)) then
      Err (Error c (RedefinedVariable name))
    else if decide (is_Some (labels c !! name)) then
      Err (Error c (LabelAlreadyExists name))
    else
      let c := set_vars (<[name := wrap64 (memorySize c + 1)]> (vars c)) c in
      c ← next c;
      size ← match token.Type_ (tok c) with
             | token.Size8 => Ok 1
             | token.Size16 => Ok 2
             | token.Size32 => Ok 4
             | token.Size64 => Ok 8
             | _ => Err (Error c (ExpectedSize (tok c)))
             end;
      c ← next c;
      compileLet_items (length (toks c)) size c.

(** The body of the [for] loop of [compile]: the [switch] on the kind of
    the token under the cursor. *)
Definition compile_body (c : Compiler) : result Compiler :=
  match toks c !! Z.to_nat (pos c) with
  | None => Panic PanicIndex
  | Some t =>
      match token.Type_ t with
      | token.Word => compileInst c
      | token.Let => compileLet c
      | _ => Err (Error c (Unexpected (tok c)))
      end
  end.

(** The [for] loop of [compile], with a bound on its iterations. *)
Fixpoint compile_loop (fuel : nat) (c : Compiler) : result Compiler :=
  if decide (token.Type_ (tok c) = token.EOF) then Ok c
  else
    match fuel with
    | O => OutOfFuel
    | S fuel' => c ← compile_body c; compile_loop fuel' c
    end.

(** The start of [compile]: the cursor goes back to the first token. *)
Definition compile_start (c : Compiler) : result Compiler :=
  let c := set_pos 0 c in
  match toks c !! Z.to_nat (pos c) with
  | Some t => Ok (set_tok t c)
  | None => Panic PanicIndex
  end.

(** [compile]: the compile pass.  The loop runs at most once per token. *)
Definition compile (c : Compiler) : result Compiler :=
  c ← compile_start c;
  compile_loop (length (toks c)) c.

(** *** The preprocessing pass *)

(** The [for] loop of [preproc].  Each round takes the next token of the
    lexer ([lexer.NextToken], written out as the match on the pending
    tokens) and stops at the end marker. *)
Fixpoint preproc_scan (input : lexer.Lexer) (c : Compiler) : result Compiler :=
  match input with
  | [] => Ok (set_tok lexer.eofToken (set_l [] c))
  | t :: rest =>
      let c := set_tok t (set_l rest c) in
      match token.Type_ t with
      | token.EOF => Ok c
      | token.Error => Err (Error c (LexMessage (token.Data t)))
      | token.Word =>
          let c := if decide (is_Some (Insts !! token.Data t))
                   then set_pos (wrap64 (pos c + 1)) c else c in
          preproc_scan rest (set_toks (toks c ++ [tok c]) c)
      | token.Label =>
          if decide (is_Some (labels c !! token.Data t)) then
            Err (Error c (RedefinitionOfLabel (token.Data t)))
          else
            preproc_scan rest (set_labels (<[token.Data t := pos c]> (labels c)) c)
      | _ => preproc_scan rest (set_toks (toks c ++ [tok c]) c)
      end
  end.

(** [preproc]: scan the tokens, then require the label [entry]. *)
Definition preproc (c : Compiler) : result Compiler :=
  c ← preproc_scan (l c) c;
  match labels c !! "entry"%string with
  | None => Err EntryNotFound
  | Some entry =>
      let c := set_toks (toks c ++ [tok c]) c in
      let c := set_programSize (pos c) c in
      Ok (set_entryPoint entry c)
  end.

(** *** The container writer *)

(** The writes of [CompileToBinary] once the file is created.  The
    results of the header writes are dropped, as in the code; a failed
    write of the memory or of the program is returned. *)
Definition writeImage (c : Compiler) (path : string) (executable : bool)
    (w : os.World) : result Compiler * os.World :=
  let w := if executable
           then os.Chmod path 511 (fst (os.Write path shebang w))
           else w in
  let w := fst (os.Write path magic w) in
  let w := fst (os.Write path [VersionMajor; VersionMinor; VersionPatch] w) in
  let w := fst (fileWriteWord path (programSize c) w) in
  let w := fst (fileWriteWord path (memorySize c) w) in
  let w := fst (fileWriteWord path (entryPoint c) w) in
  let '(w, ok) := os.Write path (memory c) w in
  if negb ok then (Err (IOError path), w)
  else
    let '(w, ok) := os.Write path (program c) w in
    if negb ok then (Err (IOError path), w)
    else (Ok c, w).

(** [CompileToBinary]: both passes, then the file.  [Ok] is the return of
    a nil error. *)
Definition CompileToBinary (c : Compiler) (path : string) (executable : bool)
    (w : os.World) : result Compiler * os.World :=
  match preproc c with
  | Ok c =>
      match compile c with
      | Ok c =>
          match os.Create path w with
          | None => (Err (IOError path), w)
          | Some w => writeImage c path executable w
          end
      | Err e => (Err e, w)
      | Panic p => (Panic p, w)
      | OutOfFuel => (OutOfFuel, w)
      end
  | Err e => (Err e, w)
  | Panic p => (Panic p, w)
  | OutOfFuel => (OutOfFuel, w)
  end.

(** *** The states of the compile loop *)

(** One round of the loop. *)
Definition loop_step (c c' : Compiler) : Prop :=
  token.Type_ (tok c) <> token.EOF /\ compile_body c = Ok c'.

(** [visits c c']: the loop started in [c] comes to [c'] at the head of a
    round. *)
Definition visits : relation Compiler := rtc loop_step.

(** The instruction-slot counter after a token list: the number of words
    in it that name an instruction. *)
Definition slots (ts : list Token) : Z :=
  Z.of_nat (length (filter (fun t => token.Type_ t = token.Word /\
                                      is_Some (Insts !! token.Data t)) ts)).

(** The state at the head of the compile loop: after [preproc] and the
    first two assignments of [compile]. *)
Definition start_state (ts : list Token) : result Compiler :=
  c ← preproc (New ts); compile_start c.

(** [reaches ts c]: assembling the token stream [ts], the compile loop
    comes to the state [c] at the head of a round. *)
Definition reaches (ts : list Token) (c : Compiler) : Prop :=
  exists c0, start_state ts = Ok c0 /\ visits c0 c.

End Passes.

(** ** Specification vocabulary *)

(** The tokens the lexer gives before its first end marker. *)
Fixpoint until_eof (ts : list Token) : list Token :=
  match ts with
  | [] => []
  | t :: ts' => if decide (token.Type_ t = token.EOF) then [] else t :: until_eof ts'
  end.

(** The tokens that go on to the compile pass: all but the label
    declarations. *)
Definition kept (ts : list Token) : list Token :=
  filter (fun t => token.Type_ t <> token.Label) ts.

(** The names a token list declares as labels, in order. *)
Definition label_names (ts : list Token) : list string :=
  token.Data <$> filter (fun t => token.Type_ t = token.Label) ts.

(** The cursor is on its token, the end marker is the last token and only
    the last one, and the token list has a length a Go slice can have. *)
Record cursor_ok (c : Compiler) : Prop := mk_cursor_ok {
  cur_tok : toks c !! Z.to_nat (pos c) = Some (tok c);
  cur_pos : 0 <= pos c;
  cur_eof : forall i t, toks c !! i = Some t ->
            token.Type_ t = token.EOF <-> S i = length (toks c);
  cur_len : Z.of_nat (length (toks c)) < 2 ^ 64
}.

(** [memorySize] is the length of the memory region, as a [Word]. *)
Definition memory_ok (c : Compiler) : Prop :=
  memorySize c = wrap64 (Z.of_nat (length (memory c))).

Definition wf (c : Compiler) : Prop := cursor_ok c /\ memory_ok c.

(** What the compile pass never writes. *)
Definition same_tables (c c' : Compiler) : Prop :=
  toks c' = toks c /\ labels c' = labels c /\
  programSize c' = programSize c /\ entryPoint c' = entryPoint c.

(** What one data item, and so the whole list, leaves alone. *)
Definition data_step (c c' : Compiler) : Prop :=
  same_tables c c' /\ vars c' = vars c /\ program c' = program c /\
  pos c <= pos c' /\ wf c'.

(** [declared_before c v]: a [let] of the name [v] lies before the cursor. *)
Definition declared_before (c : Compiler) (v : string) : Prop :=
  exists (i : nat) (t t' : Token),
    Z.of_nat i < pos c /\
    toks c !! i = Some t /\ token.Type_ t = token.Let /\
    toks c !! S i = Some t' /\ token.Type_ t' = token.Word /\ token.Data t' = v.

(** No [let] of a token list gives its variable the name of an
    instruction. *)
Definition names_apart (Insts : gmap string Inst) (ts : list Token) : Prop :=
  forall (i : nat) (t t' : Token),
    ts !! i = Some t -> token.Type_ t = token.Let ->
    ts !! S i = Some t' -> token.Type_ t' = token.Word ->
    Insts !! token.Data t' = None.

(** The bytes of the container, in the order [CompileToBinary] writes
    them. *)
Definition image (c : Compiler) (executable : bool) : list Z :=
  (if executable then shebang else []) ++ magic ++
  [VersionMajor; VersionMinor; VersionPatch] ++
  be_bytes 8 (programSize c) ++ be_bytes 8 (memorySize c) ++
  be_bytes 8 (entryPoint c) ++ memory c ++ program c.

(** ** Further vocabulary *)

(** The number that big-endian bytes stand for: how a reader of the
    container takes back what [binary.Write] wrote. *)
Definition be_value (bs : list Z) : Z := foldl (fun acc b => acc * 256 + b) 0 bs.

(** The base [argToWord] parses an integer literal of a kind in. *)
Definition base_of (k : token.Kind) : option Z :=
  match k with
  | token.Dec => Some 10
  | token.Hex => Some 16
  | token.Oct => Some 8
  | token.Bin => Some 2
  | _ => None
  end.

(** A stretch of tokens the scan of [preproc] goes through: no end marker,
    no error token, no label declared twice. *)
Definition clean (ts : list Token) : Prop :=
  Forall (fun t => token.Type_ t <> token.EOF /\ token.Type_ t <> token.Error) ts /\
  NoDup (label_names ts).

(** What the code that handles data leaves alone, and what it may do to
    the memory region: append. *)
Definition data_grows (c c' : Compiler) : Prop :=
  same_tables c c' /\ vars c' = vars c /\ program c' = program c /\
  memory c `prefix_of` memory c'.

(** What the compile pass may do to a state: append to the two regions and
    add variables. *)
Definition grows (c c' : Compiler) : Prop :=
  same_tables c c' /\ memory c `prefix_of` memory c' /\
  program c `prefix_of` program c' /\ vars c ⊆ vars c'.

(** What [argToWord] takes for granted of the lexer (its comments say
    "This should never happen"): the payload of a number parses in the base
    of its kind, and the payload of a character is one byte. *)
Definition payload_ok (t : Token) : Prop :=
  match token.Type_ t with
  | token.Dec => is_Some (ParseInt (token.Data t) 10)
  | token.Hex => is_Some (ParseInt (token.Data t) 16)
  | token.Oct => is_Some (ParseInt (token.Data t) 8)
  | token.Bin => is_Some (ParseInt (token.Data t) 2)
  | token.Char => String.length (token.Data t) = 1%nat
  | token.Float => is_Some (ParseFloat (token.Data t) 8)
  | _ => True
  end.

(** The call comes back to its caller, with or without an error. *)
Definition returns {A : Type} (r : result A) : Prop :=
  match r with
  | Ok _ | Err _ => True
  | Panic _ | OutOfFuel => False
  end.

(** The errors the two passes can come back with: every message of
    [c.Error] and [c.ErrorFrom] but two, and the missing entry point. *)
Definition reported (e : error) : Prop :=
  match e with
  | At _ (ExpectedArgumentGot _) | At _ (ExpectedRegisterArgument _) => False
  | At _ _ => True
  | EntryNotFound => True
  | WrongElementSize _ | IOError _ => False
  end.

(** The kinds of the four size keywords. *)
Definition is_size (k : token.Kind) : bool :=
  match k with
  | token.Size8 | token.Size16 | token.Size32 | token.Size64 => true
  | _ => false
  end.

(** ** Sample programs

    A small instruction table and a few token streams on which the passes
    are run.  The table stands in for the one of the package: its opcodes
    are sample values, and nothing but the examples depends on them. *)

Definition SampleInsts : gmap string Inst :=
  list_to_map [("halt"%string, mkInst 0 false); ("push"%string, mkInst 1 true);
               ("jmp"%string, mkInst 2 true)].

(** The state a result holds, for a run that is known to go through. *)
Definition state_of (r : result Compiler) : Compiler :=
  match r with Ok c => c | _ => New [] end.

(** The file system before a run: no file, no refused path, umask 022 and
    room for 4096 bytes. *)
Definition empty_world : os.World := os.mkWorld ∅ ∅ 18 4096.

(** [entry: halt] *)
Definition minimal_program : list Token := [Tok token.Label "entry"; Tok token.Word "halt"].

(** [let x sz8 1, 2, 3   entry: halt] *)
Definition let_program : list Token :=
  [Tok token.Let "let"; Tok token.Word "x"; Tok token.Size8 "sz8";
   Tok token.Dec "1"; Tok token.Comma ","; Tok token.Dec "2"; Tok token.Comma ",";
   Tok token.Dec "3"; Tok token.Label "entry"; Tok token.Word "halt"].

(** [jmp @L   entry: halt   L: halt]: the label [L] is used before it is
    declared. *)
Definition jump_program : list Token :=
  [Tok token.Word "jmp"; Tok token.Addr "L"; Tok token.Label "entry";
   Tok token.Word "halt"; Tok token.Label "L"; Tok token.Word "halt"].

(** [entry: push @x   let x sz8 1   halt]: the variable [x] is used before
    it is declared. *)
Definition early_use_program : list Token :=
  [Tok token.Label "entry"; Tok token.Word "push"; Tok token.Addr "x";
   Tok token.Let "let"; Tok token.Word "x"; Tok token.Size8 "sz8"; Tok token.Dec "1";
   Tok token.Word "halt"].

(** [a: a:]: a label declared twice, and no [entry]. *)
Definition twice_program : list Token := [Tok token.Label "a"; Tok token.Label "a"].

(** [halt]: no label at all. *)
Definition no_entry_program : list Token := [Tok token.Word "halt"].

(** [entry: push]: an instruction without the argument it takes. *)
Definition lone_push_program : list Token := [Tok token.Label "entry"; Tok token.Word "push"].

(** [entry: halt 1]: an instruction with an argument it does not take. *)
Definition halt_arg_program : list Token :=
  [Tok token.Label "entry"; Tok token.Word "halt"; Tok token.Dec "1"].

(** The states at the head of the compile loop for these programs. *)
Definition let_state : Compiler := state_of (start_state SampleInsts let_program).
Definition jump_state : Compiler := state_of (start_state SampleInsts jump_program).
Definition early_use_state : Compiler := state_of (start_state SampleInsts early_use_program).
Definition lone_push_state : Compiler := state_of (start_state SampleInsts lone_push_program).
Definition halt_arg_state : Compiler := state_of (start_state SampleInsts halt_arg_program).


(** Further token streams and file systems for the examples. *)

(** [entry: halt] and then a character the lexer cannot read. *)
Definition stray_error_program : list Token :=
  [Tok token.Label "entry"; Tok token.Word "halt"; Tok token.Error "bad character"].

(** [halt  entry:]: the entry label stands after the last instruction. *)
Definition late_entry_program : list Token := [Tok token.Word "halt"; Tok token.Label "entry"].

(** [let halt sz8 1   entry: halt]: a variable named like an instruction. *)
Definition clash_program : list Token :=
  [Tok token.Let "let"; Tok token.Word "halt"; Tok token.Size8 "sz8"; Tok token.Dec "1";
   Tok token.Label "entry"; Tok token.Word "halt"].

(** [entry: let x sz8 1  halt  x:]: a variable named like a label that is
    declared further on. *)
Definition label_clash_program : list Token :=
  [Tok token.Label "entry"; Tok token.Let "let"; Tok token.Word "x"; Tok token.Size8 "sz8";
   Tok token.Dec "1"; Tok token.Word "halt"; Tok token.Label "x"].

(** [entry: let a sz8 1, 2  let b sz16 3  halt]. *)
Definition two_lets_program : list Token :=
  [Tok token.Label "entry";
   Tok token.Let "let"; Tok token.Word "a"; Tok token.Size8 "sz8";
   Tok token.Dec "1"; Tok token.Comma ","; Tok token.Dec "2";
   Tok token.Let "let"; Tok token.Word "b"; Tok token.Size16 "sz16"; Tok token.Dec "3";
   Tok token.Word "halt"].

(** [entry: push 0x10]: a payload the lexer should not have let through. *)
Definition bad_payload_program : list Token :=
  [Tok token.Label "entry"; Tok token.Word "push"; Tok token.Hex "0x10"].

(** [entry: ,]: a statement cannot start with a comma. *)
Definition stray_comma_program : list Token := [Tok token.Label "entry"; Tok token.Comma ","].

(** [entry: nop]: a word the instruction table does not have. *)
Definition unknown_word_program : list Token := [Tok token.Label "entry"; Tok token.Word "nop"].

(** [entry: let 1]: a [let] without a name. *)
Definition let_number_program : list Token :=
  [Tok token.Label "entry"; Tok token.Let "let"; Tok token.Dec "1"].

(** [entry: let x halt]: a [let] without an element size. *)
Definition let_no_size_program : list Token :=
  [Tok token.Label "entry"; Tok token.Let "let"; Tok token.Word "x"; Tok token.Word "halt"].

(** [entry: let x sz8 halt]: a [let] without data. *)
Definition let_no_data_program : list Token :=
  [Tok token.Label "entry"; Tok token.Let "let"; Tok token.Word "x"; Tok token.Size8 "sz8";
   Tok token.Word "halt"].

(** [entry: let x sz8 1  let x sz8 2]: a variable declared twice. *)
Definition let_twice_program : list Token :=
  [Tok token.Label "entry"; Tok token.Let "let"; Tok token.Word "x"; Tok token.Size8 "sz8";
   Tok token.Dec "1"; Tok token.Let "let"; Tok token.Word "x"; Tok token.Size8 "sz8";
   Tok token.Dec "2"].

(** [let s sz8 "hi"  entry: halt]. *)
Definition string_program : list Token :=
  [Tok token.Let "let"; Tok token.Word "s"; Tok token.Size8 "sz8"; Tok token.String "hi";
   Tok token.Label "entry"; Tok token.Word "halt"].

(** A device with room for 40 bytes only. *)
Definition small_world : os.World := os.mkWorld ∅ ∅ 18 40.

(** A file system that refuses to create [a.out]. *)
Definition denied_world : os.World := os.mkWorld ∅ {["a.out"%string]} 18 4096.

(** * Properties *)

(** ** Evaluations of the library models *)

Example ParseInt_ff : ParseInt "ff" 16 = Some 255.
Proof. reflexivity. Qed.

Example ParseInt_prefix : ParseInt "0xff" 16 = None.
Proof. reflexivity. Qed.

Example ParseInt_min : ParseInt "-9223372036854775808" 10 = Some (- 2 ^ 63).
Proof. reflexivity. Qed.

Example ParseInt_range : ParseInt "9223372036854775808" 10 = None.
Proof. reflexivity. Qed.

Example Float64bits_1_5 : Float64bits <$> ParseFloat "1.5" 8 = Some 0x3FF8000000000000.
Proof. reflexivity. Qed.

Example Float64bits_0_1 : Float64bits <$> ParseFloat "0.1" 64 = Some 0x3FB999999999999A.
Proof. reflexivity. Qed.

Example Float64bits_neg : Float64bits <$> ParseFloat "-2.5e3" 64 = Some 0xC0A3880000000000.
Proof. reflexivity. Qed.

Example Float64bits_single : Float64bits <$> ParseFloat "0.1" 32 = Some 0x3FB99999A0000000.
Proof. reflexivity. Qed.

Example Float64bits_max : Float64bits <$> ParseFloat "1.7976931348623157e308" 64 = Some 0x7FEFFFFFFFFFFFFF.
Proof. vm_compute. reflexivity. Qed.

Example Float64bits_tiny : Float64bits <$> ParseFloat "5e-324" 64 = Some 1.
Proof. vm_compute. reflexivity. Qed.

Example ParseFloat_range : ParseFloat "1e309" 64 = None.
Proof. vm_compute. reflexivity. Qed.

Example runes_ascii : runes "hi!" = [104; 105; 33].
Proof. reflexivity. Qed.

Example runes_two_bytes : range_runes 2 [0xC3; 0xA9] = [233].
Proof. reflexivity. Qed.

Example runes_four_bytes : range_runes 4 [0xF0; 0x9F; 0x98; 0x80] = [128512].
Proof. reflexivity. Qed.

Example runes_invalid : range_runes 3 [0xED; 0xA0; 0x80] = [RuneError; RuneError; RuneError].
Proof. reflexivity. Qed.

(** ** Words and bytes *)

Lemma wrap64_small (z : Z) : 0 <= z < 2 ^ 64 -> wrap64 z = z.
Proof. intros H. unfold wrap64. apply Z.mod_small. exact H. Qed.

Lemma wrap64_range (z : Z) : 0 <= wrap64 z < 2 ^ 64.
Proof. unfold wrap64. apply Z.mod_pos_bound. lia. Qed.

Lemma wrap64_succ (z : Z) : wrap64 (wrap64 z + 1) = wrap64 (z + 1).
Proof. unfold wrap64. rewrite Zplus_mod_idemp_l. reflexivity. Qed.

Lemma length_be_bytes (n : nat) (v : Z) : length (be_bytes n v) = n.
Proof. induction n as [|n IH]; simpl; [reflexivity | now rewrite IH]. Qed.

(** A byte of the low 64 bits of a number is that byte of the number. *)
Lemma byte_wrap64 (v : Z) (k : Z) :
  0 <= k <= 56 -> (wrap64 v / 2 ^ k) mod 256 = (v / 2 ^ k) mod 256.
Proof.
  intros Hk. unfold wrap64.
  rewrite (Z.div_mod v (2 ^ 64)) at 2 by lia.
  replace (2 ^ 64 * (v / 2 ^ 64)) with ((2 ^ (56 - k) * 256 * (v / 2 ^ 64)) * 2 ^ k).
  - rewrite Z.div_add_l by (apply Z.pow_nonzero; lia).
    replace (2 ^ (56 - k) * 256 * (v / 2 ^ 64)) with ((2 ^ (56 - k) * (v / 2 ^ 64)) * 256) by ring.
    rewrite Z.add_comm, Z_mod_plus_full. reflexivity.
  - replace (2 ^ 64) with (2 ^ (56 - k) * 256 * 2 ^ k); [ring|].
    change 256 with (2 ^ 8). rewrite <- !Z.pow_add_r by lia. f_equal. lia.
Qed.

Lemma be_bytes_wrap64 (v : Z) : be_bytes 8 (wrap64 v) = be_bytes 8 v.
Proof.
  cbn [be_bytes]. rewrite !byte_wrap64 by lia. reflexivity.
Qed.

(** ** Well-formed states *)

#[global] Instance same_tables_refl : Reflexive same_tables.
Proof. intros c. unfold same_tables. auto. Qed.

#[global] Instance same_tables_trans : Transitive same_tables.
Proof. intros a b c (?&?&?&?) (?&?&?&?). unfold same_tables. repeat split; congruence. Qed.

Lemma cursor_lt (c : Compiler) : cursor_ok c -> (Z.to_nat (pos c) < length (toks c))%nat.
Proof. intros H. eapply lookup_lt_Some, cur_tok, H. Qed.

(** The two ways [next] goes in a well-formed state. *)
Lemma next_cases (c : Compiler) :
  cursor_ok c ->
  (token.Type_ (tok c) = token.EOF /\ next c = Ok c) \/
  (token.Type_ (tok c) <> token.EOF /\
   exists t, toks c !! Z.to_nat (pos c + 1) = Some t /\
             next c = Ok (set_tok t (set_pos (pos c + 1) c)) /\
             cursor_ok (set_tok t (set_pos (pos c + 1) c))).
Proof.
  intros H. unfold next. destruct (decide _) as [E|E]; [left; auto|right].
  split; [exact E|].
  pose proof (cursor_lt c H) as Hlt. pose proof (cur_pos c H) as Hp.
  pose proof (cur_len c H) as Hl.
  assert (S (Z.to_nat (pos c)) <> length (toks c)) as Hne.
  { intros Hs. apply E. eapply (cur_eof c H); [apply (cur_tok c H)|exact Hs]. }
  assert (Z.to_nat (pos c + 1) < length (toks c))%nat as Hlt' by lia.
  destruct (lookup_lt_is_Some_2 _ _ Hlt') as [t Ht].
  exists t. rewrite wrap64_small by lia. rewrite Ht.
  split; [reflexivity|]. split; [reflexivity|].
  constructor; cbn; [exact Ht | lia | apply (cur_eof c H) | exact Hl].
Qed.

Lemma next_Ok (c c' : Compiler) :
  cursor_ok c -> next c = Ok c' ->
  cursor_ok c' /\ same_tables c c' /\ vars c' = vars c /\ memory c' = memory c /\
  memorySize c' = memorySize c /\ program c' = program c /\
  toks c' !! Z.to_nat (pos c') = Some (tok c') /\
  (token.Type_ (tok c) = token.EOF -> c' = c) /\
  (token.Type_ (tok c) <> token.EOF -> pos c' = pos c + 1).
Proof.
  intros H Hn. destruct (next_cases c H) as [[E R]|[E (t & Ht & R & Hc)]];
    rewrite R in Hn; inversion Hn; subst c'; clear Hn.
  - unfold same_tables. split_and!; first [done | apply H].
  - unfold same_tables. split_and!; first [done | apply Hc].
Qed.

Lemma next_total (c : Compiler) : cursor_ok c -> exists c', next c = Ok c'.
Proof.
  intros H. destruct (next_cases c H) as [[E R]|[E (t & Ht & R & Hc)]]; eauto.
Qed.

(** ** Results *)

Lemma bind_Ok {A B : Type} (m : result A) (k : A -> result B) (b : B) :
  m ≫= k = Ok b -> exists a, m = Ok a /\ k a = Ok b.
Proof. destruct m; cbn; intros H; try discriminate. eauto. Qed.

Lemma bind_fuel {A B : Type} (m : result A) (k : A -> result B) :
  m <> OutOfFuel -> (forall a, m = Ok a -> k a <> OutOfFuel) -> m ≫= k <> OutOfFuel.
Proof. destruct m; cbn; intros H1 H2; try discriminate; [now apply H2 | now destruct H1]. Qed.

Ltac inv_bind H :=
  let a := fresh "c" in
  let E := fresh "E" in
  apply bind_Ok in H as (a & E & H).

(** ** The memory region *)

Lemma writeMemory_Ok (data size : Z) (c c' : Compiler) :
  writeMemory data size c = Ok c' ->
  exists n, size = Z.of_nat n /\ c' = set_memory (memory c ++ be_bytes n data) c.
Proof.
  unfold writeMemory. intros H.
  destruct (size =? 1) eqn:E1; [apply Z.eqb_eq in E1; exists 1%nat; inversion H; by subst|].
  destruct (size =? 2) eqn:E2; [apply Z.eqb_eq in E2; exists 2%nat; inversion H; by subst|].
  destruct (size =? 4) eqn:E4; [apply Z.eqb_eq in E4; exists 4%nat; inversion H; by subst|].
  destruct (size =? 8) eqn:E8; [apply Z.eqb_eq in E8; exists 8%nat; inversion H; by subst|].
  discriminate.
Qed.

(** Writing a datum and counting it keeps [memorySize] in step with the
    length of the region. *)
Lemma write_counted (data size : Z) (c c' : Compiler) :
  memory_ok c -> writeMemory data size c = Ok c' ->
  memory_ok (set_memorySize (wrap64 (memorySize c' + size)) c').
Proof.
  intros Hm H. apply writeMemory_Ok in H as (n & -> & ->).
  unfold memory_ok in *. cbn. rewrite Hm, length_app, length_be_bytes.
  unfold wrap64. rewrite Zplus_mod_idemp_l. f_equal. lia.
Qed.

Lemma writeMemory_fuel (data size : Z) (c : Compiler) : writeMemory data size c <> OutOfFuel.
Proof. unfold writeMemory. repeat case_match; discriminate. Qed.

Lemma argToWord_fuel (c : Compiler) (t : Token) : argToWord c t <> OutOfFuel.
Proof. unfold argToWord, parseWord. repeat case_match; discriminate. Qed.

(** ** The data items of a [let] *)

Lemma data_step_trans (a b c : Compiler) : data_step a b -> data_step b c -> data_step a c.
Proof.
  intros (?&?&?&?&?) (?&?&?&?&?). unfold data_step.
  split_and!; [etrans; eauto | congruence | congruence | lia | done].
Qed.

Lemma next_data_step (c c' : Compiler) : wf c -> next c = Ok c' -> data_step c c'.
Proof.
  intros [Hc Hm] H. destruct (next_Ok c c' Hc H) as (?&?&?&Hmem&Hms&?&?&He&Hp).
  unfold data_step, wf, memory_ok. rewrite Hms, Hmem. split_and!; try done.
  destruct (decide (token.Type_ (tok c) = token.EOF)) as [E|E].
  - rewrite (He E). lia.
  - rewrite (Hp E). lia.
Qed.

Lemma writeRunes_Ok (rs : list Z) (size : Z) (c c' : Compiler) :
  wf c -> writeRunes rs size c = Ok c' ->
  data_step c c' /\ pos c' = pos c /\ tok c' = tok c.
Proof.
  revert c. induction rs as [|r rs IH]; intros c Hwf H; cbn in H.
  - inversion H; subst. unfold data_step. split_and!; done.
  - inv_bind H. pose proof (write_counted _ _ _ _ (proj2 Hwf) E) as Hm.
    pose proof E as E'. apply writeMemory_Ok in E' as (n & -> & ->).
    apply IH in H as (Hd & Hp & Ht).
    + split_and!; [|by rewrite Hp|by rewrite Ht].
      destruct Hd as ((?&?&?&?)&?&?&?&?). unfold data_step, same_tables.
      split_and!; try done; cbn in *; lia.
    + split; [|exact Hm]. destruct Hwf as [[] _]. constructor; done.
Qed.

Lemma writeRunes_fuel (rs : list Z) (size : Z) (c : Compiler) :
  writeRunes rs size c <> OutOfFuel.
Proof.
  revert c. induction rs as [|r rs IH]; intros c; cbn; [discriminate|].
  apply bind_fuel; [apply writeMemory_fuel | intros; apply IH].
Qed.

Lemma compileLet_item_Ok (size : Z) (c c' : Compiler) :
  wf c -> compileLet_item size c = Ok c' ->
  data_step c c' /\ pos c' = pos c /\ tok c' = tok c.
Proof.
  intros Hwf H. unfold compileLet_item in H.
  destruct (decide _) as [_|_]; [by apply writeRunes_Ok in H|].
  destruct (negb _); [discriminate|].
  inv_bind H. inv_bind H. inversion H; subst c'; clear H.
  pose proof (write_counted _ _ _ _ (proj2 Hwf) E0) as Hm.
  apply writeMemory_Ok in E0 as (n & -> & ->).
  assert (cursor_ok (set_memorySize (wrap64 (memorySize c + Z.of_nat n))
                       (set_memory (memory c ++ be_bytes n c0) c))) as Hc.
  { destruct Hwf as [[] _]. constructor; done. }
  unfold data_step, same_tables, wf. split_and!; try done; cbn; lia.
Qed.

Lemma compileLet_item_fuel (size : Z) (c : Compiler) : compileLet_item size c <> OutOfFuel.
Proof.
  unfold compileLet_item. repeat case_match; try discriminate; [apply writeRunes_fuel|].
  apply bind_fuel; [apply argToWord_fuel|]. intros.
  apply bind_fuel; [apply writeMemory_fuel|]. discriminate.
Qed.

Lemma compileLet_items_Ok (fuel : nat) (size : Z) (c c' : Compiler) :
  wf c -> compileLet_items fuel size c = Ok c' -> data_step c c'.
Proof.
  revert c. induction fuel as [|fuel IH]; intros c Hwf H; cbn in H; [discriminate|].
  inv_bind H. inv_bind H.
  apply compileLet_item_Ok in E as (Hd1 & _ & _); [|done].
  pose proof (next_data_step _ _ (proj2 (proj2 (proj2 (proj2 Hd1)))) E0) as Hd2.
  pose proof (data_step_trans _ _ _ Hd1 Hd2) as Hd.
  destruct (decide _) as [_|_]; [by inversion H; subst|].
  inv_bind H.
  pose proof (next_data_step _ _ (proj2 (proj2 (proj2 (proj2 Hd2)))) E) as Hd3.
  apply IH in H; [|apply Hd3].
  eauto using data_step_trans.
Qed.

(** The loop over the data items ends before its bound: every round that
    goes on has moved the cursor over a comma. *)
Lemma compileLet_items_fuel (fuel : nat) (size : Z) (c : Compiler) :
  wf c -> (length (toks c) - Z.to_nat (pos c) <= fuel)%nat ->
  compileLet_items fuel size c <> OutOfFuel.
Proof.
  revert c. induction fuel as [|fuel IH]; intros c Hwf Hf.
  { pose proof (cursor_lt c (proj1 Hwf)). lia. }
  cbn. apply bind_fuel; [apply compileLet_item_fuel|]. intros c1 E1.
  apply compileLet_item_Ok in E1 as (Hd1 & Hp1 & Ht1); [|done].
  destruct Hd1 as (Hs1 & _ & _ & _ & Hwf1).
  destruct (next_total c1 (proj1 Hwf1)) as [c2 E2]. rewrite E2. cbn.
  destruct (decide _) as [_|Hc]; [discriminate|].
  destruct (next_Ok _ _ (proj1 Hwf1) E2) as (Hc2 & Hs2 & _ & _ & _ & _ & _ & He2 & Hp2).
  pose proof (next_data_step _ _ Hwf1 E2) as (_&_&_&_&Hwf2).
  assert (token.Type_ (tok c1) <> token.EOF) as Hne1.
  { intros E. rewrite (He2 E) in Hc. apply Hc. rewrite E. discriminate. }
  destruct (next_total c2 Hc2) as [c3 E3]. rewrite E3. cbn.
  destruct (next_Ok _ _ Hc2 E3) as (Hc3 & Hs3 & _ & _ & _ & _ & _ & _ & Hp3).
  pose proof (next_data_step _ _ Hwf2 E3) as (_&_&_&_&Hwf3).
  apply IH; [done|].
  destruct Hs1 as (T1&_), Hs2 as (T2&_), Hs3 as (T3&_).
  rewrite T3, T2, T1, Hp3, (Hp2 Hne1), Hp1.
  - pose proof (cur_pos c (proj1 Hwf)). lia.
  - intros E. apply Hc. rewrite E. discriminate.
Qed.

(** ** The compile pass *)

Lemma wf_set_vars (m : gmap string Z) (c : Compiler) : wf c -> wf (set_vars m c).
Proof. intros [[] ?]. split; [constructor|]; done. Qed.

Lemma wf_writeInst (op data : Z) (c : Compiler) : wf c -> wf (writeInst op data c).
Proof. intros [[] ?]. split; [constructor|]; done. Qed.

Section CompileLoop.

Variable Insts : gmap string Inst.

(** A [let] that is accepted: the name after the keyword is bound to
    [memorySize + 1], and only the cursor, the variables and the memory
    region change. *)
Lemma compileLet_Ok (c c' : Compiler) :
  wf c -> token.Type_ (tok c) <> token.EOF -> compileLet c = Ok c' ->
  same_tables c c' /\ wf c' /\ pos c < pos c' /\ program c' = program c /\
  exists t, toks c !! Z.to_nat (pos c + 1) = Some t /\
            token.Type_ t = token.Word /\
            vars c !! token.Data t = None /\ labels c !! token.Data t = None /\
            vars c' = <[token.Data t := wrap64 (memorySize c + 1)]> (vars c).
Proof.
  intros Hwf Hne H. unfold compileLet in H.
  destruct (next_cases c (proj1 Hwf)) as [[E _]|[_ (t & Ht & R & Hc1)]]; [done|].
  rewrite R in H. cbn [mbind result_bind] in H.
  set (c1 := set_tok t (set_pos (pos c + 1) c)) in *.
  assert (wf c1) as Hwf1 by (split; [done|apply Hwf]).
  destruct (decide _) as [|Hw]; [discriminate|]. apply dec_stable in Hw.
  destruct (decide _) as [|Hv]; [discriminate|].
  destruct (decide _) as [|Hl]; [discriminate|].
  apply eq_None_not_Some in Hv, Hl.
  set (c2 := set_vars _ c1) in *.
  assert (wf c2) as Hwf2 by by apply wf_set_vars.
  inv_bind H. inv_bind H. inv_bind H.
  pose proof (next_data_step _ _ Hwf2 E) as D3.
  pose proof (next_data_step _ _ (proj2 (proj2 (proj2 (proj2 D3)))) E1) as D4.
  pose proof (compileLet_items_Ok _ _ _ _ (proj2 (proj2 (proj2 (proj2 D4)))) H) as D5.
  pose proof (data_step_trans _ _ _ (data_step_trans _ _ _ D3 D4) D5) as (T & V & P & L & W).
  split_and!; try done.
  - cbn in L. lia.
  - exists t. split_and!; try done.
Qed.

Lemma compileLet_fuel (c : Compiler) : wf c -> compileLet c <> OutOfFuel.
Proof.
  intros Hwf. unfold compileLet.
  apply bind_fuel; [destruct (next_total c (proj1 Hwf)) as [? ->]; discriminate|].
  intros c1 E1. pose proof (next_data_step _ _ Hwf E1) as (_&_&_&_&Hwf1).
  repeat (destruct (decide _); [discriminate|]).
  set (c2 := set_vars _ c1).
  assert (wf c2) as Hwf2 by by apply wf_set_vars.
  apply bind_fuel; [destruct (next_total c2 (proj1 Hwf2)) as [? ->]; discriminate|].
  intros c3 E3. pose proof (next_data_step _ _ Hwf2 E3) as (_&_&_&_&Hwf3).
  apply bind_fuel; [repeat case_match; discriminate|]. intros size _.
  apply bind_fuel; [destruct (next_total c3 (proj1 Hwf3)) as [? ->]; discriminate|].
  intros c4 E4. pose proof (next_data_step _ _ Hwf3 E4) as (_&_&_&_&Hwf4).
  apply compileLet_items_fuel; [done | lia].
Qed.

(** An instruction that is accepted moves the cursor and appends to the
    program; the tables, the variables and the memory stay. *)
Lemma compileInst_Ok (c c' : Compiler) :
  wf c -> token.Type_ (tok c) <> token.EOF -> compileInst Insts c = Ok c' ->
  same_tables c c' /\ wf c' /\ pos c < pos c' /\ vars c' = vars c /\
  memory c' = memory c /\ memorySize c' = memorySize c.
Proof.
  intros Hwf Hne H. unfold compileInst in H.
  destruct (Insts !! _) as [inst|]; [|discriminate].
  destruct (next_cases c (proj1 Hwf)) as [[E _]|[_ (t & Ht & R & Hc1)]]; [done|].
  rewrite R in H. cbn [mbind result_bind] in H.
  set (c1 := set_tok t (set_pos (pos c + 1) c)) in *.
  assert (wf c1) as Hwf1 by (split; [done|apply Hwf]).
  destruct (negb (token.IsArg (tok c1))).
  { destruct (HasArg inst); [discriminate|]. inversion H; subst c'.
    split_and!; try done; [by apply wf_writeInst | cbn; lia]. }
  destruct (negb (HasArg inst)); [discriminate|].
  inv_bind H. inv_bind H. inversion H; subst c'; clear H.
  pose proof (next_data_step _ _ Hwf1 E0) as (T & V & P & L & W).
  destruct (next_Ok _ _ (proj1 Hwf1) E0) as (_&_&_&M&MS&_).
  split_and!; try done; [by apply wf_writeInst | cbn in *; lia].
Qed.

Lemma compileInst_fuel (c : Compiler) : compileInst Insts c <> OutOfFuel.
Proof.
  unfold compileInst. destruct (Insts !! _); [|discriminate].
  unfold next. repeat case_match; cbn; try discriminate.
  all: repeat case_match; try discriminate.
  all: apply bind_fuel; [apply argToWord_fuel|]; intros.
  all: apply bind_fuel; [|discriminate].
  all: repeat case_match; discriminate.
Qed.

(** *** The loop *)

Lemma compile_body_Ok (c c' : Compiler) :
  wf c -> token.Type_ (tok c) <> token.EOF -> compile_body Insts c = Ok c' ->
  same_tables c c' /\ wf c' /\ pos c < pos c'.
Proof.
  intros Hwf Hne H. unfold compile_body in H.
  destruct (toks c !! _) as [t0|]; [|discriminate].
  destruct (token.Type_ t0); try discriminate.
  - apply compileInst_Ok in H; tauto.
  - apply compileLet_Ok in H; tauto.
Qed.

Lemma compile_body_fuel (c : Compiler) : wf c -> compile_body Insts c <> OutOfFuel.
Proof.
  intros Hwf. unfold compile_body. repeat case_match; try discriminate.
  - apply compileInst_fuel.
  - by apply compileLet_fuel.
Qed.

(** The loop ends before its bound: every round moves the cursor on, and
    the cursor stays inside the token list. *)
Lemma compile_loop_fuel (fuel : nat) (c : Compiler) :
  wf c -> (length (toks c) - Z.to_nat (pos c) <= fuel)%nat ->
  compile_loop Insts fuel c <> OutOfFuel.
Proof.
  revert c. induction fuel as [|fuel IH]; intros c Hwf Hf.
  { pose proof (cursor_lt c (proj1 Hwf)). lia. }
  cbn. destruct (decide _) as [|Hne]; [discriminate|].
  apply bind_fuel; [by apply compile_body_fuel|]. intros c1 E1.
  apply compile_body_Ok in E1 as ((T&_) & Hwf1 & Hp); [|done..].
  apply IH; [done|]. rewrite T. pose proof (cur_pos c (proj1 Hwf)). lia.
Qed.

(** Any two bounds that are large enough give the same result. *)
Lemma compile_loop_bound (f1 f2 : nat) (c : Compiler) :
  wf c ->
  (length (toks c) - Z.to_nat (pos c) <= f1)%nat ->
  (length (toks c) - Z.to_nat (pos c) <= f2)%nat ->
  compile_loop Insts f1 c = compile_loop Insts f2 c.
Proof.
  revert f2 c. induction f1 as [|f1 IH]; intros f2 c Hwf H1 H2.
  { pose proof (cursor_lt c (proj1 Hwf)). lia. }
  destruct f2 as [|f2]; [pose proof (cursor_lt c (proj1 Hwf)); lia|].
  cbn. destruct (decide _) as [|Hne]; [reflexivity|].
  destruct (compile_body Insts c) as [c1| | |] eqn:E1; cbn; try reflexivity.
  apply compile_body_Ok in E1 as ((T&_) & Hwf1 & Hp); [|done..].
  pose proof (cur_pos c (proj1 Hwf)).
  apply IH; [done|rewrite T; lia..].
Qed.

Lemma compile_loop_S (fuel : nat) (c c' : Compiler) :
  token.Type_ (tok c) <> token.EOF -> compile_body Insts c = Ok c' ->
  compile_loop Insts (S fuel) c = compile_loop Insts fuel c'.
Proof. intros Hne Hb. cbn. destruct (decide _); [done|]. by rewrite Hb. Qed.

(** *** The states the loop goes through *)

Lemma visits_wf (c c' : Compiler) :
  wf c -> visits Insts c c' -> wf c' /\ same_tables c c' /\ pos c <= pos c'.
Proof.
  intros Hwf Hv. induction Hv as [c|c c1 c2 [Hne Hb] _ IH].
  - split_and!; [done|reflexivity|lia].
  - apply compile_body_Ok in Hb as (T & Hwf1 & Hp); [|done..].
    destruct (IH Hwf1) as (? & ? & ?). split_and!; [done|by etrans|lia].
Qed.

(** The loop started in a state gives what the loop gives from any state
    it visits. *)
Lemma compile_loop_visits (c c' : Compiler) :
  wf c -> visits Insts c c' ->
  compile_loop Insts (length (toks c)) c = compile_loop Insts (length (toks c')) c'.
Proof.
  intros Hwf Hv. induction Hv as [c|c c1 c2 [Hne Hb] _ IH]; [reflexivity|].
  pose proof Hb as Hb'.
  apply compile_body_Ok in Hb' as ((T&_) & Hwf1 & Hp); [|done..].
  rewrite <- (IH Hwf1), T.
  rewrite (compile_loop_bound _ (S (length (toks c))) c) by (done || lia).
  by apply compile_loop_S.
Qed.

End CompileLoop.

(** ** The preprocessing pass *)

Lemma wrap64_add_l (a b : Z) : wrap64 (wrap64 a + b) = wrap64 (a + b).
Proof. unfold wrap64. by rewrite Zplus_mod_idemp_l. Qed.

Lemma until_eof_no_eof (ts : list Token) :
  Forall (fun t => token.Type_ t <> token.EOF) (until_eof ts).
Proof.
  induction ts as [|t ts IH]; cbn; [constructor|].
  destruct (decide _); constructor; done.
Qed.

Lemma until_eof_id (ts : list Token) :
  Forall (fun t => token.Type_ t <> token.EOF) ts -> until_eof ts = ts.
Proof.
  induction 1 as [|t ts Ht _ IH]; cbn; [done|].
  destruct (decide _); [done|by rewrite IH].
Qed.


Section Preprocessing.

Variable Insts : gmap string Inst.

(** A round of the scan is a call of [lexer.NextToken] and the [switch] on
    the token it returns. *)
Lemma preproc_scan_NextToken (input : lexer.Lexer) (c : Compiler) :
  preproc_scan Insts input c =
  let '(t, rest) := lexer.NextToken input in
  let c := set_tok t (set_l rest c) in
  match token.Type_ t with
  | token.EOF => Ok c
  | token.Error => Err (Error c (LexMessage (token.Data t)))
  | token.Word =>
      let c := if decide (is_Some (Insts !! token.Data t))
               then set_pos (wrap64 (pos c + 1)) c else c in
      preproc_scan Insts rest (set_toks (toks c ++ [tok c]) c)
  | token.Label =>
      if decide (is_Some (labels c !! token.Data t)) then
        Err (Error c (RedefinitionOfLabel (token.Data t)))
      else
        preproc_scan Insts rest (set_labels (<[token.Data t := pos c]> (labels c)) c)
  | _ => preproc_scan Insts rest (set_toks (toks c ++ [tok c]) c)
  end.
Proof. destruct input; reflexivity. Qed.

Lemma slots_nonneg (ts : list Token) : 0 <= slots Insts ts.
Proof. unfold slots. lia. Qed.

Lemma slots_le (ts : list Token) : slots Insts ts <= Z.of_nat (length ts).
Proof. unfold slots. pose proof (length_filter (fun t => token.Type_ t = token.Word /\
                                      is_Some (Insts !! token.Data t)) ts). lia. Qed.

Lemma slots_cons (t : Token) (ts : list Token) :
  slots Insts (t :: ts) =
  (if decide (token.Type_ t = token.Word /\ is_Some (Insts !! token.Data t))
   then 1 else 0) + slots Insts ts.
Proof.
  unfold slots. rewrite filter_cons. destruct (decide _); cbn [length]; lia.
Qed.

Lemma slots_app (ts1 ts2 : list Token) : slots Insts (ts1 ++ ts2) = slots Insts ts1 + slots Insts ts2.
Proof. unfold slots. rewrite filter_app, length_app. lia. Qed.

(** What the scan of the preprocessing pass computes, when it ends
    without an error. *)
Lemma preproc_scan_Ok (ts : list Token) (c c' : Compiler) :
  preproc_scan Insts ts c = Ok c' ->
  toks c' = toks c ++ kept (until_eof ts) /\
  wrap64 (pos c') = wrap64 (pos c + slots Insts (until_eof ts)) /\
  (0 <= pos c < 2 ^ 64 -> 0 <= pos c' < 2 ^ 64) /\
  token.Type_ (tok c') = token.EOF /\
  vars c' = vars c /\ memory c' = memory c /\ memorySize c' = memorySize c /\
  program c' = program c.
Proof.
  revert c. induction ts as [|t ts IH]; intros c H; cbn in H.
  { inversion H; subst c'. cbn. rewrite app_nil_r, Z.add_0_r. done. }
  cbn [until_eof]. destruct (decide (token.Type_ t = token.EOF)) as [E|E].
  { rewrite E in H. inversion H; subst c'. cbn. rewrite app_nil_r, Z.add_0_r. done. }
  rewrite slots_cons. unfold kept. rewrite filter_cons. fold (kept (until_eof ts)).
  destruct (token.Type_ t) eqn:Et; try done;
    try (apply IH in H as (T & P & R & K & V); cbn in T, P, R, V;
         rewrite decide_True by done; rewrite decide_False by (intros [? _]; done);
         rewrite T, <- app_assoc; done).
  - (* a word *)
    rewrite decide_True by done.
    destruct (decide (is_Some (Insts !! token.Data t))) as [Hi|Hi].
    + apply IH in H as (T & P & R & K & V). cbn in T, P, R, V.
      rewrite decide_True by done. rewrite T, <- app_assoc.
      rewrite wrap64_add_l in P.
      split_and!; try apply V; try done;
        [by rewrite Z.add_assoc | intros _; apply R, wrap64_range].
    + apply IH in H as (T & P & R & K & V). cbn in T, P, R, V.
      rewrite decide_False by (intros [_ ?]; done). rewrite T, <- app_assoc. done.
  - (* a label *)
    destruct (decide (is_Some _)); [done|].
    apply IH in H as (T & P & R & K & V). cbn in T, P, R, V.
    rewrite decide_False by (intros ?; done).
    rewrite decide_False by (intros [? _]; done). done.
Qed.

(** The scan never takes back a label. *)
Lemma preproc_scan_keeps (ts : list Token) (c c' : Compiler) (L : string) (a : Z) :
  preproc_scan Insts ts c = Ok c' -> labels c !! L = Some a -> labels c' !! L = Some a.
Proof.
  revert c. induction ts as [|t ts IH]; intros c H HL; cbn in H.
  { by inversion H; subst c'. }
  destruct (token.Type_ t) eqn:Et; try done;
    try (by inversion H; subst c'); try (by apply IH in H).
  - destruct (decide (is_Some (Insts !! _))); by apply IH in H.
  - destruct (decide (is_Some _)) as [|Hn]; [done|]. apply IH in H; [done|]. cbn.
    rewrite lookup_insert_ne; [done|]. intros <-. apply Hn. by rewrite HL.
Qed.

(** A label is bound to the value of the slot counter where it is
    declared. *)
Lemma preproc_scan_label (pre post : list Token) (lab : Token) (c c' : Compiler) :
  preproc_scan Insts (pre ++ lab :: post) c = Ok c' ->
  Forall (fun t => token.Type_ t <> token.EOF) pre ->
  token.Type_ lab = token.Label ->
  0 <= pos c < 2 ^ 64 ->
  labels c' !! token.Data lab = Some (wrap64 (pos c + slots Insts pre)).
Proof.
  intros H Hpre Hlab. revert c H.
  induction Hpre as [|t pre Ht _ IH]; intros c H Hp; cbn in H.
  - rewrite Hlab in H. destruct (decide _); [done|].
    eapply preproc_scan_keeps; [exact H|]. cbn. rewrite lookup_insert_eq.
    unfold slots. cbn. rewrite Z.add_0_r, wrap64_small; done.
  - rewrite slots_cons.
    destruct (token.Type_ t) eqn:Et; try done;
      try (apply IH in H; [|done]; cbn in H;
           rewrite decide_False by (intros [? _]; done); done).
    + destruct (decide (is_Some (Insts !! token.Data t))) as [Hi|Hi].
      * apply IH in H; [|apply wrap64_range]. cbn in H.
        rewrite decide_True by done. rewrite wrap64_add_l in H.
        rewrite H. f_equal. f_equal. lia.
      * apply IH in H; [|done]. cbn in H.
        rewrite decide_False by (intros [_ ?]; done). done.
    + destruct (decide _); [done|]. apply IH in H; [|done]. cbn in H.
      rewrite decide_False by (intros [? _]; done). done.
Qed.

(** A name that no label declaration carries is not bound by the scan. *)
Lemma preproc_scan_fresh (ts : list Token) (c c' : Compiler) (L : string) :
  preproc_scan Insts ts c = Ok c' -> labels c !! L = None ->
  L ∉ label_names ts -> labels c' !! L = None.
Proof.
  revert c. induction ts as [|t ts IH]; intros c H HL Hn; cbn in H.
  { by inversion H; subst c'. }
  unfold label_names in Hn. rewrite filter_cons in Hn.
  destruct (token.Type_ t) eqn:Et; try done;
    try (by inversion H; subst c');
    try (rewrite decide_False in Hn by done; by apply IH in H).
  - rewrite decide_False in Hn by (intros ?; done).
    destruct (decide (is_Some (Insts !! _))); by apply IH in H.
  - rewrite decide_True in Hn by done. cbn in Hn. apply not_elem_of_cons in Hn as [Hne Hn].
    destruct (decide (is_Some _)); [done|]. apply IH in H; [done| |done].
    cbn. by rewrite lookup_insert_ne.
Qed.

(** The scan neither panics nor runs out of its bound, and the errors it
    returns are its own two. *)
Lemma preproc_scan_Err (ts : list Token) (c : Compiler) :
  (exists c', preproc_scan Insts ts c = Ok c') \/
  (exists t, t ∈ ts /\ token.Type_ t = token.Error /\
             preproc_scan Insts ts c = Err (At (token.Where_ t) (LexMessage (token.Data t)))) \/
  (exists t, t ∈ ts /\ token.Type_ t = token.Label /\
             preproc_scan Insts ts c =
             Err (At (token.Where_ t) (RedefinitionOfLabel (token.Data t)))).
Proof.
  revert c. induction ts as [|t ts IH]; intros c; cbn; [eauto|].
  assert (forall c1, (exists c', preproc_scan Insts ts c1 = Ok c') \/
    (exists t0, t0 ∈ t :: ts /\ token.Type_ t0 = token.Error /\
       preproc_scan Insts ts c1 = Err (At (token.Where_ t0) (LexMessage (token.Data t0)))) \/
    (exists t0, t0 ∈ t :: ts /\ token.Type_ t0 = token.Label /\
       preproc_scan Insts ts c1 =
       Err (At (token.Where_ t0) (RedefinitionOfLabel (token.Data t0))))) as IH'.
  { intros c1. destruct (IH c1) as [?|[(t0&?&?&?)|(t0&?&?&?)]]; [by left| |].
    - right; left. exists t0. split_and!; [by right|done..].
    - right; right. exists t0. split_and!; [by right|done..]. }
  destruct (token.Type_ t) eqn:Et; try apply IH'; eauto.
  - right; left. exists t. split_and!; [by left|done..].
  - destruct (decide _); [|apply IH'].
    right; right. exists t. split_and!; [by left|done..].
Qed.

(** With no error token and no label declared twice, the scan goes
    through. *)
Lemma preproc_scan_total (ts : list Token) (c : Compiler) :
  Forall (fun t => token.Type_ t <> token.Error) ts ->
  NoDup (label_names ts) ->
  (forall L, L ∈ label_names ts -> labels c !! L = None) ->
  exists c', preproc_scan Insts ts c = Ok c'.
Proof.
  intros Hne. revert c. induction Hne as [|t ts Ht _ IH]; intros c Hnd Hl; cbn; [eauto|].
  unfold label_names in Hnd, Hl. rewrite filter_cons in Hnd, Hl.
  destruct (token.Type_ t) eqn:Et; try done; eauto;
    try (rewrite decide_False in Hnd, Hl by done; by apply IH).
  - rewrite decide_False in Hnd, Hl by (intros ?; done).
    destruct (decide (is_Some (Insts !! _))); by apply IH.
  - rewrite decide_True in Hnd, Hl by done. cbn in Hnd, Hl.
    apply NoDup_cons in Hnd as [Hnot Hnd].
    destruct (decide (is_Some _)) as [Hs|_].
    { rewrite Hl in Hs by left. by destruct Hs. }
    apply IH; [done|]. intros L HL. cbn.
    rewrite lookup_insert_ne; [apply Hl; by right|]. intros <-. done.
Qed.

End Preprocessing.

(** ** From the token stream to the compile loop *)

Section Assembly.

Variable Insts : gmap string Inst.

(** What [preproc] leaves in a fresh compiler. *)
Lemma preproc_Ok (ts : list Token) (c : Compiler) :
  preproc Insts (New ts) = Ok c ->
  toks c = kept (until_eof ts) ++ [tok c] /\
  token.Type_ (tok c) = token.EOF /\
  programSize c = wrap64 (slots Insts (until_eof ts)) /\
  labels c !! "entry"%string = Some (entryPoint c) /\
  vars c = ∅ /\ memory c = [] /\ memorySize c = 0 /\ program c = [] /\
  exists c1, preproc_scan Insts ts (New ts) = Ok c1 /\ labels c = labels c1.
Proof.
  unfold preproc. intros H. inv_bind H. cbn in E.
  destruct (labels c0 !! "entry"%string) as [entry|] eqn:El; [|discriminate].
  inversion H; subst c; clear H. cbn.
  pose proof (preproc_scan_Ok Insts _ _ _ E) as (T & P & R & K & V & M & MS & Pr).
  cbn in *. split_and!; try done.
  - by rewrite T.
  - rewrite Z.add_0_l in P. rewrite <- P. symmetry. apply wrap64_small, R. lia.
  - by exists c0.
Qed.

Lemma compile_from_start (ts : list Token) (c : Compiler) :
  start_state Insts ts = Ok c ->
  preproc Insts (New ts) ≫= compile Insts = compile_loop Insts (length (toks c)) c.
Proof.
  unfold start_state, compile. intros H. inv_bind H. rewrite E. cbn. by rewrite H.
Qed.

Lemma kept_no_eof (ts : list Token) :
  Forall (fun t => token.Type_ t <> token.EOF) (kept (until_eof ts)).
Proof.
  pose proof (until_eof_no_eof ts) as H. rewrite Forall_forall in H |- *.
  intros t Ht. apply list_elem_of_filter in Ht as [_ Ht]. by apply H.
Qed.

Lemma length_kept (ts : list Token) : (length (kept (until_eof ts)) <= length ts)%nat.
Proof.
  unfold kept. etrans; [apply length_filter|].
  induction ts as [|t ts IH]; cbn; [lia|]. destruct (decide _); cbn; lia.
Qed.

(** The head of the compile loop is a well-formed state, for a token
    stream of a length a Go slice can have. *)
Lemma start_state_wf (ts : list Token) (c : Compiler) :
  Z.of_nat (length ts) < 2 ^ 63 ->
  start_state Insts ts = Ok c ->
  wf c /\ pos c = 0 /\ vars c = ∅ /\ memory c = [] /\ program c = [] /\
  (exists e, token.Type_ e = token.EOF /\ toks c = kept (until_eof ts) ++ [e]) /\
  exists c1, preproc Insts (New ts) = Ok c1 /\ same_tables c1 c.
Proof.
  intros Hlen H. unfold start_state in H. inv_bind H.
  pose proof (preproc_Ok _ _ E) as (T & K & _ & _ & V & M & MS & P & _).
  unfold compile_start in H. cbn in H. change (Z.to_nat 0) with 0%nat in H.
  destruct (toks c0 !! 0%nat) as [t|] eqn:E0; [|discriminate].
  inversion H; subst c; clear H. cbn.
  split_and!; try done; [|by exists (tok c0)|by exists c0].
  split; [|unfold memory_ok; cbn; by rewrite M, MS].
  pose proof (length_kept ts). pose proof (kept_no_eof ts) as Hk.
  constructor; cbn; [done|lia| |rewrite T, length_app; cbn; lia].
  intros i t' Hi. rewrite T in Hi |- *. rewrite length_app. cbn [length].
  destruct (decide (i < length (kept (until_eof ts)))%nat) as [Hlt|Hge].
  - rewrite lookup_app_l in Hi by done.
    rewrite Forall_lookup in Hk. specialize (Hk _ _ Hi). split; [done|lia].
  - rewrite lookup_app_r in Hi by lia.
    destruct (i - length (kept (until_eof ts)))%nat as [|k] eqn:Ek; [|done].
    cbn in Hi. inversion Hi; subst t'. split; [lia|done].
Qed.

Lemma reaches_wf (ts : list Token) (c : Compiler) :
  Z.of_nat (length ts) < 2 ^ 63 -> reaches Insts ts c ->
  wf c /\
  (exists e, token.Type_ e = token.EOF /\ toks c = kept (until_eof ts) ++ [e]) /\
  exists c1, preproc Insts (New ts) = Ok c1 /\ same_tables c1 c.
Proof.
  intros Hlen (c0 & Hs & Hv).
  destruct (start_state_wf _ _ Hlen Hs) as (Hwf & _ & _ & _ & _ & (e & He & T) & (c1 & Hp & S1)).
  destruct (visits_wf _ _ _ Hwf Hv) as (Hwf' & S2 & _).
  split_and!; [done| |].
  - exists e. split; [done|]. destruct S2 as (-> & _). done.
  - exists c1. split; [done|]. by etrans.
Qed.

(** The compile pass is what its loop gives from any state it reaches. *)
Lemma compile_reaches (ts : list Token) (c : Compiler) :
  Z.of_nat (length ts) < 2 ^ 63 -> reaches Insts ts c ->
  preproc Insts (New ts) ≫= compile Insts = compile_loop Insts (length (toks c)) c.
Proof.
  intros Hlen (c0 & Hs & Hv).
  destruct (start_state_wf _ _ Hlen Hs) as (Hwf & _).
  rewrite (compile_from_start _ _ Hs). by apply compile_loop_visits.
Qed.

(** The compile pass returns, with a result or an error, or panics: the
    bound on its loops is never what stops it. *)
Theorem compile_total (ts : list Token) :
  Z.of_nat (length ts) < 2 ^ 63 ->
  preproc Insts (New ts) ≫= compile Insts <> OutOfFuel.
Proof.
  intros Hlen. destruct (start_state Insts ts) as [c0| | |] eqn:Hs.
  - rewrite (compile_from_start _ _ Hs).
    destruct (start_state_wf _ _ Hlen Hs) as (Hwf & _).
    apply compile_loop_fuel; [done|lia].
  - unfold start_state in Hs. unfold compile.
    destruct (preproc Insts (New ts)); cbn in *; try done.
    destruct (compile_start a); cbn in *; done.
  - unfold start_state in Hs. unfold compile.
    destruct (preproc Insts (New ts)); cbn in *; try done.
    destruct (compile_start a); cbn in *; done.
  - unfold start_state in Hs. unfold preproc, compile_start in Hs.
    destruct (preproc_scan_Err Insts ts (New ts)) as [[c' E]|[(t&_&_&E)|(t&_&_&E)]];
      cbn in Hs; rewrite E in Hs; cbn in Hs; try done.
    destruct (labels c' !! "entry"%string); cbn in Hs; [|done].
    destruct ((toks c' ++ [tok c']) !! Z.to_nat 0); done.
Qed.

End Assembly.

(** ** A run of [compileLet] *)

Lemma cursor_ok_ext (c c' : Compiler) :
  cursor_ok c -> toks c' = toks c -> pos c' = pos c -> tok c' = tok c -> cursor_ok c'.
Proof. intros [] T P K. constructor; rewrite ?T, ?P, ?K; done. Qed.

Lemma next_at (c : Compiler) (t : Token) :
  cursor_ok c -> token.Type_ (tok c) <> token.EOF ->
  toks c !! Z.to_nat (pos c + 1) = Some t ->
  next c = Ok (set_tok t (set_pos (pos c + 1) c)) /\
  cursor_ok (set_tok t (set_pos (pos c + 1) c)).
Proof.
  intros Hc Hne Ht. destruct (next_cases c Hc) as [[E _]|[_ (t' & Ht' & R & Hc')]]; [done|].
  rewrite Ht in Ht'. inversion Ht'; subst t'. done.
Qed.

Lemma seg_lookup (c : Compiler) (pre seg rest : list Token) (k : nat) (t : Token) :
  toks c = pre ++ seg ++ rest -> pos c = Z.of_nat (length pre) ->
  seg !! k = Some t -> toks c !! Z.to_nat (pos c + Z.of_nat k) = Some t.
Proof.
  intros -> -> Hk. replace (Z.to_nat (Z.of_nat (length pre) + Z.of_nat k)) with (length pre + k)%nat by lia.
  rewrite lookup_app_r by lia. replace (length pre + k - length pre)%nat with k by lia.
  apply lookup_app_l_Some. done.
Qed.

Lemma next_within (c0 c : Compiler) (t : Token) :
  cursor_ok c0 -> toks c = toks c0 -> 0 <= pos c ->
  toks c0 !! Z.to_nat (pos c) = Some (tok c) ->
  token.Type_ (tok c) <> token.EOF ->
  toks c0 !! Z.to_nat (pos c + 1) = Some t ->
  next c = Ok (set_tok t (set_pos (pos c + 1) c)).
Proof.
  intros H0 T P K Hne Ht. apply next_at; [|done|by rewrite T].
  destruct H0. constructor; rewrite ?T; done.
Qed.

Lemma compileLet_items_more (fuel : nat) (size : Z) (c c1 c2 c3 : Compiler) :
  compileLet_item size c = Ok c1 -> next c1 = Ok c2 ->
  token.Type_ (tok c2) = token.Comma -> next c2 = Ok c3 ->
  compileLet_items (S fuel) size c = compileLet_items fuel size c3.
Proof.
  intros E1 E2 K E3. cbn [compileLet_items]. rewrite E1. cbn. rewrite E2. cbn.
  rewrite decide_False by (by intros ?). by rewrite E3.
Qed.

Lemma compileLet_items_last (fuel : nat) (size : Z) (c c1 c2 : Compiler) :
  compileLet_item size c = Ok c1 -> next c1 = Ok c2 ->
  token.Type_ (tok c2) <> token.Comma ->
  compileLet_items (S fuel) size c = Ok c2.
Proof.
  intros E1 E2 K. cbn [compileLet_items]. rewrite E1. cbn. rewrite E2. cbn.
  by rewrite decide_True.
Qed.

(** A datum that is an integer literal. *)
Lemma compileLet_item_arg (size : Z) (n : nat) (c : Compiler) (v : Z) :
  token.Type_ (tok c) <> token.String -> token.IsArg (tok c) = true ->
  argToWord c (tok c) = Ok v ->
  writeMemory v size c = Ok (set_memory (memory c ++ be_bytes n v) c) ->
  compileLet_item size c =
  Ok (set_memorySize (wrap64 (memorySize c + size)) (set_memory (memory c ++ be_bytes n v) c)).
Proof.
  intros K A E W. unfold compileLet_item. rewrite decide_False by done.
  rewrite A, E. cbn. rewrite W. reflexivity.
Qed.

(** The data list [1,2,3] at element size 1. *)
Lemma compileLet_123 (c : Compiler) (pre rest : list Token) (x : string) (t9 : Token) :
  wf c ->
  toks c = pre ++ [Tok token.Let "let"; Tok token.Word x; Tok token.Size8 "sz8";
                   Tok token.Dec "1"; Tok token.Comma ","; Tok token.Dec "2";
                   Tok token.Comma ","; Tok token.Dec "3"] ++ t9 :: rest ->
  pos c = Z.of_nat (length pre) ->
  token.Type_ t9 <> token.Comma ->
  vars c !! x = None -> labels c !! x = None ->
  exists c', compileLet c = Ok c' /\ memory c' = memory c ++ [1; 2; 3] /\
             vars c' = <[x := wrap64 (memorySize c + 1)]> (vars c) /\
             labels c' = labels c.
Proof.
  intros [Hc Hm] Htoks Hpos H9 Hv Hl.
  assert (forall k t, ([Tok token.Let "let"; Tok token.Word x; Tok token.Size8 "sz8";
                   Tok token.Dec "1"; Tok token.Comma ","; Tok token.Dec "2";
                   Tok token.Comma ","; Tok token.Dec "3"; t9] : list Token) !! k = Some t ->
                 toks c !! Z.to_nat (pos c + Z.of_nat k) = Some t) as Hseg.
  { intros k t Hk. eapply (seg_lookup c pre _ rest); [|done|exact Hk].
    rewrite Htoks. reflexivity. }
  assert (tok c = Tok token.Let "let") as Htok.
  { pose proof (Hseg 0%nat _ eq_refl) as H0. rewrite Z.add_0_r in H0.
    rewrite (cur_tok c Hc) in H0. by inversion H0. }
  pose proof (cur_pos c Hc) as Hp.
  pose proof (Hseg 1%nat _ eq_refl) as H1. pose proof (Hseg 2%nat _ eq_refl) as H2.
  pose proof (Hseg 3%nat _ eq_refl) as H3. pose proof (Hseg 4%nat _ eq_refl) as H4.
  pose proof (Hseg 5%nat _ eq_refl) as H5. pose proof (Hseg 6%nat _ eq_refl) as H6.
  pose proof (Hseg 7%nat _ eq_refl) as H7. pose proof (Hseg 8%nat _ eq_refl) as H8.
  cbn [Z.of_nat Pos.of_succ_nat Pos.succ] in *. clear Hseg.
  assert (3 <= length (toks c))%nat as Hfuel.
  { rewrite Htoks, !length_app. cbn. lia. }
  assert (token.Type_ (tok c) <> token.EOF) as Hne by (by rewrite Htok).
  unfold compileLet.
  (* the name *)
  rewrite (next_within c c _ Hc eq_refl Hp (cur_tok c Hc) Hne H1). cbn.
  rewrite Hv, Hl.
  rewrite (decide_False (P := token.Word <> token.Word)) by (intros ?; done).
  rewrite !(decide_False (P := is_Some None)) by (intros [? ?]; done).
  (* the element size, and on to the first datum *)
  erewrite (next_within c); [|done|done|cbn; lia|exact H1|done|cbn; rewrite <- H2; do 2 f_equal; lia].
  cbn.
  erewrite (next_within c);
    [|done|done|cbn; lia|cbn; rewrite <- H2; do 2 f_equal; lia|done
     |cbn; rewrite <- H3; do 2 f_equal; lia].
  cbn.
  destruct (length (toks c)) as [|[|[|fuel]]]; [lia..|]. clear Hfuel.
  (* 1, *)
  erewrite compileLet_items_more;
    [|apply (compileLet_item_arg 1 1 _ 1); done
     |apply (next_within c);
        [done|done|cbn; lia|cbn; rewrite <- H3; do 2 f_equal; lia|done
        |cbn; rewrite <- H4; do 2 f_equal; lia]
     |done
     |apply (next_within c);
        [done|done|cbn; lia|cbn; rewrite <- H4; do 2 f_equal; lia|done
        |cbn; rewrite <- H5; do 2 f_equal; lia]].
  (* 2, *)
  erewrite compileLet_items_more;
    [|apply (compileLet_item_arg 1 1 _ 2); done
     |apply (next_within c);
        [done|done|cbn; lia|cbn; rewrite <- H5; do 2 f_equal; lia|done
        |cbn; rewrite <- H6; do 2 f_equal; lia]
     |done
     |apply (next_within c);
        [done|done|cbn; lia|cbn; rewrite <- H6; do 2 f_equal; lia|done
        |cbn; rewrite <- H7; do 2 f_equal; lia]].
  (* 3 *)
  erewrite compileLet_items_last;
    [|apply (compileLet_item_arg 1 1 _ 3); done
     |apply (next_within c);
        [done|done|cbn; lia|cbn; rewrite <- H7; do 2 f_equal; lia|done
        |cbn; rewrite <- H8; do 2 f_equal; lia]
     |done].
  eexists. split; [reflexivity|]. cbn. rewrite <- !app_assoc. done.
Qed.

(** ** Address arguments and failing rounds *)

Section AddressArguments.

Variable Insts : gmap string Inst.

Lemma compile_body_inv (c c' : Compiler) :
  compile_body Insts c = Ok c' ->
  exists t, toks c !! Z.to_nat (pos c) = Some t /\
    ((token.Type_ t = token.Word /\ compileInst Insts c = Ok c') \/
     (token.Type_ t = token.Let /\ compileLet c = Ok c')).
Proof.
  unfold compile_body. intros H. destruct (toks c !! _) as [t|]; [|done].
  exists t. split; [done|]. destruct (token.Type_ t); try done; auto.
Qed.

(** The variable table holds only names whose [let] the cursor has
    passed. *)
Lemma visits_vars (c c' : Compiler) :
  wf c -> visits Insts c c' ->
  (forall v, is_Some (vars c !! v) -> declared_before c v) ->
  forall v, is_Some (vars c' !! v) -> declared_before c' v.
Proof.
  intros Hwf Hv. induction Hv as [c|c c1 c2 [Hne Hb] _ IH]; [done|].
  intros Hinv. pose proof Hb as Hb'.
  apply compile_body_Ok in Hb' as ((T&_) & Hwf1 & Hp); [|done..].
  apply IH; [done|]. intros v Hsome.
  assert (declared_before c v -> declared_before c1 v) as Hmono.
  { intros (i & t & t' & Hi & H1 & H2 & H3 & H4 & H5). exists i, t, t'.
    rewrite T. split_and!; try done; lia. }
  apply compile_body_inv in Hb as (t0 & Ht0 & [[K H]|[K H]]).
  - apply compileInst_Ok in H as (_ & _ & _ & V & _); [|done..].
    apply Hmono, Hinv. by rewrite <- V.
  - apply compileLet_Ok in H as (_ & _ & _ & _ & t & Ht & Kt & _ & _ & V); [|done..].
    rewrite V in Hsome. destruct (decide (token.Data t = v)) as [<-|Hd].
    + exists (Z.to_nat (pos c)), t0, t. rewrite T.
      pose proof (cur_pos c (proj1 Hwf)).
      split_and!; try done; [lia|].
      by replace (S (Z.to_nat (pos c))) with (Z.to_nat (pos c + 1)) by lia.
    + rewrite lookup_insert_ne in Hsome by done. by apply Hmono, Hinv.
Qed.

(** An instruction whose argument is an address reference. *)
Lemma compileInst_addr (c : Compiler) (inst : Inst) (nt : Token) :
  cursor_ok c -> token.Type_ (tok c) <> token.EOF ->
  Insts !! token.Data (tok c) = Some inst -> HasArg inst = true ->
  toks c !! Z.to_nat (pos c + 1) = Some nt -> token.Type_ nt = token.Addr ->
  (forall a, labels c !! token.Data nt = Some a ->
     exists c', compileInst Insts c = Ok c' /\
                program c' = program c ++ be_bytes 1 (Op inst) ++ be_bytes 8 a) /\
  (labels c !! token.Data nt = None -> vars c !! token.Data nt = None ->
     compileInst Insts c =
     Err (At (token.Where_ nt) (AddressNotDeclared (token.Data nt)))).
Proof.
  intros Hc Hne Hi Ha Hnt Knt.
  destruct (next_at c nt Hc Hne Hnt) as [R Hc1].
  assert (token.IsArg nt = true) as Harg by (unfold token.IsArg; by rewrite Knt).
  split.
  - intros a Hl. unfold compileInst. rewrite Hi, R. cbn. rewrite Harg, Ha. cbn.
    unfold argToWord. rewrite Knt. cbn. rewrite Hl. cbn.
    destruct (next_total _ Hc1) as [c2 E2]. rewrite E2. cbn.
    eexists. split; [reflexivity|]. cbn.
    destruct (next_Ok _ _ Hc1 E2) as (_&_&_&_&_&P&_). by rewrite P.
  - intros Hl Hv. unfold compileInst. rewrite Hi, R. cbn. rewrite Harg, Ha. cbn.
    unfold argToWord. rewrite Knt. cbn. rewrite Hl, Hv. reflexivity.
Qed.

(** If the body of the loop fails in a state the pass reaches, the pass
    fails with that error. *)
Lemma compile_fails_at (ts : list Token) (c : Compiler) (e : error) :
  Z.of_nat (length ts) < 2 ^ 63 -> reaches Insts ts c ->
  token.Type_ (tok c) <> token.EOF -> compile_body Insts c = Err e ->
  preproc Insts (New ts) ≫= compile Insts = Err e.
Proof.
  intros Hlen Hr Hne Hb. rewrite (compile_reaches Insts ts c Hlen Hr).
  destruct (reaches_wf Insts ts c Hlen Hr) as (Hwf & _).
  pose proof (cursor_lt c (proj1 Hwf)).
  destruct (length (toks c)) as [|n]; [lia|]. cbn.
  rewrite decide_False by done. by rewrite Hb.
Qed.

Lemma CompileToBinary_Err (c : Compiler) (path : string) (ex : bool) (w : os.World) (e : error) :
  preproc Insts c ≫= compile Insts = Err e ->
  CompileToBinary Insts c path ex w = (Err e, w).
Proof.
  unfold CompileToBinary. intros H.
  destruct (preproc Insts c) as [c1| | |]; cbn in H; try done; [|by inversion H].
  rewrite H. done.
Qed.

End AddressArguments.

(** ** The file system *)

Lemma Write_fits (path : string) (bs cs : list Z) (m : Z) (w : os.World) :
  os.files w !! path = Some (os.mkFile cs m) -> (length bs <= os.space w)%nat ->
  exists w', os.Write path bs w = (w', true) /\
             os.files w' !! path = Some (os.mkFile (cs ++ bs) m) /\
             os.space w' = (os.space w - length bs)%nat.
Proof.
  intros Hf Hs. unfold os.Write. rewrite Hf. cbn.
  rewrite Nat.min_l by done. rewrite firstn_all, bool_decide_eq_true_2 by done.
  eexists. split; [reflexivity|]. cbn. by rewrite lookup_insert_eq.
Qed.

(** A write, complete or not, leaves the file in place with its mode. *)
Lemma Write_mode (path : string) (bs : list Z) (f : os.File) (w : os.World) :
  os.files w !! path = Some f ->
  exists f', os.files (os.Write path bs w).1 !! path = Some f' /\ os.mode f' = os.mode f.
Proof.
  intros Hf. unfold os.Write. rewrite Hf. cbn. rewrite lookup_insert_eq. by eexists.
Qed.

Lemma Chmod_file (path : string) (m : Z) (f : os.File) (w : os.World) :
  os.files w !! path = Some f ->
  os.files (os.Chmod path m w) !! path = Some (os.mkFile (os.contents f) m) /\
  os.space (os.Chmod path m w) = os.space w.
Proof. intros Hf. unfold os.Chmod. rewrite Hf. cbn. by rewrite lookup_insert_eq. Qed.

Lemma Create_file (path : string) (w w1 : os.World) :
  os.Create path w = Some w1 ->
  exists m, os.files w1 !! path = Some (os.mkFile [] m) /\ os.space w1 = os.space w.
Proof.
  unfold os.Create. destruct (decide _); [done|]. intros H. inversion H; subst w1. cbn.
  rewrite lookup_insert_eq. by eexists.
Qed.

(** With room for the whole image, the file ends up holding it. *)
Lemma writeImage_fits (c : Compiler) (path : string) (ex : bool) (m : Z) (w : os.World) :
  os.files w !! path = Some (os.mkFile [] m) ->
  (length (image c ex) <= os.space w)%nat ->
  exists w', writeImage c path ex w = (Ok c, w') /\
             os.files w' !! path = Some (os.mkFile (image c ex) (if ex then 511 else m)).
Proof.
  intros Hf Hs. unfold writeImage, image in *. rewrite !length_app in Hs.
  set (w0 := if ex then os.Chmod path 511 (os.Write path shebang w).1 else w).
  assert (os.files w0 !! path =
            Some (os.mkFile (if ex then shebang else []) (if ex then 511 else m)) /\
          os.space w0 = (os.space w - length (if ex then shebang else []))%nat) as [H0 S0].
  { subst w0. destruct ex; [|split; [done|cbn; lia]].
    destruct (Write_fits path shebang [] m w Hf ltac:(lia)) as (w' & E & F & S).
    rewrite E. cbn [fst]. destruct (Chmod_file path 511 _ _ F) as [F' S'].
    rewrite F', S', S. done. }
  clearbody w0.
  destruct (Write_fits path magic _ _ w0 H0 ltac:(lia)) as (w1 & E1 & H1 & S1).
  rewrite E1. cbn [fst].
  destruct (Write_fits path [VersionMajor; VersionMinor; VersionPatch] _ _ w1 H1
              ltac:(cbn [length] in *; lia)) as (w2 & E2 & H2 & S2).
  rewrite E2. cbn [fst]. unfold fileWriteWord.
  destruct (Write_fits path (be_bytes 8 (programSize c)) _ _ w2 H2
              ltac:(cbn [length] in *; lia)) as (w3 & E3 & H3 & S3).
  rewrite E3. cbn [fst].
  destruct (Write_fits path (be_bytes 8 (memorySize c)) _ _ w3 H3
              ltac:(cbn [length] in *; lia)) as (w4 & E4 & H4 & S4).
  rewrite E4. cbn [fst].
  destruct (Write_fits path (be_bytes 8 (entryPoint c)) _ _ w4 H4
              ltac:(cbn [length] in *; lia)) as (w5 & E5 & H5 & S5).
  rewrite E5. cbn [fst].
  destruct (Write_fits path (memory c) _ _ w5 H5
              ltac:(cbn [length] in *; lia)) as (w6 & E6 & H6 & S6).
  rewrite E6. cbn [negb].
  destruct (Write_fits path (program c) _ _ w6 H6
              ltac:(cbn [length] in *; lia)) as (w7 & E7 & H7 & S7).
  rewrite E7. cbn [negb].
  exists w7. split; [done|]. rewrite H7. by rewrite <- !app_assoc.
Qed.

(** Whatever room there is, an executable image ends up with mode 0777. *)
Lemma writeImage_mode (c : Compiler) (path : string) (f : os.File)
    (w w' : os.World) (r : result Compiler) :
  os.files w !! path = Some f -> writeImage c path true w = (r, w') ->
  exists f', os.files w' !! path = Some f' /\ os.mode f' = 511.
Proof.
  intros Hf. unfold writeImage, fileWriteWord.
  destruct (Write_mode path shebang f w Hf) as (f0 & F0 & _).
  destruct (Chmod_file path 511 f0 _ F0) as [F0' _].
  destruct (Write_mode path magic _ _ F0') as (f1 & F1 & M1). cbn in M1.
  destruct (Write_mode path [VersionMajor; VersionMinor; VersionPatch] _ _ F1) as (f2 & F2 & M2).
  destruct (Write_mode path (be_bytes 8 (programSize c)) _ _ F2) as (f3 & F3 & M3).
  destruct (Write_mode path (be_bytes 8 (memorySize c)) _ _ F3) as (f4 & F4 & M4).
  destruct (Write_mode path (be_bytes 8 (entryPoint c)) _ _ F4) as (f5 & F5 & M5).
  destruct (Write_mode path (memory c) _ _ F5) as (f6 & F6 & M6).
  destruct (os.Write path (memory c) _) as [w6 ok6] eqn:E6. cbn [fst] in F6.
  destruct ok6; cbn [negb].
  - destruct (Write_mode path (program c) _ _ F6) as (f7 & F7 & M7).
    destruct (os.Write path (program c) _) as [w7 ok7] eqn:E7. cbn [fst] in F7.
    destruct ok7; cbn [negb]; intros H; inversion H; subst; exists f7; split; congruence.
  - intros H; inversion H; subst; exists f6; split; congruence.
Qed.

(** ** The tokens the scan keeps *)

Lemma kept_cons_keep (t : Token) (ts : list Token) :
  token.Type_ t <> token.Label -> kept (t :: ts) = t :: kept ts.
Proof. intros H. unfold kept. by rewrite filter_cons, decide_True. Qed.

Lemma kept_cons_label (t : Token) (ts : list Token) :
  token.Type_ t = token.Label -> kept (t :: ts) = kept ts.
Proof. intros H. unfold kept. rewrite filter_cons, decide_False; [done|]. by intros ?. Qed.


(** ** The records of the program region *)

Section Records.

Variable Insts : gmap string Inst.

Lemma slots_take_S (ts : list Token) (n : nat) (t : Token) :
  ts !! n = Some t ->
  slots Insts (take (S n) ts) =
  slots Insts (take n ts) +
  (if decide (token.Type_ t = token.Word /\ is_Some (Insts !! token.Data t)) then 1 else 0).
Proof.
  intros H. rewrite (take_S_r _ _ _ H), slots_app, slots_cons.
  change (slots Insts []) with 0. lia.
Qed.

(** Tokens that are no instruction words do not move the slot counter. *)
Lemma slots_take_range (ts : list Token) (p q : nat) :
  (p <= q <= length ts)%nat ->
  (forall i t, (p <= i < q)%nat -> ts !! i = Some t ->
     ~ (token.Type_ t = token.Word /\ is_Some (Insts !! token.Data t))) ->
  slots Insts (take q ts) = slots Insts (take p ts).
Proof.
  intros [Hpq Hq]. induction q as [|q IH]; intros H.
  { by replace p with 0%nat by lia. }
  destruct (decide (p = S q)) as [->|Hne]; [done|].
  destruct (lookup_lt_is_Some_2 ts q ltac:(lia)) as [t Ht].
  rewrite (slots_take_S _ _ _ Ht), decide_False by (apply (H q); [lia|done]).
  rewrite Z.add_0_r. apply IH; [lia..|]. intros i t' Hi. apply H. lia.
Qed.

Lemma slots_kept (ts : list Token) : slots Insts (kept ts) = slots Insts ts.
Proof.
  induction ts as [|t ts IH]; [done|].
  destruct (decide (token.Type_ t = token.Label)) as [K|K].
  - rewrite kept_cons_label, slots_cons, IH by done.
    rewrite decide_False; [lia|]. intros [? _]. congruence.
  - rewrite kept_cons_keep, !slots_cons, IH by done. done.
Qed.

(** The data items of a [let] are no words. *)
Lemma compileLet_items_tokens (fuel : nat) (size : Z) (c c' : Compiler) :
  wf c -> compileLet_items fuel size c = Ok c' ->
  forall i t, pos c <= i < pos c' -> toks c !! Z.to_nat i = Some t ->
              token.Type_ t <> token.Word.
Proof.
  revert c. induction fuel as [|fuel IH]; intros c Hwf H; cbn in H; [discriminate|].
  inv_bind H. inv_bind H.
  assert (token.Type_ (tok c) <> token.Word /\ token.Type_ (tok c) <> token.EOF) as [Kw Ke].
  { unfold compileLet_item in E. destruct (decide _) as [K|_]; [by rewrite K|].
    unfold token.IsArg in E. destruct (token.Type_ (tok c)); done. }
  apply compileLet_item_Ok in E as (D0 & P0 & K0); [|done].
  destruct D0 as ((T0 & _) & _ & _ & _ & Hwf0).
  destruct (next_Ok _ _ (proj1 Hwf0) E0) as (Hc1 & (T1 & _) & _ & _ & _ & _ & Ht1 & _ & P1).
  pose proof (next_data_step _ _ Hwf0 E0) as (_ & _ & _ & _ & Hwf1).
  assert (pos c1 = pos c + 1) as P1' by (rewrite <- P0; apply P1; by rewrite K0).
  clear P1. rename P1' into P1.
  pose proof (cur_pos c (proj1 Hwf)) as Hp. pose proof (cur_tok c (proj1 Hwf)) as Hk.
  destruct (decide _) as [_|Kc].
  { inversion H; subst c'. intros i t Hi Ht. assert (i = pos c) as -> by lia.
    rewrite Hk in Ht. by inversion Ht; subst t. }
  apply dec_stable in Kc.
  inv_bind H.
  destruct (next_Ok _ _ Hc1 E) as (Hc2 & (T2 & _) & _ & _ & _ & _ & _ & _ & P2).
  pose proof (next_data_step _ _ Hwf1 E) as (_ & _ & _ & _ & Hwf2).
  assert (pos c2 = pos c + 2) as P2' by (rewrite P2 by (by rewrite Kc); lia).
  intros i t Hi Ht.
  destruct (decide (i = pos c)) as [->|N0].
  { rewrite Hk in Ht. by inversion Ht; subst t. }
  destruct (decide (i = pos c + 1)) as [->|N1].
  { rewrite <- P1, <- T0, <- T1, Ht1 in Ht. inversion Ht; subst t. by rewrite Kc. }
  apply (IH _ Hwf2 H i t); [lia|]. by rewrite T2, T1, T0.
Qed.

(** Of the tokens of an accepted [let], only the name is a word. *)
Lemma compileLet_tokens (c c' : Compiler) :
  wf c -> token.Type_ (tok c) = token.Let -> compileLet c = Ok c' ->
  forall i t, pos c <= i < pos c' -> toks c !! Z.to_nat i = Some t ->
              token.Type_ t = token.Word -> i = pos c + 1.
Proof.
  intros Hwf Kl H. unfold compileLet in H.
  pose proof (cur_pos c (proj1 Hwf)) as Hp. pose proof (cur_tok c (proj1 Hwf)) as Hk.
  destruct (next_cases c (proj1 Hwf)) as [[E _]|[_ (t1 & Ht1 & R & Hc1)]];
    [by rewrite Kl in E|].
  rewrite R in H. cbn [mbind result_bind] in H.
  set (c1 := set_tok t1 (set_pos (pos c + 1) c)) in *.
  assert (wf c1) as Hwf1 by (split; [done|apply Hwf]).
  destruct (decide _) as [|Hw]; [discriminate|]. apply dec_stable in Hw.
  destruct (decide _) as [|Hv]; [discriminate|].
  destruct (decide _) as [|Hl]; [discriminate|].
  set (c2 := set_vars _ c1) in *.
  assert (wf c2) as Hwf2 by by apply wf_set_vars.
  inv_bind H. inv_bind H. inv_bind H.
  destruct (next_Ok _ _ (proj1 Hwf2) E) as (Hc3 & (T3 & _) & _ & _ & _ & _ & Ht3 & _ & P3).
  pose proof (next_data_step _ _ Hwf2 E) as (_ & _ & _ & _ & Hwf3).
  assert (pos c0 = pos c + 1 + 1) as P3'
    by (apply P3; change (token.Type_ (tok c1) <> token.EOF); by rewrite Hw).
  clear P3. rename P3' into P3. cbn in T3.
  assert (token.Type_ (tok c0) <> token.Word /\ token.Type_ (tok c0) <> token.EOF) as [Kw Ke].
  { destruct (token.Type_ (tok c0)); done. }
  destruct (next_Ok _ _ Hc3 E1) as (Hc4 & (T4 & _) & _ & _ & _ & _ & _ & _ & P4).
  pose proof (next_data_step _ _ Hwf3 E1) as (_ & _ & _ & _ & Hwf4).
  specialize (P4 Ke).
  intros i t Hi Ht Kt.
  destruct (decide (i = pos c)) as [->|N0].
  { rewrite Hk in Ht. inversion Ht; subst t. congruence. }
  destruct (decide (i = pos c + 1)) as [->|N1]; [done|].
  destruct (decide (i = pos c + 1 + 1)) as [->|N2].
  { rewrite <- P3, <- T3, Ht3 in Ht. inversion Ht; subst t. done. }
  exfalso. refine (compileLet_items_tokens _ _ _ _ Hwf4 H i t _ _ Kt).
  - rewrite P4, P3. lia.
  - by rewrite T4, T3.
Qed.

(** An accepted instruction is named in the table, adds one record, and
    takes no further word. *)
Lemma compileInst_tokens (c c' : Compiler) :
  wf c -> token.Type_ (tok c) <> token.EOF -> compileInst Insts c = Ok c' ->
  is_Some (Insts !! token.Data (tok c)) /\
  length (program c') = (length (program c) + 9)%nat /\
  forall i t, pos c < i < pos c' -> toks c !! Z.to_nat i = Some t ->
              token.Type_ t <> token.Word.
Proof.
  intros Hwf Hne H. unfold compileInst in H.
  destruct (Insts !! _) as [inst|]; [|discriminate]. split; [done|].
  destruct (next_cases c (proj1 Hwf)) as [[E _]|[_ (t1 & Ht1 & R & Hc1)]]; [done|].
  rewrite R in H. cbn [mbind result_bind] in H.
  set (c1 := set_tok t1 (set_pos (pos c + 1) c)) in *.
  destruct (token.IsArg (tok c1)) eqn:Ka; cbn [negb] in H.
  - destruct (negb (HasArg inst)); [discriminate|].
    inv_bind H. inv_bind H. inversion H; subst c'; clear H.
    destruct (next_Ok _ _ Hc1 E0) as (_ & _ & _ & _ & _ & P & _ & _ & P2).
    split.
    { unfold writeInst; cbn [program set_program].
      rewrite P, !length_app, !length_be_bytes.
      change (program c1) with (program c). lia. }
    assert (token.Type_ (tok c1) <> token.EOF) as Ke.
    { unfold token.IsArg in Ka. destruct (token.Type_ (tok c1)); done. }
    cbn. rewrite (P2 Ke). cbn. intros i t Hi Ht. assert (i = pos c + 1) as -> by lia.
    rewrite Ht1 in Ht. inversion Ht; subst t.
    unfold token.IsArg in Ka. cbn in Ka. destruct (token.Type_ t1); done.
  - destruct (HasArg inst); [discriminate|]. inversion H; subst c'; clear H.
    split; [unfold writeInst; cbn [program set_program];
            rewrite !length_app, !length_be_bytes; cbn; lia|].
    cbn. intros i t Hi. lia.
Qed.

(** At the head of every round, the program region holds one record for
    each instruction word the cursor has passed. *)
Lemma visits_program (c c' : Compiler) :
  wf c -> names_apart Insts (toks c) -> visits Insts c c' ->
  Z.of_nat (length (program c)) = 9 * slots Insts (take (Z.to_nat (pos c)) (toks c)) ->
  Z.of_nat (length (program c')) = 9 * slots Insts (take (Z.to_nat (pos c')) (toks c')).
Proof.
  intros Hwf Hna Hv. induction Hv as [c|c c1 c2 [Hne Hb] _ IH]; [done|].
  intros Hinv. pose proof Hb as Hb'.
  apply compile_body_Ok in Hb' as ((T&_) & Hwf1 & Hp); [|done..].
  apply IH; [done|by rewrite T|]. rewrite T.
  pose proof (cur_pos c (proj1 Hwf)) as Hp0.
  pose proof (cur_tok c (proj1 Hwf)) as Hk.
  pose proof (cursor_lt c1 (proj1 Hwf1)) as Hlt. rewrite T in Hlt.
  apply compile_body_inv in Hb as (t0 & Ht0 & [[K H]|[K H]]);
    rewrite Hk in Ht0; inversion Ht0; subst t0.
  - pose proof H as H'. apply compileInst_Ok in H' as (_ & _ & _ & _ & _); [|done..].
    apply compileInst_tokens in H as (Hi & L & Htok); [|done..].
    rewrite (slots_take_range (toks c) (S (Z.to_nat (pos c))) (Z.to_nat (pos c1))).
    + rewrite (slots_take_S _ _ _ Hk), decide_True by done. lia.
    + lia.
    + intros i t Hi' Ht [Kw _]. apply (Htok (Z.of_nat i) t); [lia|by rewrite Nat2Z.id|done].
  - pose proof H as H'. apply compileLet_Ok in H' as (_ & _ & _ & P & t1 & Ht1 & K1 & _); [|done..].
    pose proof (compileLet_tokens c c1 Hwf K H) as Htok.
    rewrite P, Hinv. f_equal.
    symmetry. apply slots_take_range; [lia|].
    intros i t Hi' Ht [Kw Hin].
    assert (Z.of_nat i = pos c + 1) as Hi1.
    { apply (Htok (Z.of_nat i) t); [lia|by rewrite Nat2Z.id|done]. }
    replace i with (S (Z.to_nat (pos c))) in Ht by lia.
    rewrite (Hna _ _ _ Hk K Ht Kw) in Hin. by destruct Hin.
Qed.

End Records.

(** ** Forward references *)


Section LabelsAndVariables.

Variable Insts : gmap string Inst.


(** C4. An instruction whose argument names a variable that no [let]
    before it declares, and that is no label, fails with the
    address-name-not-declared error, and so does the assembly; whereas a
    name that a label declaration binds, wherever it stands in the token
    stream, resolves. *)
Theorem variable_forward_reference :
  (forall (ts : list Token) (c : Compiler) (inst : Inst) (nt : Token)
          (path : string) (executable : bool) (w : os.World),
      Z.of_nat (length ts) < 2 ^ 63 ->
      reaches Insts ts c ->
      token.Type_ (tok c) = token.Word ->
      Insts !! token.Data (tok c) = Some inst -> HasArg inst = true ->
      toks c !! Z.to_nat (pos c + 1) = Some nt -> token.Type_ nt = token.Addr ->
      labels c !! token.Data nt = None ->
      ~ declared_before c (token.Data nt) ->
      compileInst Insts c =
        Err (At (token.Where_ nt) (AddressNotDeclared (token.Data nt))) /\
      CompileToBinary Insts (New ts) path executable w =
        (Err (At (token.Where_ nt) (AddressNotDeclared (token.Data nt))), w)) /\
  (forall (pre post : list Token) (lab : Token) (c : Compiler) (inst : Inst) (nt : Token),
      Z.of_nat (length (pre ++ lab :: post)) < 2 ^ 63 ->
      reaches Insts (pre ++ lab :: post) c ->
      token.Type_ (tok c) = token.Word ->
      Insts !! token.Data (tok c) = Some inst -> HasArg inst = true ->
      toks c !! Z.to_nat (pos c + 1) = Some nt -> token.Type_ nt = token.Addr ->
      Forall (fun t => token.Type_ t <> token.EOF) pre ->
      token.Type_ lab = token.Label -> token.Data lab = token.Data nt ->
      exists c', compileInst Insts c = Ok c' /\
        program c' = program c ++ be_bytes 1 (Op inst) ++ be_bytes 8 (slots Insts pre)).
Proof.
  split.
  - intros ts c inst nt path ex w Hlen Hr Kt Hi Ha Hnt Kn Hl Hnd.
    destruct (reaches_wf Insts ts c Hlen Hr) as ([Hc Hm] & _ & _).
    assert (token.Type_ (tok c) <> token.EOF) as Hne by (by rewrite Kt).
    assert (vars c !! token.Data nt = None) as Hv.
    { apply eq_None_not_Some. intros Hs. apply Hnd.
      destruct Hr as (c0 & Hs0 & Hv).
      destruct (start_state_wf Insts ts c0 Hlen Hs0) as (Hwf0 & _ & V0 & _).
      eapply (visits_vars Insts c0 c); [done|done| |done].
      intros v Hv0. rewrite V0, lookup_empty in Hv0. by destruct Hv0. }
    destruct (compileInst_addr Insts c inst nt Hc) as [_ Hfail]; try done.
    specialize (Hfail Hl Hv). split; [done|].
    apply CompileToBinary_Err, (compile_fails_at Insts ts c); try done.
    unfold compile_body. by rewrite (cur_tok c Hc), Kt.
  - intros pre post lab c inst nt Hlen Hr Kt Hi Ha Hnt Kn Hpre Kl Hd.
    destruct (reaches_wf Insts _ c Hlen Hr) as ([Hc Hm] & _ & (c1 & Hpp & S)).
    assert (labels c !! token.Data nt = Some (wrap64 (slots Insts pre))) as Hlab.
    { destruct S as (_ & -> & _).
      destruct (preproc_Ok Insts _ c1 Hpp) as (_&_&_&_&_&_&_&_& c2 & Hscan & ->).
      rewrite <- Hd. apply preproc_scan_label in Hscan; done. }
    destruct (compileInst_addr Insts c inst nt Hc) as [Hok _]; try done;
      [by rewrite Kt|].
    destruct (Hok _ Hlab) as (c' & E & P). exists c'. split; [done|].
    by rewrite P, be_bytes_wrap64.
Qed.

End LabelsAndVariables.


Lemma variable_forward_reference_witness :
  (compileInst SampleInsts early_use_state =
     Err (At (token.mkWhere 0 0) (AddressNotDeclared "x")) /\
   CompileToBinary SampleInsts (New early_use_program) "a.out" false
     (os.mkWorld ∅ ∅ 18 4096) =
     (Err (At (token.mkWhere 0 0) (AddressNotDeclared "x")), os.mkWorld ∅ ∅ 18 4096)) /\
  (exists c', compileInst SampleInsts jump_state = Ok c' /\
     program c' = program jump_state ++ [2] ++ [0; 0; 0; 0; 0; 0; 0; 2]).
Proof.
  split.
  - apply (proj1 (variable_forward_reference SampleInsts) early_use_program early_use_state
             (mkInst 1 true) (Tok token.Addr "x")).
    + vm_compute. reflexivity.
    + exists early_use_state. split; [vm_compute; reflexivity | apply rtc_refl].
    + reflexivity.
    + vm_compute. reflexivity.
    + reflexivity.
    + vm_compute. reflexivity.
    + reflexivity.
    + vm_compute. reflexivity.
    + intros (i & t & t' & Hi & _). vm_compute in Hi. destruct i; discriminate.
  - apply (proj2 (variable_forward_reference SampleInsts)
             [Tok token.Word "jmp"; Tok token.Addr "L"; Tok token.Label "entry";
              Tok token.Word "halt"] [Tok token.Word "halt"] (Tok token.Label "L")
             jump_state (mkInst 2 true) (Tok token.Addr "L")).
    + vm_compute. reflexivity.
    + exists jump_state. split; [vm_compute; reflexivity | apply rtc_refl].
    + reflexivity.
    + vm_compute. reflexivity.
    + reflexivity.
    + vm_compute. reflexivity.
    + reflexivity.
    + repeat constructor; discriminate.
    + reflexivity.
    + reflexivity.
Defined.

(** ** Variable declarations *)

Lemma start_state_wf_let : wf let_state.
Proof.
  apply (start_state_wf SampleInsts let_program let_state); vm_compute; reflexivity.
Qed.

(** C1 (as amended). A [let] that the compile pass accepts binds the name
    after the keyword to the byte length of the memory region at that
    moment plus one, and an address reference to the name resolves to that
    value; a variable of element size 1 with the data list 1,2,3 adds
    exactly the bytes 1, 2, 3 to the region, and its symbol is the offset of
    the first of them plus one. *)
Theorem let_binds_address :
  (forall (c c' : Compiler),
      wf c -> token.Type_ (tok c) = token.Let -> compileLet c = Ok c' ->
      exists t, toks c !! Z.to_nat (pos c + 1) = Some t /\
        token.Type_ t = token.Word /\
        vars c' = <[token.Data t := wrap64 (Z.of_nat (length (memory c)) + 1)]> (vars c) /\
        forall w, argToWord c' (token.mkToken token.Addr (token.Data t) w)
                  = Ok (wrap64 (Z.of_nat (length (memory c)) + 1))) /\
  (forall (c : Compiler) (pre rest : list Token) (x : string) (t9 : Token),
      wf c ->
      toks c = pre ++ [Tok token.Let "let"; Tok token.Word x; Tok token.Size8 "sz8";
                       Tok token.Dec "1"; Tok token.Comma ","; Tok token.Dec "2";
                       Tok token.Comma ","; Tok token.Dec "3"] ++ t9 :: rest ->
      pos c = Z.of_nat (length pre) ->
      token.Type_ t9 <> token.Comma ->
      vars c !! x = None -> labels c !! x = None ->
      exists c', compileLet c = Ok c' /\
        memory c' = memory c ++ [1; 2; 3] /\
        length (memory c') = (length (memory c) + 3)%nat /\
        forall w, argToWord c' (token.mkToken token.Addr x w)
                  = Ok (wrap64 (Z.of_nat (length (memory c)) + 1))).
Proof.
  split.
  - intros c c' Hwf Kt H.
    apply compileLet_Ok in H as ((_ & L & _) & _ & _ & _ & t & Ht & Kw & Hv & Hl & V);
      [|done|by rewrite Kt].
    rewrite (proj2 Hwf), wrap64_succ in V.
    exists t. split_and!; try done. intros w. unfold argToWord. cbn.
    by rewrite L, Hl, V, lookup_insert_eq.
  - intros c pre rest x t9 Hwf Htoks Hpos H9 Hv Hl.
    destruct (compileLet_123 c pre rest x t9 Hwf Htoks Hpos H9 Hv Hl) as (c' & E & M & V & L).
    exists c'. split_and!; try done.
    + rewrite M, length_app. cbn. lia.
    + intros w. unfold argToWord. cbn.
      rewrite L, Hl, V, lookup_insert_eq. by rewrite (proj2 Hwf), wrap64_succ.
Qed.

Lemma let_binds_address_witness :
  (exists t, toks let_state !! Z.to_nat (pos let_state + 1) = Some t /\
     token.Type_ t = token.Word /\
     vars (state_of (compileLet let_state)) =
       <[token.Data t := wrap64 (Z.of_nat (length (memory let_state)) + 1)]> (vars let_state) /\
     forall w, argToWord (state_of (compileLet let_state))
                 (token.mkToken token.Addr (token.Data t) w)
               = Ok (wrap64 (Z.of_nat (length (memory let_state)) + 1))) /\
  (exists c', compileLet let_state = Ok c' /\
     memory c' = memory let_state ++ [1; 2; 3] /\
     length (memory c') = (length (memory let_state) + 3)%nat /\
     forall w, argToWord c' (token.mkToken token.Addr "x" w)
               = Ok (wrap64 (Z.of_nat (length (memory let_state)) + 1))).
Proof.
  split.
  - apply (proj1 let_binds_address let_state (state_of (compileLet let_state))).
    + exact start_state_wf_let.
    + reflexivity.
    + vm_compute. reflexivity.
  - apply (proj2 let_binds_address let_state [] [lexer.eofToken] "x" (Tok token.Word "halt")).
    + exact start_state_wf_let.
    + vm_compute. reflexivity.
    + reflexivity.
    + discriminate.
    + vm_compute. reflexivity.
    + vm_compute. reflexivity.
Defined.

(** C1, as the specification words it, fails: in the program
    [let x sz8 1,2,3  entry: halt] the memory region is empty when [x] is
    declared and its first data byte is at offset 0, yet [x] is bound to 1. *)
Lemma let_address_not_length :
  wf let_state /\ token.Type_ (tok let_state) = token.Let /\ memory let_state = [] /\
  exists c', compileLet let_state = Ok c' /\
    memory c' = [1; 2; 3] /\
    vars c' !! "x"%string = Some 1 /\
    vars c' !! "x"%string <> Some (Z.of_nat (length (memory let_state))).
Proof.
  split; [exact start_state_wf_let|]. split; [reflexivity|]. split; [reflexivity|].
  exists (state_of (compileLet let_state)).
  split; [vm_compute; reflexivity|]. split; [reflexivity|].
  split; [vm_compute; reflexivity|]. vm_compute. discriminate.
Qed.

(** ** Failures, arity and the container *)

Section PassesAndContainer.

Variable Insts : gmap string Inst.

(** C3 (as amended). When the preprocessing pass or the compile pass
    fails, [CompileToBinary] returns that error and leaves the file system
    as it was: the file is created only after both passes.  A token stream
    with no label named [entry] always fails so; the error is the
    missing-entry-point error when the stream holds no error token and
    declares no label twice. *)
Theorem failure_writes_no_file :
  (forall (c : Compiler) (path : string) (executable : bool) (w : os.World) (e : error),
      preproc Insts c = Err e ->
      CompileToBinary Insts c path executable w = (Err e, w)) /\
  (forall (c c1 : Compiler) (path : string) (executable : bool) (w : os.World) (e : error),
      preproc Insts c = Ok c1 -> compile Insts c1 = Err e ->
      CompileToBinary Insts c path executable w = (Err e, w)) /\
  (forall (ts : list Token) (path : string) (executable : bool) (w : os.World),
      "entry"%string ∉ label_names ts ->
      exists e, CompileToBinary Insts (New ts) path executable w = (Err e, w) /\
        (Forall (fun t => token.Type_ t <> token.Error) ts ->
         NoDup (label_names ts) -> e = EntryNotFound)).
Proof.
  split_and!.
  - intros c path ex w e H. unfold CompileToBinary. by rewrite H.
  - intros c c1 path ex w e H1 H2. unfold CompileToBinary. by rewrite H1, H2.
  - intros ts path ex w Hn. unfold CompileToBinary, preproc. cbn [l New].
    destruct (preproc_scan_Err Insts ts (New ts)) as [[c' E]|[(t&_&_&E)|(t&_&_&E)]].
    + rewrite E. cbn.
      rewrite (preproc_scan_fresh Insts ts (New ts) c' "entry" E); [|done|done].
      by exists EntryNotFound.
    + rewrite E. cbn. eexists. split; [done|]. intros Hne Hnd.
      destruct (preproc_scan_total Insts ts (New ts) Hne Hnd) as [c' E']; [done|].
      rewrite E in E'. discriminate.
    + rewrite E. cbn. eexists. split; [done|]. intros Hne Hnd.
      destruct (preproc_scan_total Insts ts (New ts) Hne Hnd) as [c' E']; [done|].
      rewrite E in E'. discriminate.
Qed.

(** C5. The program [entry: halt] assembles to programSize 1, memorySize
    0, entryPoint 0, an empty memory region and a program region of nine
    bytes, the opcode of [halt] and eight zero bytes; and that is what the
    file holds after the header. *)
Theorem minimal_program_image (op : Z) (w1 w2 : token.Where) :
  Insts !! "halt"%string = Some (mkInst op false) -> 0 <= op < 256 ->
  exists c,
    preproc Insts (New [token.mkToken token.Label "entry" w1;
                        token.mkToken token.Word "halt" w2]) ≫= compile Insts = Ok c /\
    programSize c = 1 /\ memorySize c = 0 /\ entryPoint c = 0 /\
    memory c = [] /\ program c = op :: [0; 0; 0; 0; 0; 0; 0; 0] /\
    length (program c) = 9%nat /\
    forall (path : string) (w : os.World),
      path ∉ os.denied w -> (39 <= os.space w)%nat ->
      exists w' f,
        CompileToBinary Insts (New [token.mkToken token.Label "entry" w1;
                                    token.mkToken token.Word "halt" w2]) path false w
          = (Ok c, w') /\
        os.files w' !! path = Some f /\
        os.contents f = bytes_of_string "AVM" ++ [1; 7; 7] ++
                        [0; 0; 0; 0; 0; 0; 0; 1] ++ [0; 0; 0; 0; 0; 0; 0; 0] ++
                        [0; 0; 0; 0; 0; 0; 0; 0] ++ op :: [0; 0; 0; 0; 0; 0; 0; 0].
Proof.
  intros Hh Hop.
  set (halt := token.mkToken token.Word "halt" w2).
  set (c1 := mkCompiler [halt; lexer.eofToken] 1 lexer.eofToken 1 0 0
               (<["entry"%string := 0]> ∅) ∅ [] [] []).
  set (c2 := mkCompiler [halt; lexer.eofToken] 1 lexer.eofToken 1 0 0
               (<["entry"%string := 0]> ∅) ∅ [] (op :: [0; 0; 0; 0; 0; 0; 0; 0]) []).
  assert (preproc Insts (New [token.mkToken token.Label "entry" w1; halt]) = Ok c1) as Hp.
  { unfold preproc. cbn. rewrite Hh. cbn.
    rewrite (decide_False (P := is_Some (∅ !! "entry"%string))).
    2:{ rewrite lookup_empty. by intros [? ?]. }
    rewrite decide_True by by eexists. cbn.
    rewrite lookup_insert_eq. reflexivity. }
  assert (compile Insts c1 = Ok c2) as Hcm.
  { unfold compile, compile_start. cbn. change (Z.to_nat 0) with 0%nat. cbn.
    rewrite decide_False by done.
    unfold compile_body. cbn. change (Z.to_nat 0) with 0%nat. cbn.
    unfold compileInst. cbn. rewrite Hh. cbn.
    unfold next. cbn. rewrite decide_False by done.
    change (Z.to_nat (wrap64 (0 + 1))) with 1%nat. cbn.
    rewrite decide_True by done.
    unfold writeInst, c2. cbn. rewrite Z.div_1_r, (Z.mod_small op 256) by lia.
    reflexivity. }
  exists c2. split; [by rewrite Hp; cbn; rewrite Hcm|].
  split_and!; try reflexivity.
  intros path w Hd Hs. unfold CompileToBinary. rewrite Hp, Hcm.
  destruct (os.Create path w) as [w0|] eqn:Ec.
  2:{ unfold os.Create in Ec. by rewrite decide_False in Ec. }
  destruct (Create_file _ _ _ Ec) as (m & Hf & Hsp).
  destruct (writeImage_fits c2 path false m w0 Hf) as (w' & E & F).
  { unfold image. cbn. lia. }
  exists w', (os.mkFile (image c2 false) m). split_and!; done.
Qed.

(** C6. An instruction that takes no argument and is followed by an
    argument-shaped token fails with "expects no arguments"; one that takes
    an argument and is followed by a token that is not argument-shaped (the
    end marker, when nothing follows) fails with "expects an argument";
    an instruction that takes no argument is otherwise emitted as its
    opcode and the operand 0; and one that takes an argument and has it is
    emitted with the [Word] the argument converts to. *)
Theorem compileInst_arity (c : Compiler) (inst : Inst) (nt : Token) :
  cursor_ok c -> token.Type_ (tok c) <> token.EOF ->
  Insts !! token.Data (tok c) = Some inst ->
  toks c !! Z.to_nat (pos c + 1) = Some nt ->
  (HasArg inst = false -> token.IsArg nt = true ->
     compileInst Insts c =
     Err (At (token.Where_ (tok c)) (ExpectsNoArguments (token.Data (tok c))))) /\
  (HasArg inst = true -> token.IsArg nt = false ->
     compileInst Insts c =
     Err (At (token.Where_ (tok c)) (ExpectsArgument (token.Data (tok c))))) /\
  (token.Type_ nt = token.EOF -> token.IsArg nt = false) /\
  (HasArg inst = false -> token.IsArg nt = false ->
     exists c', compileInst Insts c = Ok c' /\
       program c' = program c ++ be_bytes 1 (Op inst) ++ [0; 0; 0; 0; 0; 0; 0; 0]) /\
  (HasArg inst = true -> token.IsArg nt = true ->
     compileInst Insts c =
     (data ← argToWord (set_tok nt (set_pos (pos c + 1) c)) nt;
      c2 ← next (set_tok nt (set_pos (pos c + 1) c));
      Ok (writeInst (Op inst) data c2)) /\
     forall data c', argToWord (set_tok nt (set_pos (pos c + 1) c)) nt = Ok data ->
       compileInst Insts c = Ok c' ->
       program c' = program c ++ be_bytes 1 (Op inst) ++ be_bytes 8 data).
Proof.
  intros Hc Hne Hi Hnt. destruct (next_at c nt Hc Hne Hnt) as [R Hc1].
  split_and!.
  - intros Ha Hn. unfold compileInst. rewrite Hi, R. cbn. by rewrite Hn, Ha.
  - intros Ha Hn. unfold compileInst. rewrite Hi, R. cbn. by rewrite Hn, Ha.
  - intros K. unfold token.IsArg. by rewrite K.
  - intros Ha Hn. unfold compileInst. rewrite Hi, R. cbn. rewrite Hn, Ha. cbn.
    by eexists.
  - intros Ha Hn.
    assert (compileInst Insts c =
            (data ← argToWord (set_tok nt (set_pos (pos c + 1) c)) nt;
             c2 ← next (set_tok nt (set_pos (pos c + 1) c));
             Ok (writeInst (Op inst) data c2))) as E.
    { unfold compileInst. rewrite Hi, R. cbn. by rewrite Hn, Ha. }
    split; [exact E|]. intros data c' Hd H. rewrite E, Hd in H. cbn in H.
    inv_bind H. inversion H; subst c'. cbn.
    destruct (next_Ok _ _ Hc1 E0) as (_&_&_&_&_&P&_). by rewrite P.
Qed.

(** C9 (as amended). When an executable is asked for, the file has mode
    0777, and, the device having room for the image, it begins with the
    interpreter line, which is 15 bytes long, followed by the three magic
    bytes and the rest of the container. *)
Theorem executable_image (c c' : Compiler) (path : string) (w w' : os.World) :
  CompileToBinary Insts c path true w = (Ok c', w') ->
  length shebang = 15%nat /\
  exists f, os.files w' !! path = Some f /\ os.mode f = 511 /\
    ((length (image c' true) <= os.space w)%nat ->
     os.contents f = shebang ++ magic ++
       [VersionMajor; VersionMinor; VersionPatch] ++
       be_bytes 8 (programSize c') ++ be_bytes 8 (memorySize c') ++
       be_bytes 8 (entryPoint c') ++ memory c' ++ program c').
Proof.
  unfold CompileToBinary. intros H. split; [reflexivity|].
  destruct (preproc Insts c) as [c1| | |]; try (by inversion H).
  destruct (compile Insts c1) as [c2| | |]; try (by inversion H).
  destruct (os.Create path w) as [w0|] eqn:Ec; [|by inversion H].
  destruct (Create_file _ _ _ Ec) as (m & Hf & Hsp).
  assert (c' = c2) as ->.
  { unfold writeImage in H. repeat case_match; by inversion H. }
  destruct (writeImage_mode c2 path _ w0 w' _ Hf H) as (f & F & M).
  exists f. split_and!; try done. intros Hs.
  destruct (writeImage_fits c2 path true m w0 Hf ltac:(lia)) as (w'' & E & F').
  rewrite E in H. inversion H; subst w''. rewrite F in F'. by inversion F'.
Qed.

End PassesAndContainer.

(** ** Literals *)



(** C8. The decimal literal 255, the hexadecimal literal ff, the octal
    literal 377 and the binary literal 11111111, as the payloads of their
    tokens (the digits of the declared base; the base itself is the kind of
    the token), convert to the same [Word], 255, and an instruction
    carrying it has the operand bytes 00 00 00 00 00 00 00 FF. *)
Theorem integer_literals_agree (c : Compiler) (w : token.Where) :
  argToWord c (token.mkToken token.Dec "255" w) = Ok 255 /\
  argToWord c (token.mkToken token.Hex "ff" w) = Ok 255 /\
  argToWord c (token.mkToken token.Oct "377" w) = Ok 255 /\
  argToWord c (token.mkToken token.Bin "11111111" w) = Ok 255 /\
  be_bytes 8 255 = [0; 0; 0; 0; 0; 0; 0; 0xFF] /\
  forall op, program (writeInst op 255 c)
             = program c ++ be_bytes 1 op ++ [0; 0; 0; 0; 0; 0; 0; 0xFF].
Proof. split_and!; try reflexivity. Qed.

(** [strconv.ParseInt] with an explicit base takes no base prefix: a payload
    that still carried one would make [argToWord] panic. *)
Remark prefixed_payload_panics (c : Compiler) :
  argToWord c (Tok token.Hex "0xff") = Panic (PanicParse "0xff").
Proof. reflexivity. Qed.

(** C10. A character literal converts to the value of the first byte of its
    payload, and only a payload of exactly one byte returns: a longer one
    (every multi-byte UTF-8 character) panics explicitly, an empty one
    panics on the index, and no payload makes [argToWord] return an error. *)
Theorem char_literal_to_word (c : Compiler) (s : string) (w : token.Where) :
  argToWord c (token.mkToken token.Char s w) =
    match s with
    | EmptyString => Panic PanicIndex
    | String.String a EmptyString => Ok (byte_of_ascii a)
    | String.String _ (String.String _ _) => Panic PanicCharLength
    end /\
  ((exists v, argToWord c (token.mkToken token.Char s w) = Ok v) <-> String.length s = 1%nat) /\
  (forall e, argToWord c (token.mkToken token.Char s w) <> Err e) /\
  argToWord c (token.mkToken token.Char
                 (String.String (ascii_of_nat 195) (String.String (ascii_of_nat 169) "")) w)
    = Panic PanicCharLength.
Proof.
  unfold argToWord. cbn [token.Type_ token.Data].
  destruct s as [|a [|b s]]; cbn.
  - split_and!; try done. split; [by intros [? ?]|done].
  - split_and!; try done. split; [done|by eexists].
  - rewrite decide_True by lia. split_and!; try done. split; [by intros [? ?]|done].
Qed.

(** ** The theorems on sample programs *)

Lemma failure_writes_no_file_witness :
  CompileToBinary SampleInsts (New twice_program) "a.out" true empty_world
    = (Err (At (token.mkWhere 0 0) (RedefinitionOfLabel "a")), empty_world) /\
  CompileToBinary SampleInsts (New early_use_program) "a.out" true empty_world
    = (Err (At (token.mkWhere 0 0) (AddressNotDeclared "x")), empty_world) /\
  exists e, CompileToBinary SampleInsts (New no_entry_program) "a.out" true empty_world
              = (Err e, empty_world) /\
    (Forall (fun t => token.Type_ t <> token.Error) no_entry_program ->
     NoDup (label_names no_entry_program) -> e = EntryNotFound).
Proof.
  destruct (failure_writes_no_file SampleInsts) as (H1 & H2 & H3). split_and!.
  - apply H1. vm_compute. reflexivity.
  - apply (H2 _ (state_of (preproc SampleInsts (New early_use_program)))).
    + vm_compute. reflexivity.
    + vm_compute. reflexivity.
  - apply H3. vm_compute. intros H. inversion H.
Defined.

(** C3, as the specification words it, fails: the stream [a: a:] has no
    label named [entry], and assembling it fails with the redefinition
    error, not with the missing-entry-point error. *)
Lemma no_entry_other_error :
  ("entry"%string ∉ label_names twice_program) /\
  CompileToBinary SampleInsts (New twice_program) "a.out" false empty_world
    = (Err (At (token.mkWhere 0 0) (RedefinitionOfLabel "a")), empty_world) /\
  (CompileToBinary SampleInsts (New twice_program) "a.out" false empty_world).1
    <> Err EntryNotFound.
Proof.
  split_and!.
  - unfold label_names, twice_program. cbn.
    apply not_elem_of_cons. split; [discriminate|].
    apply not_elem_of_cons. split; [discriminate|]. apply not_elem_of_nil.
  - vm_compute. reflexivity.
  - vm_compute. discriminate.
Qed.

Lemma minimal_program_image_witness :
  exists c,
    preproc SampleInsts (New minimal_program) ≫= compile SampleInsts = Ok c /\
    programSize c = 1 /\ memorySize c = 0 /\ entryPoint c = 0 /\
    memory c = [] /\ program c = [0; 0; 0; 0; 0; 0; 0; 0; 0] /\
    length (program c) = 9%nat /\
    forall (path : string) (w : os.World),
      path ∉ os.denied w -> (39 <= os.space w)%nat ->
      exists w' f,
        CompileToBinary SampleInsts (New minimal_program) path false w = (Ok c, w') /\
        os.files w' !! path = Some f /\
        os.contents f = bytes_of_string "AVM" ++ [1; 7; 7] ++
                        [0; 0; 0; 0; 0; 0; 0; 1] ++ [0; 0; 0; 0; 0; 0; 0; 0] ++
                        [0; 0; 0; 0; 0; 0; 0; 0] ++ [0; 0; 0; 0; 0; 0; 0; 0; 0].
Proof.
  apply (minimal_program_image SampleInsts 0 (token.mkWhere 0 0) (token.mkWhere 0 0)).
  - vm_compute. reflexivity.
  - lia.
Defined.

Lemma compileInst_arity_witness :
  compileInst SampleInsts lone_push_state
    = Err (At (token.mkWhere 0 0) (ExpectsArgument "push")) /\
  compileInst SampleInsts halt_arg_state
    = Err (At (token.mkWhere 0 0) (ExpectsNoArguments "halt")).
Proof.
  split.
  - refine (proj1 (proj2 (compileInst_arity SampleInsts lone_push_state (mkInst 1 true)
                            lexer.eofToken _ _ _ _)) _ _).
    + apply (start_state_wf SampleInsts lone_push_program); vm_compute; reflexivity.
    + discriminate.
    + vm_compute. reflexivity.
    + vm_compute. reflexivity.
    + reflexivity.
    + reflexivity.
  - refine (proj1 (compileInst_arity SampleInsts halt_arg_state (mkInst 0 false)
                     (Tok token.Dec "1") _ _ _ _) _ _).
    + apply (start_state_wf SampleInsts halt_arg_program); vm_compute; reflexivity.
    + discriminate.
    + vm_compute. reflexivity.
    + vm_compute. reflexivity.
    + reflexivity.
    + reflexivity.
Defined.

Lemma executable_image_witness :
  length shebang = 15%nat /\
  exists f,
    os.files (CompileToBinary SampleInsts (New minimal_program) "a.out" true empty_world).2
      !! "a.out"%string = Some f /\
    os.mode f = 511 /\
    ((length (image (state_of (CompileToBinary SampleInsts (New minimal_program)
                                 "a.out" true empty_world).1) true)
      <= os.space empty_world)%nat ->
     os.contents f = shebang ++ magic ++ [1; 7; 7] ++
       [0; 0; 0; 0; 0; 0; 0; 1] ++ [0; 0; 0; 0; 0; 0; 0; 0] ++ [0; 0; 0; 0; 0; 0; 0; 0] ++
       [] ++ [0; 0; 0; 0; 0; 0; 0; 0; 0]).
Proof.
  apply (executable_image SampleInsts (New minimal_program)
           (state_of (CompileToBinary SampleInsts (New minimal_program)
                        "a.out" true empty_world).1)
           "a.out" empty_world).
  vm_compute. reflexivity.
Defined.

(** C9, as the specification words it, fails: the interpreter line is 15
    bytes long, so that in an executable image the magic bytes are at
    offset 15 and not at offset 16. *)
Lemma shebang_is_not_16_bytes :
  length shebang <> 16%nat /\
  exists f,
    os.files (CompileToBinary SampleInsts (New minimal_program) "a.out" true empty_world).2
      !! "a.out"%string = Some f /\
    take 3 (drop 15 (os.contents f)) = magic /\
    take 3 (drop 16 (os.contents f)) <> magic.
Proof.
  split; [vm_compute; discriminate|].
  eexists. split; [vm_compute; reflexivity|]. cbn [os.contents].
  split; [vm_compute; reflexivity | vm_compute; discriminate].
Qed.

(** * Further properties of the passes and of the container *)

(** ** Big-endian bytes, read back *)

Lemma be_value_from (n : nat) (v acc : Z) :
  foldl (fun a b => a * 256 + b) acc (be_bytes n v)
  = acc * 2 ^ (8 * Z.of_nat n) + v mod 2 ^ (8 * Z.of_nat n).
Proof.
  revert acc. induction n as [|n IH]; intros acc.
  { cbn. rewrite Z.mod_1_r. lia. }
  cbn [be_bytes foldl]. rewrite IH.
  replace (8 * Z.of_nat (S n)) with (8 * Z.of_nat n + 8) by lia.
  rewrite Z.pow_add_r by lia. change (2 ^ 8) with 256.
  rewrite (Z.rem_mul_r v (2 ^ (8 * Z.of_nat n)) 256) by lia. lia.
Qed.

Lemma be_bytes_bytes (n : nat) (v : Z) : Forall (fun b => 0 <= b < 256) (be_bytes n v).
Proof.
  induction n as [|n IH]; cbn; constructor; [|done].
  apply Z.mod_pos_bound. lia.
Qed.

Lemma be_value_be_bytes (n : nat) (v : Z) :
  be_value (be_bytes n v) = v mod 2 ^ (8 * Z.of_nat n).
Proof. unfold be_value. rewrite be_value_from. lia. Qed.

(** X1. Big-endian encoding narrows and can be read back: [be_bytes n v]
    has [n] bytes, each below 256, and they stand for [v] modulo 2^(8n); a
    [Word] written with eight bytes is read back unchanged. *)
Theorem be_bytes_round_trip (n : nat) (v : Z) :
  length (be_bytes n v) = n /\
  Forall (fun b => 0 <= b < 256) (be_bytes n v) /\
  be_value (be_bytes n v) = v mod 2 ^ (8 * Z.of_nat n) /\
  be_value (be_bytes 8 (wrap64 v)) = wrap64 v.
Proof.
  split_and!.
  - apply length_be_bytes.
  - apply be_bytes_bytes.
  - apply be_value_be_bytes.
  - rewrite be_value_be_bytes. change (8 * Z.of_nat 8) with 64.
    unfold wrap64. rewrite Z.mod_mod by lia. lia.
Qed.

(** X2. [writeMemory] accepts the element sizes 1, 2, 4 and 8 only; it then
    appends exactly [size] bytes, which stand for the datum modulo
    2^(8*size), and changes nothing but the memory region.  Every other size
    is the wrong-element-size error. *)
Theorem writeMemory_narrows (data size : Z) (c : Compiler) :
  (In size [1; 2; 4; 8] ->
   exists bs, writeMemory data size c = Ok (set_memory (memory c ++ bs) c) /\
     Z.of_nat (length bs) = size /\
     be_value bs = data mod 2 ^ (8 * size)) /\
  (~ In size [1; 2; 4; 8] -> writeMemory data size c = Err (WrongElementSize size)).
Proof.
  split.
  - intros Hs. assert (exists n : nat, size = Z.of_nat n /\
      writeMemory data size c = Ok (set_memory (memory c ++ be_bytes n data) c)) as (n & -> & E).
    { cbn in Hs. destruct Hs as [<-|[<-|[<-|[<-|[]]]]];
        [exists 1%nat|exists 2%nat|exists 4%nat|exists 8%nat]; done. }
    exists (be_bytes n data). split; [done|]. rewrite length_be_bytes. split; [done|].
    apply be_value_be_bytes.
  - intros Hs. unfold writeMemory.
    destruct (size =? 1) eqn:E1; [apply Z.eqb_eq in E1; subst; cbn in Hs; tauto|].
    destruct (size =? 2) eqn:E2; [apply Z.eqb_eq in E2; subst; cbn in Hs; tauto|].
    destruct (size =? 4) eqn:E4; [apply Z.eqb_eq in E4; subst; cbn in Hs; tauto|].
    destruct (size =? 8) eqn:E8; [apply Z.eqb_eq in E8; subst; cbn in Hs; tauto|].
    done.
Qed.

Lemma writeMemory_narrows_witness :
  exists bs, writeMemory 0x1234 1 (New []) = Ok (set_memory (memory (New []) ++ bs) (New [])) /\
    Z.of_nat (length bs) = 1 /\ be_value bs = 0x1234 mod 2 ^ (8 * 1).
Proof.
  apply (proj1 (writeMemory_narrows 0x1234 1 (New []))). cbn. tauto.
Defined.

(** X3. An instruction record is nine bytes: [writeInst] appends the
    opcode byte and the operand as eight bytes, from which the opcode
    (modulo 256) and the operand (modulo 2^64) are read back; so the length
    of the program region grows by 9 and nothing else changes. *)
Theorem writeInst_record (op data : Z) (c : Compiler) :
  exists rec,
    writeInst op data c = set_program (program c ++ rec) c /\
    length rec = 9%nat /\
    be_value (take 1 rec) = op mod 256 /\
    be_value (drop 1 rec) = data mod 2 ^ 64 /\
    length (program (writeInst op data c)) = (length (program c) + 9)%nat.
Proof.
  exists (be_bytes 1 op ++ be_bytes 8 data). split_and!.
  - reflexivity.
  - rewrite length_app, !length_be_bytes. done.
  - rewrite take_app_length' by by rewrite length_be_bytes.
    apply (be_value_be_bytes 1).
  - rewrite drop_app_length' by by rewrite length_be_bytes.
    apply (be_value_be_bytes 8).
  - unfold writeInst. cbn [program set_program].
    rewrite !length_app, !length_be_bytes. lia.
Qed.

(** ** Integer literals *)

Lemma digit_val_nonneg (a : ascii) (d : Z) : digit_val a = Some d -> 0 <= d.
Proof.
  unfold digit_val. intros H.
  repeat (case_match; [inversion H; subst; lia|]). done.
Qed.

Lemma parse_digits_ge (base : Z) (s : string) (acc n : Z) :
  0 <= base -> 0 <= acc -> parse_digits base s acc = Some n -> 0 <= n.
Proof.
  intros Hb. revert acc. induction s as [|a s IH]; intros acc Ha H; cbn in H.
  { inversion H; subst; done. }
  destruct (digit_val a) as [d|] eqn:Ed; [|done].
  destruct (d <? base); [|done].
  apply IH in H; [done|]. apply digit_val_nonneg in Ed. nia.
Qed.

Lemma ParseUint_ge (s : string) (base u : Z) :
  0 <= base -> ParseUint s base = Some u -> 0 <= u.
Proof.
  intros Hb. unfold ParseUint. destruct s as [|a s]; [done|].
  destruct (parse_digits base _ 0) as [n|] eqn:En; [|done].
  apply parse_digits_ge in En; [|done..].
  destruct (n <? 2 ^ 64); [|done]. intros H; inversion H; subst; done.
Qed.

Lemma ParseInt_bounds (s : string) (base n : Z) :
  0 <= base -> ParseInt s base = Some n -> - 2 ^ 63 <= n < 2 ^ 63.
Proof.
  intros Hb. unfold ParseInt. destruct s as [|a s]; [done|].
  destruct (ParseUint _ base) as [u|] eqn:Eu; [|done].
  apply ParseUint_ge in Eu; [|done].
  destruct (bool_decide (a = "-"%char)).
  - destruct (u <=? 2 ^ 63) eqn:E; [|done]. intros H; inversion H; subst. lia.
  - destruct (u <? 2 ^ 63) eqn:E; [|done]. intros H; inversion H; subst. lia.
Qed.

Lemma parse_digits_unsigned (base : Z) (a : ascii) (s : string) (n : Z) :
  parse_digits base (String.String a s) 0 = Some n ->
  a <> "+"%char /\ a <> "-"%char.
Proof.
  cbn. intros H. split; intros ->; cbn in H; done.
Qed.

(** X4. An integer literal is parsed as a signed 64-bit number and then
    taken as a [Word]: when [argToWord] returns, the [Word] is the two's
    complement of a number between -2^63 and 2^63 - 1 (a negative literal
    wraps around), and when the payload does not parse [argToWord] panics;
    it never returns an error.  A literal without a sign whose value is 2^63
    or more panics, although it would fit a [Word]. *)
Theorem integer_literal_word :
  (forall (c : Compiler) (t : Token) (base : Z),
      base_of (token.Type_ t) = Some base ->
      (exists n, - 2 ^ 63 <= n < 2 ^ 63 /\
                 ParseInt (token.Data t) base = Some n /\
                 argToWord c t = Ok (if n <? 0 then n + 2 ^ 64 else n)) \/
      argToWord c t = Panic (PanicParse (token.Data t))) /\
  (forall (c : Compiler) (t : Token) (base n : Z),
      base_of (token.Type_ t) = Some base ->
      parse_digits base (token.Data t) 0 = Some n -> 2 ^ 63 <= n ->
      argToWord c t = Panic (PanicParse (token.Data t))).
Proof.
  split.
  - intros c t base Hk.
    assert (argToWord c t = parseWord (token.Data t) base /\ 0 <= base) as [-> Hb].
    { unfold argToWord. destruct (token.Type_ t); inversion Hk; subst; split; (done || lia). }
    unfold parseWord. destruct (ParseInt _ _) as [n|] eqn:E; [left|right; reflexivity].
    pose proof (ParseInt_bounds _ _ _ Hb E) as Hr.
    exists n. split_and!; [lia..|done|]. f_equal. unfold wrap64.
    destruct (n <? 0) eqn:En.
    + apply Z.ltb_lt in En. symmetry. apply (Z.mod_unique _ _ (-1)); lia.
    + apply Z.ltb_ge in En. apply Z.mod_small. lia.
  - intros c t base n Hk Hp Hn.
    assert (argToWord c t = parseWord (token.Data t) base /\ 0 <= base) as [-> Hb].
    { unfold argToWord. destruct (token.Type_ t); inversion Hk; subst; split; (done || lia). }
    unfold parseWord. destruct (token.Data t) as [|a s] eqn:Ed.
    { cbn in Hp. inversion Hp; subst. lia. }
    destruct (parse_digits_unsigned _ _ _ _ Hp) as [Hplus Hminus].
    unfold ParseInt. rewrite !bool_decide_eq_false_2 by done. cbn [orb].
    unfold ParseUint. rewrite Hp.
    destruct (n <? 2 ^ 64); [|done].
    assert ((n <? 2 ^ 63) = false) as -> by (apply Z.ltb_ge; lia). done.
Qed.

Lemma integer_literal_word_witness :
  ((exists n, (- 2 ^ 63 <= n < 2 ^ 63) /\
              ParseInt "-1" 10 = Some n /\
              argToWord (New []) (Tok token.Dec "-1") = Ok (if n <? 0 then n + 2 ^ 64 else n)) \/
   argToWord (New []) (Tok token.Dec "-1") = Panic (PanicParse "-1")) /\
  argToWord (New []) (Tok token.Hex "ffffffffffffffff") = Panic (PanicParse "ffffffffffffffff").
Proof.
  split.
  - apply (proj1 integer_literal_word (New []) (Tok token.Dec "-1") 10). reflexivity.
  - apply (proj2 integer_literal_word (New []) (Tok token.Hex "ffffffffffffffff") 16
             (2 ^ 64 - 1)); [reflexivity | vm_compute; reflexivity | vm_compute; discriminate].
Defined.

(** ** The first error of the preprocessing pass *)

Lemma label_names_cons (t : Token) (ts : list Token) :
  label_names (t :: ts) =
  if decide (token.Type_ t = token.Label) then token.Data t :: label_names ts
  else label_names ts.
Proof. unfold label_names. rewrite filter_cons. by destruct (decide _). Qed.

Lemma label_names_app (ts1 ts2 : list Token) :
  label_names (ts1 ++ ts2) = label_names ts1 ++ label_names ts2.
Proof. unfold label_names. by rewrite filter_app, fmap_app. Qed.

Section PreprocFacts.

Variable Insts : gmap string Inst.

(** The scan over a clean stretch goes on with the rest, having bound the
    labels of the stretch and no other. *)
Lemma preproc_scan_clean (pre rest : list Token) (c : Compiler) :
  clean pre ->
  (forall L, L ∈ label_names pre -> labels c !! L = None) ->
  exists c1, preproc_scan Insts (pre ++ rest) c = preproc_scan Insts rest c1 /\
    (forall L, is_Some (labels c1 !! L) <-> is_Some (labels c !! L) \/ L ∈ label_names pre).
Proof.
  intros [Hf Hnd]. revert c. induction Hf as [|t pre [Ke Kr] _ IH]; intros c Hl.
  { exists c. split; [done|]. intros L. cbn. rewrite elem_of_nil. tauto. }
  rewrite label_names_cons in Hnd, Hl. cbn [app preproc_scan].
  destruct (token.Type_ t) eqn:Et; try done;
    try (rewrite decide_False in Hnd, Hl by done;
         destruct (IH Hnd (set_toks (toks (set_tok t (set_l (pre ++ rest) c)) ++ [t])
                             (set_tok t (set_l (pre ++ rest) c))) Hl) as (c1 & E & HL);
         exists c1; split; [exact E|];
         intros L; rewrite label_names_cons, Et, decide_False by done; apply HL).
  - (* a word *)
    rewrite decide_False in Hnd, Hl by done.
    destruct (decide (is_Some (Insts !! token.Data t))).
    + edestruct (IH Hnd) as (c1 & E & HL); [|exists c1; split; [exact E|]]; [exact Hl|].
      intros L. rewrite label_names_cons, Et, decide_False by done. apply HL.
    + edestruct (IH Hnd) as (c1 & E & HL); [|exists c1; split; [exact E|]]; [exact Hl|].
      intros L. rewrite label_names_cons, Et, decide_False by done. apply HL.
  - (* a label *)
    rewrite decide_True in Hnd, Hl by done. apply NoDup_cons in Hnd as [Hnot Hnd].
    rewrite decide_False.
    2:{ rewrite Hl by left. by intros [? ?]. }
    edestruct (IH Hnd) as (c1 & E & HL); [|exists c1; split; [exact E|]].
    { intros L HL. cbn. rewrite lookup_insert_ne; [apply Hl; by right|]. by intros <-. }
    intros L. rewrite label_names_cons, Et, decide_True by done.
    rewrite HL. cbn. rewrite elem_of_cons.
    destruct (decide (token.Data t = L)) as [->|Hne].
    + rewrite lookup_insert_eq. split; [by right; left|by intros _; left].
    + rewrite lookup_insert_ne by done. split; [tauto|]. intros [?|[?|?]]; [tauto|congruence|tauto].
Qed.

(** X5. The preprocessing pass reports the first thing that is wrong.  After
    a stretch of tokens with no end marker, no error token and no label
    declared twice, an error token fails with its message at its position,
    and a label declaration whose name the stretch has declared fails with
    the redefinition error at the position of this second declaration; in
    both cases [CompileToBinary] returns the error and writes nothing. *)
Theorem preproc_first_error (pre post : list Token) (t : Token)
    (path : string) (executable : bool) (w : os.World) :
  clean pre ->
  (token.Type_ t = token.Error ->
   preproc Insts (New (pre ++ t :: post))
     = Err (At (token.Where_ t) (LexMessage (token.Data t))) /\
   CompileToBinary Insts (New (pre ++ t :: post)) path executable w
     = (Err (At (token.Where_ t) (LexMessage (token.Data t))), w)) /\
  (token.Type_ t = token.Label -> token.Data t ∈ label_names pre ->
   preproc Insts (New (pre ++ t :: post))
     = Err (At (token.Where_ t) (RedefinitionOfLabel (token.Data t))) /\
   CompileToBinary Insts (New (pre ++ t :: post)) path executable w
     = (Err (At (token.Where_ t) (RedefinitionOfLabel (token.Data t))), w)).
Proof.
  intros Hc.
  destruct (preproc_scan_clean pre (t :: post) (New (pre ++ t :: post)) Hc)
    as (c1 & E & HL); [done|].
  split.
  - intros K.
    assert (preproc Insts (New (pre ++ t :: post))
            = Err (At (token.Where_ t) (LexMessage (token.Data t)))) as Hp.
    { unfold preproc. cbn [l New]. rewrite E. cbn. by rewrite K. }
    split; [done|]. unfold CompileToBinary. by rewrite Hp.
  - intros K Hin.
    assert (preproc Insts (New (pre ++ t :: post))
            = Err (At (token.Where_ t) (RedefinitionOfLabel (token.Data t)))) as Hp.
    { unfold preproc. cbn [l New]. rewrite E. cbn. rewrite K.
      rewrite decide_True; [done|]. apply HL. by right. }
    split; [done|]. unfold CompileToBinary. by rewrite Hp.
Qed.

End PreprocFacts.

Lemma preproc_first_error_witness :
  (preproc SampleInsts (New stray_error_program)
     = Err (At (token.mkWhere 0 0) (LexMessage "bad character")) /\
   CompileToBinary SampleInsts (New stray_error_program) "a.out" false empty_world
     = (Err (At (token.mkWhere 0 0) (LexMessage "bad character")), empty_world)) /\
  (preproc SampleInsts (New twice_program)
     = Err (At (token.mkWhere 0 0) (RedefinitionOfLabel "a")) /\
   CompileToBinary SampleInsts (New twice_program) "a.out" false empty_world
     = (Err (At (token.mkWhere 0 0) (RedefinitionOfLabel "a")), empty_world)).
Proof.
  split.
  - apply (proj1 (preproc_first_error SampleInsts
             [Tok token.Label "entry"; Tok token.Word "halt"] []
             (Tok token.Error "bad character") "a.out" false empty_world
             ltac:(split; [repeat constructor; discriminate
                          | apply NoDup_singleton]))).
    reflexivity.
  - apply (proj2 (preproc_first_error SampleInsts
             [Tok token.Label "a"] [] (Tok token.Label "a") "a.out" false empty_world
             ltac:(split; [repeat constructor; discriminate
                          | apply NoDup_singleton]))).
    + reflexivity.
    + apply elem_of_cons. by left.
Defined.

(** ** The label table *)

Lemma until_eof_length (ts : list Token) : (length (until_eof ts) <= length ts)%nat.
Proof. induction ts as [|t ts IH]; cbn; [lia|]. destruct (decide _); cbn; lia. Qed.

Section LabelTable.

Variable Insts : gmap string Inst.

(** The labels after the scan are those before it and those the tokens up
    to the end marker declare, each declared once. *)
Lemma preproc_scan_labels (ts : list Token) (c c' : Compiler) :
  preproc_scan Insts ts c = Ok c' ->
  NoDup (label_names (until_eof ts)) /\
  (forall L, L ∈ label_names (until_eof ts) -> labels c !! L = None) /\
  (forall L, is_Some (labels c' !! L) <->
             is_Some (labels c !! L) \/ L ∈ label_names (until_eof ts)).
Proof.
  revert c. induction ts as [|t ts IH]; intros c H; cbn in H.
  { inversion H; subst c'. cbn. split_and!; [constructor|by intros ? ?%elem_of_nil|].
    intros L. rewrite elem_of_nil. tauto. }
  cbn [until_eof]. destruct (decide (token.Type_ t = token.EOF)) as [E|E].
  { rewrite E in H. inversion H; subst c'. cbn.
    split_and!; [constructor|by intros ? ?%elem_of_nil|].
    intros L. rewrite elem_of_nil. tauto. }
  rewrite label_names_cons.
  destruct (token.Type_ t) eqn:Et; try done;
    try (rewrite decide_False by done; by apply IH in H).
  - rewrite decide_False by done.
    destruct (decide (is_Some (Insts !! token.Data t))); by apply IH in H.
  - rewrite decide_True by done.
    destruct (decide (is_Some _)) as [|Hn]; [done|].
    apply IH in H as (Hnd & Hfresh & Hdom). cbn in Hfresh, Hdom.
    assert (token.Data t ∉ label_names (until_eof ts)) as Hnot.
    { intros Hin. specialize (Hfresh _ Hin). by rewrite lookup_insert_eq in Hfresh. }
    split_and!.
    + by apply NoDup_cons.
    + intros L [->|Hin]%elem_of_cons; [by apply eq_None_not_Some|].
      specialize (Hfresh _ Hin).
      rewrite lookup_insert_ne in Hfresh; [done|]. by intros <-.
    + intros L. rewrite Hdom, elem_of_cons.
      destruct (decide (token.Data t = L)) as [->|Hne].
      * rewrite lookup_insert_eq. split; [by intros _; right; left|by intros _; left].
      * rewrite lookup_insert_ne by done. split; [tauto|].
        intros [?|[?|?]]; [tauto|congruence|tauto].
Qed.

(** The slot counter only grows, and no label lies beyond it. *)
Lemma preproc_scan_bounds (ts : list Token) (c c' : Compiler) :
  preproc_scan Insts ts c = Ok c' ->
  0 <= pos c -> pos c + Z.of_nat (length ts) < 2 ^ 64 ->
  (forall L a, labels c !! L = Some a -> 0 <= a <= pos c) ->
  pos c <= pos c' /\ (forall L a, labels c' !! L = Some a -> 0 <= a <= pos c').
Proof.
  revert c. induction ts as [|t ts IH]; intros c H Hp Hlen Hl; cbn in H.
  { inversion H; subst c'. cbn. split; [lia|done]. }
  cbn [length] in Hlen.
  destruct (token.Type_ t) eqn:Et; try done;
    try (inversion H; subst c'; cbn; split; [lia|done]);
    try (apply IH in H; [exact H|cbn; lia..|done]).
  - destruct (decide (is_Some (Insts !! token.Data t))).
    + apply IH in H; cbn in *; rewrite ?wrap64_small in * by lia.
      * split; [lia|apply H].
      * lia.
      * lia.
      * intros L a HL. specialize (Hl _ _ HL). lia.
    + apply IH in H; [exact H|cbn; lia..|done].
  - destruct (decide (is_Some _)); [done|].
    apply IH in H; [exact H|cbn; lia..|]. cbn. intros L a.
    destruct (decide (token.Data t = L)) as [->|Hne].
    + rewrite lookup_insert_eq. intros [= <-]. lia.
    + rewrite lookup_insert_ne by done. apply Hl.
Qed.

(** The labels of a preprocessed state are the declared ones. *)
Lemma preproc_labels_dom (ts : list Token) (c : Compiler) :
  preproc Insts (New ts) = Ok c ->
  forall L, is_Some (labels c !! L) <-> L ∈ label_names (until_eof ts).
Proof.
  intros H. destruct (preproc_Ok Insts ts c H) as (_ & _ & _ & _ & _ & _ & _ & _ & c1 & Hs & L1).
  destruct (preproc_scan_labels ts _ _ Hs) as (_ & _ & Hdom).
  intros L. rewrite L1, Hdom. cbn. rewrite lookup_empty. split; [|tauto].
  intros [[? ?]|?]; done.
Qed.

(** The program size is the number of instruction words: the counter does
    not wrap around. *)
Lemma preproc_programSize (ts : list Token) (c : Compiler) :
  Z.of_nat (length ts) < 2 ^ 64 ->
  preproc Insts (New ts) = Ok c ->
  programSize c = slots Insts (until_eof ts).
Proof.
  intros Hlen H. destruct (preproc_Ok Insts ts c H) as (_ & _ & PS & _).
  rewrite PS. apply wrap64_small. pose proof (slots_nonneg Insts (until_eof ts)).
  pose proof (slots_le Insts (until_eof ts)). pose proof (until_eof_length ts). lia.
Qed.

(** No label is bound beyond the program size. *)
Lemma preproc_label_range (ts : list Token) (c : Compiler) :
  Z.of_nat (length ts) < 2 ^ 64 ->
  preproc Insts (New ts) = Ok c ->
  forall L a, labels c !! L = Some a -> 0 <= a <= programSize c.
Proof.
  intros Hlen H.
  destruct (preproc_Ok Insts ts c H) as (_ & _ & _ & _ & _ & _ & _ & _ & c1 & Hs & L1).
  assert (programSize c = pos c1) as PS'.
  { revert H. unfold preproc. cbn [l New]. rewrite Hs. cbn.
    destruct (labels c1 !! "entry"%string); [|done]. by intros [= <-]. }
  pose proof (preproc_scan_bounds ts _ _ Hs ltac:(cbn; lia) ltac:(cbn; lia)
                ltac:(by intros ? ?)) as (_ & Hb).
  intros L a. rewrite L1, PS'. apply Hb.
Qed.

(** X6. What the preprocessing pass hands to the compile pass: the tokens
    before the first end marker, in their order, without the label
    declarations and with the end marker after them; the number of
    instruction words among them as the program size; and empty variables,
    memory and program. *)
Theorem preproc_output (ts : list Token) (c : Compiler) :
  preproc Insts (New ts) = Ok c ->
  toks c = kept (until_eof ts) ++ [tok c] /\
  token.Type_ (tok c) = token.EOF /\
  Forall (fun t => token.Type_ t <> token.EOF /\ token.Type_ t <> token.Label)
         (kept (until_eof ts)) /\
  programSize c = wrap64 (slots Insts (until_eof ts)) /\
  labels c !! "entry"%string = Some (entryPoint c) /\
  vars c = ∅ /\ memory c = [] /\ memorySize c = 0 /\ program c = [].
Proof.
  intros H. destruct (preproc_Ok Insts ts c H) as (T & K & PS & EP & V & M & MS & P & _).
  split_and!; try done.
  pose proof (until_eof_no_eof ts) as Hne. rewrite Forall_forall in Hne |- *.
  intros t Ht. unfold kept in Ht. apply list_elem_of_filter in Ht as [Hl Ht]. auto.
Qed.

(** X7. After a successful preprocessing pass the label table holds exactly
    the names that the tokens before the end marker declare, each of them
    declared once and [entry] among them, and a label is bound to the
    number of instruction words before its declaration. *)
Theorem label_table (ts : list Token) (c : Compiler) :
  preproc Insts (New ts) = Ok c ->
  NoDup (label_names (until_eof ts)) /\
  "entry"%string ∈ label_names (until_eof ts) /\
  (forall L, is_Some (labels c !! L) <-> L ∈ label_names (until_eof ts)) /\
  (forall pre lab post,
      ts = pre ++ lab :: post ->
      Forall (fun t => token.Type_ t <> token.EOF) pre ->
      token.Type_ lab = token.Label ->
      labels c !! token.Data lab = Some (wrap64 (slots Insts pre))).
Proof.
  intros H. destruct (preproc_Ok Insts ts c H) as (_ & _ & _ & EP & _ & _ & _ & _ & c1 & Hs & L1).
  destruct (preproc_scan_labels ts _ _ Hs) as (Hnd & _ & _).
  pose proof (preproc_labels_dom ts c H) as Hdom.
  split_and!; [done| |done|].
  - apply Hdom. by rewrite EP.
  - intros pre lab post -> Hpre Kl. rewrite L1.
    apply (preproc_scan_label Insts pre post lab) in Hs; done.
Qed.

(** X8. For a token stream of a length a Go slice can have, the program
    size is the number of instruction words before the end marker, and no
    label, the entry point in particular, is bound beyond it; a label
    declared after the last instruction is bound to the program size
    itself. *)
Theorem label_bounds (ts : list Token) (c : Compiler) :
  Z.of_nat (length ts) < 2 ^ 64 ->
  preproc Insts (New ts) = Ok c ->
  programSize c = slots Insts (until_eof ts) /\
  (forall L a, labels c !! L = Some a -> 0 <= a <= programSize c) /\
  0 <= entryPoint c <= programSize c /\
  (forall pre lab post,
      ts = pre ++ lab :: post ->
      Forall (fun t => token.Type_ t <> token.EOF) (pre ++ post) ->
      token.Type_ lab = token.Label ->
      Forall (fun t => ~ (token.Type_ t = token.Word /\ is_Some (Insts !! token.Data t))) post ->
      labels c !! token.Data lab = Some (programSize c)).
Proof.
  intros Hlen H.
  destruct (preproc_Ok Insts ts c H) as (_ & _ & _ & EP & _ & _ & _ & _ & c1 & Hs & L1).
  pose proof (preproc_label_range ts c Hlen H) as Hall.
  pose proof (preproc_programSize ts c Hlen H) as PS.
  split; [done|]. split; [done|]. split; [by apply (Hall _ _ EP)|].
  intros pre lab post -> [Hpre Hpost]%Forall_app Kl Hno. rewrite L1.
  rewrite (preproc_scan_label Insts pre post lab _ _ Hs Hpre Kl) by (cbn; lia).
  cbn [pos New]. rewrite Z.add_0_l. f_equal. rewrite PS.
  rewrite until_eof_id.
  2:{ apply Forall_app. split; [done|]. constructor; [by rewrite Kl|done]. }
  rewrite slots_app, slots_cons, decide_False by (rewrite Kl; by intros [? _]).
  assert (slots Insts post = 0) as ->.
  { clear -Hno. induction Hno as [|t post Ht _ IH]; [done|].
    rewrite slots_cons, decide_False by done. lia. }
  rewrite !Z.add_0_r.
  apply wrap64_small. pose proof (slots_nonneg Insts pre). pose proof (slots_le Insts pre).
  rewrite length_app in Hlen. lia.
Qed.

End LabelTable.

Lemma preproc_output_witness :
  toks (state_of (preproc SampleInsts (New jump_program)))
    = kept (until_eof jump_program) ++ [tok (state_of (preproc SampleInsts (New jump_program)))] /\
  programSize (state_of (preproc SampleInsts (New jump_program))) = 3.
Proof.
  destruct (preproc_output SampleInsts jump_program
              (state_of (preproc SampleInsts (New jump_program))))
    as (T & _ & _ & PS & _); [vm_compute; reflexivity|].
  split; [exact T|]. rewrite PS. vm_compute. reflexivity.
Defined.

Lemma label_table_witness :
  labels (state_of (preproc SampleInsts (New jump_program))) !! "L"%string = Some 2 /\
  (is_Some (labels (state_of (preproc SampleInsts (New jump_program))) !! "M"%string)
   <-> "M"%string ∈ label_names (until_eof jump_program)).
Proof.
  destruct (label_table SampleInsts jump_program
              (state_of (preproc SampleInsts (New jump_program))))
    as (_ & _ & Hdom & Hval); [vm_compute; reflexivity|].
  split; [|apply Hdom].
  apply (Hval [Tok token.Word "jmp"; Tok token.Addr "L"; Tok token.Label "entry";
               Tok token.Word "halt"] (Tok token.Label "L") [Tok token.Word "halt"]).
  - reflexivity.
  - repeat constructor; discriminate.
  - reflexivity.
Defined.

Lemma label_bounds_witness :
  programSize (state_of (preproc SampleInsts (New late_entry_program))) = 1 /\
  0 <= entryPoint (state_of (preproc SampleInsts (New late_entry_program)))
    <= programSize (state_of (preproc SampleInsts (New late_entry_program))) /\
  labels (state_of (preproc SampleInsts (New late_entry_program))) !! "entry"%string
    = Some (programSize (state_of (preproc SampleInsts (New late_entry_program)))).
Proof.
  destruct (label_bounds SampleInsts late_entry_program
              (state_of (preproc SampleInsts (New late_entry_program))))
    as (PS & _ & B & Last); [vm_compute; reflexivity | vm_compute; reflexivity|].
  split; [rewrite PS; vm_compute; reflexivity|]. split; [exact B|].
  apply (Last [Tok token.Word "halt"] (Tok token.Label "entry") []).
  - reflexivity.
  - repeat constructor; discriminate.
  - reflexivity.
  - constructor.
Defined.

(** ** The header and the regions *)

Section WholePass.

Variable Insts : gmap string Inst.

(** A loop that returns has gone from state to state and stopped on the
    end marker. *)
Lemma compile_loop_Ok (fuel : nat) (c c' : Compiler) :
  compile_loop Insts fuel c = Ok c' ->
  visits Insts c c' /\ token.Type_ (tok c') = token.EOF.
Proof.
  revert c. induction fuel as [|fuel IH]; intros c H; cbn in H.
  - destruct (decide _) as [E|]; [|done]. inversion H; subst. split; [apply rtc_refl|done].
  - destruct (decide _) as [E|Hne].
    { inversion H; subst. split; [apply rtc_refl|done]. }
    inv_bind H. apply IH in H as [Hv K]. split; [|done].
    eapply rtc_l; [|exact Hv]. by split.
Qed.

(** An assembly whose passes succeed ends in a state the loop reaches, with
    the cursor on the end marker. *)
Lemma assembled_reaches (ts : list Token) (c : Compiler) :
  preproc Insts (New ts) ≫= compile Insts = Ok c ->
  reaches Insts ts c /\ token.Type_ (tok c) = token.EOF.
Proof.
  intros H. inv_bind H. unfold compile in H. inv_bind H.
  apply compile_loop_Ok in H as [Hv K]. split; [|done].
  exists c1. split; [|done]. unfold start_state. rewrite E. cbn. exact E0.
Qed.

Lemma slots_take_le (ts : list Token) (p q : nat) :
  (p <= q)%nat -> slots Insts (take p ts) <= slots Insts (take q ts).
Proof.
  intros H. replace q with (p + (q - p))%nat by lia.
  rewrite <- take_take_drop, slots_app.
  pose proof (slots_nonneg Insts (take (q - p) (drop p ts))). lia.
Qed.

(** The program region never holds more records than the cursor has passed
    instruction words. *)
Lemma visits_program_le (c c' : Compiler) :
  wf c -> visits Insts c c' ->
  Z.of_nat (length (program c)) <= 9 * slots Insts (take (Z.to_nat (pos c)) (toks c)) ->
  Z.of_nat (length (program c')) <= 9 * slots Insts (take (Z.to_nat (pos c')) (toks c')).
Proof.
  intros Hwf Hv. induction Hv as [c|c c1 c2 [Hne Hb] _ IH]; [done|].
  intros Hinv. pose proof Hb as Hb'.
  apply compile_body_Ok in Hb' as ((T&_) & Hwf1 & Hp); [|done..].
  apply IH; [done|]. rewrite T.
  pose proof (cur_pos c (proj1 Hwf)) as Hp0.
  pose proof (cur_tok c (proj1 Hwf)) as Hk.
  apply compile_body_inv in Hb as (t0 & Ht0 & [[K H]|[K H]]);
    rewrite Hk in Ht0; inversion Ht0; subst t0.
  - apply compileInst_tokens in H as (Hi & L & _); [|done..].
    pose proof (slots_take_le (toks c) (S (Z.to_nat (pos c))) (Z.to_nat (pos c1)) ltac:(lia)) as Hle.
    rewrite (slots_take_S _ _ _ _ Hk), decide_True in Hle by done. lia.
  - apply compileLet_Ok in H as (_ & _ & _ & P & _); [|done|by rewrite K].
    pose proof (slots_take_le (toks c) (Z.to_nat (pos c)) (Z.to_nat (pos c1)) ltac:(lia)).
    rewrite P. lia.
Qed.

(** X9. When both passes succeed on a token stream of a length a Go slice
    can have, the header agrees with the regions: [memorySize] is the
    length of the memory region (as a [Word]), and the program region is a
    whole number of nine-byte records, at most [programSize] of them, and
    exactly [programSize] when no [let] names its variable like an
    instruction. *)
Theorem header_matches_regions (ts : list Token) (c : Compiler) :
  Z.of_nat (length ts) < 2 ^ 63 ->
  preproc Insts (New ts) ≫= compile Insts = Ok c ->
  memorySize c = wrap64 (Z.of_nat (length (memory c))) /\
  programSize c = slots Insts (until_eof ts) /\
  Z.of_nat (length (program c)) <= 9 * programSize c /\
  (names_apart Insts (toks c) -> Z.of_nat (length (program c)) = 9 * programSize c).
Proof.
  intros Hlen H. destruct (assembled_reaches ts c H) as [Hr K].
  destruct (reaches_wf Insts ts c ltac:(lia) Hr) as ([Hc Hm] & (e & Ke & T) & (c1 & Hp & S)).
  pose proof (preproc_programSize Insts ts c1 ltac:(lia) Hp) as PS.
  destruct S as (_ & _ & PS' & _). rewrite PS' , PS.
  (* the cursor is on the last token *)
  assert (Z.to_nat (pos c) = length (kept (until_eof ts))) as Hpos.
  { pose proof (proj1 (cur_eof c Hc _ _ (cur_tok c Hc)) K) as HS.
    rewrite T, length_app in HS. cbn in HS. lia. }
  assert (slots Insts (take (Z.to_nat (pos c)) (toks c)) = slots Insts (until_eof ts)) as Hs.
  { rewrite Hpos, T, take_app_length. apply slots_kept. }
  destruct Hr as (c0 & Hs0 & Hv).
  destruct (start_state_wf Insts ts c0 ltac:(lia) Hs0) as (Hwf0 & P0 & _ & _ & Pr0 & _ & _).
  destruct (visits_wf Insts c0 c Hwf0 Hv) as (_ & (T0 & _) & _).
  split_and!; [done|done| |].
  - rewrite <- Hs. apply (visits_program_le c0 c Hwf0 Hv). rewrite P0, Pr0. cbn.
    unfold slots. cbn. lia.
  - intros Hna. rewrite <- Hs.
    apply (visits_program Insts c0 c Hwf0); [by rewrite <- T0|done|by rewrite P0, Pr0].
Qed.

End WholePass.

Lemma let_program_names_apart :
  names_apart SampleInsts (toks (state_of (preproc SampleInsts (New let_program) ≫= compile SampleInsts))).
Proof.
  intros i t t' Hi K Hi' K'.
  vm_compute in Hi. vm_compute in Hi'.
  destruct i as [|[|[|[|[|[|[|[|[|[|i]]]]]]]]]]; cbn in Hi; inversion Hi; subst t; try discriminate.
  cbn in Hi'. inversion Hi'; subst t'. vm_compute. reflexivity.
Qed.

Lemma header_matches_regions_witness :
  memorySize (state_of (preproc SampleInsts (New let_program) ≫= compile SampleInsts))
    = wrap64 (Z.of_nat (length (memory (state_of
        (preproc SampleInsts (New let_program) ≫= compile SampleInsts))))) /\
  Z.of_nat (length (program (state_of
        (preproc SampleInsts (New let_program) ≫= compile SampleInsts))))
    = 9 * programSize (state_of (preproc SampleInsts (New let_program) ≫= compile SampleInsts)) /\
  Z.of_nat (length (program (state_of
        (preproc SampleInsts (New clash_program) ≫= compile SampleInsts))))
    <= 9 * programSize (state_of (preproc SampleInsts (New clash_program) ≫= compile SampleInsts)).
Proof.
  destruct (header_matches_regions SampleInsts let_program
              (state_of (preproc SampleInsts (New let_program) ≫= compile SampleInsts)))
    as (M & _ & _ & P); [vm_compute; reflexivity | vm_compute; reflexivity|].
  destruct (header_matches_regions SampleInsts clash_program
              (state_of (preproc SampleInsts (New clash_program) ≫= compile SampleInsts)))
    as (_ & _ & L & _); [vm_compute; reflexivity | vm_compute; reflexivity|].
  split; [exact M|]. split; [|exact L]. apply P. exact let_program_names_apart.
Defined.

(** In [let halt sz8 1  entry: halt] the variable is named like an
    instruction: the header announces two instructions, the program region
    holds one record. *)
Remark clash_program_header :
  let c := state_of (preproc SampleInsts (New clash_program) ≫= compile SampleInsts) in
  preproc SampleInsts (New clash_program) ≫= compile SampleInsts = Ok c /\
    programSize c = 2 /\ length (program c) = 9%nat /\ entryPoint c = 1.
Proof. vm_compute. repeat split; reflexivity. Qed.

(** ** What the compile pass leaves alone *)

#[global] Instance data_grows_refl : Reflexive data_grows.
Proof. intros c. unfold data_grows. split_and!; reflexivity. Qed.

#[global] Instance data_grows_trans : Transitive data_grows.
Proof.
  intros a b c (?&?&?&?) (?&?&?&?). unfold data_grows.
  split_and!; [by etrans|congruence|congruence|by etrans].
Qed.

#[global] Instance grows_refl : Reflexive grows.
Proof. intros c. unfold grows. split_and!; reflexivity. Qed.

#[global] Instance grows_trans : Transitive grows.
Proof.
  intros a b c (?&?&?&?) (?&?&?&?). unfold grows. split_and!; by etrans.
Qed.

Lemma data_grows_grows (c c' : Compiler) : data_grows c c' -> grows c c'.
Proof. intros (?&V&P&?). unfold grows. rewrite V, P. split_and!; done. Qed.

(** [next] writes the cursor only. *)
Lemma next_shape (c c' : Compiler) :
  next c = Ok c' -> c' = c \/ exists t p, c' = set_tok t (set_pos p c).
Proof.
  unfold next. destruct (decide _); [intros [= <-]; by left|].
  destruct (toks c !! _) as [t|]; [|done]. intros [= <-]. right. eauto.
Qed.

Lemma next_data_grows (c c' : Compiler) : next c = Ok c' -> data_grows c c'.
Proof. intros [->|(t & p & ->)]%next_shape; [reflexivity|]. unfold data_grows, same_tables. done. Qed.

Lemma writeRunes_data_grows (rs : list Z) (size : Z) (c c' : Compiler) :
  writeRunes rs size c = Ok c' -> data_grows c c'.
Proof.
  revert c. induction rs as [|r rs IH]; intros c H; cbn in H.
  { inversion H; subst. reflexivity. }
  inv_bind H. apply writeMemory_Ok in E as (n & -> & ->). apply IH in H.
  etrans; [|exact H]. unfold data_grows, same_tables. cbn.
  split_and!; try done. by apply prefix_app_r.
Qed.

Lemma compileLet_item_data_grows (size : Z) (c c' : Compiler) :
  compileLet_item size c = Ok c' -> data_grows c c'.
Proof.
  unfold compileLet_item. intros H.
  destruct (decide _); [by apply writeRunes_data_grows in H|].
  destruct (negb _); [done|]. inv_bind H. inv_bind H. inversion H; subst c'.
  apply writeMemory_Ok in E0 as (k & -> & ->).
  unfold data_grows, same_tables. cbn. split_and!; try done. by apply prefix_app_r.
Qed.

Lemma compileLet_items_data_grows (fuel : nat) (size : Z) (c c' : Compiler) :
  compileLet_items fuel size c = Ok c' -> data_grows c c'.
Proof.
  revert c. induction fuel as [|fuel IH]; intros c H; cbn in H; [done|].
  inv_bind H. inv_bind H.
  apply compileLet_item_data_grows in E. apply next_data_grows in E0.
  destruct (decide _).
  { inversion H; subst. by etrans. }
  inv_bind H. apply next_data_grows in E1. apply IH in H.
  etrans; [exact E|]. etrans; [exact E0|]. by etrans.
Qed.

Section Growth.

Variable Insts : gmap string Inst.

Lemma compileLet_grows (c c' : Compiler) : compileLet c = Ok c' -> grows c c'.
Proof.
  unfold compileLet. intros H. inv_bind H.
  destruct (decide _); [done|]. destruct (decide _) as [|Hv]; [done|].
  destruct (decide _); [done|].
  inv_bind H. inv_bind H. inv_bind H.
  apply next_data_grows in E, E0, E2. apply compileLet_items_data_grows in H.
  pose proof (transitivity E0 (transitivity E2 H)) as D.
  apply data_grows_grows in E, D. etrans; [exact E|]. etrans; [|exact D].
  unfold grows, same_tables. cbn. split_and!; try done.
  apply insert_subseteq. by apply eq_None_not_Some.
Qed.

Lemma compileInst_grows (c c' : Compiler) : compileInst Insts c = Ok c' -> grows c c'.
Proof.
  unfold compileInst. intros H. destruct (Insts !! _) as [inst|]; [|done].
  inv_bind H. apply next_data_grows, data_grows_grows in E.
  assert (forall op data c, grows c (writeInst op data c)) as Hw.
  { intros. unfold grows, same_tables, writeInst. cbn. split_and!; try done.
    by apply prefix_app_r. }
  destruct (negb (token.IsArg _)).
  { destruct (HasArg inst); [done|]. inversion H; subst. etrans; [exact E|apply Hw]. }
  destruct (negb (HasArg inst)); [done|]. cbn in H.
  inv_bind H. inv_bind H. inversion H; subst.
  apply next_data_grows, data_grows_grows in E1.
  etrans; [exact E|]. etrans; [exact E1|apply Hw].
Qed.

Lemma compile_body_grows (c c' : Compiler) : compile_body Insts c = Ok c' -> grows c c'.
Proof.
  intros H. apply compile_body_inv in H as (t & _ & [[_ H]|[_ H]]).
  - by apply compileInst_grows.
  - by apply compileLet_grows.
Qed.

Lemma compile_loop_grows (fuel : nat) (c c' : Compiler) :
  compile_loop Insts fuel c = Ok c' -> grows c c'.
Proof.
  revert c. induction fuel as [|fuel IH]; intros c H; cbn in H.
  - destruct (decide _); [|done]. inversion H; subst. reflexivity.
  - destruct (decide _); [inversion H; subst; reflexivity|].
    inv_bind H. apply compile_body_grows in E. apply IH in H. by etrans.
Qed.

Lemma visits_grows (c c' : Compiler) : visits Insts c c' -> grows c c'.
Proof.
  induction 1 as [c|c c1 c2 [_ Hb] _ IH]; [reflexivity|].
  apply compile_body_grows in Hb. by etrans.
Qed.

(** X10. The compile pass only adds: when it returns, the token list, the
    labels, the program size and the entry point are those it was given,
    the memory and program regions are the earlier ones with bytes appended,
    and every variable that was bound is still bound to the same address. *)
Theorem compile_only_appends (c c' : Compiler) :
  compile Insts c = Ok c' ->
  toks c' = toks c /\ labels c' = labels c /\
  programSize c' = programSize c /\ entryPoint c' = entryPoint c /\
  (exists bs, memory c' = memory c ++ bs) /\
  (exists bs, program c' = program c ++ bs) /\
  (forall v a, vars c !! v = Some a -> vars c' !! v = Some a).
Proof.
  unfold compile, compile_start. intros H. inv_bind H.
  destruct (toks _ !! _) as [t|] eqn:Et; [|done]. inversion E; subst c0. clear E.
  apply compile_loop_grows in H as ((T & L & PS & EP) & M & P & V).
  cbn in *. split_and!; try done.
  intros v a Hv. by apply (lookup_weaken _ _ _ _ Hv).
Qed.

End Growth.

Lemma compile_only_appends_witness :
  exists bs, memory (state_of (compile SampleInsts (state_of (preproc SampleInsts (New let_program)))))
             = memory (state_of (preproc SampleInsts (New let_program))) ++ bs.
Proof.
  apply (compile_only_appends SampleInsts (state_of (preproc SampleInsts (New let_program)))
           (state_of (compile SampleInsts (state_of (preproc SampleInsts (New let_program)))))).
  vm_compute. reflexivity.
Defined.

(** ** The variable table *)

Section VariableTable.

Variable Insts : gmap string Inst.

Lemma visits_vars_labels (c c' : Compiler) :
  wf c -> visits Insts c c' ->
  (forall v, is_Some (vars c !! v) -> labels c !! v = None) ->
  forall v, is_Some (vars c' !! v) -> labels c' !! v = None.
Proof.
  intros Hwf Hv. induction Hv as [c|c c1 c2 [Hne Hb] _ IH]; [done|].
  intros Hinv. pose proof Hb as Hb'.
  apply compile_body_Ok in Hb' as ((_ & L & _) & Hwf1 & _); [|done..].
  apply IH; [done|]. intros v. rewrite L.
  apply compile_body_inv in Hb as (t0 & _ & [[_ H]|[_ H]]).
  - apply compileInst_Ok in H as (_ & _ & _ & V & _); [|done..]. rewrite V. apply Hinv.
  - apply compileLet_Ok in H as (_ & _ & _ & _ & t & _ & _ & _ & Hl & V); [|done..].
    rewrite V. destruct (decide (token.Data t = v)) as [<-|Hd]; [done|].
    rewrite lookup_insert_ne by done. apply Hinv.
Qed.

(** X11. No name is both a variable and a label: in every state the compile
    loop comes to, a name that is bound as a variable is not in the label
    table, and no label declaration of the whole token stream, before or
    after the [let], has this name. *)
Theorem variables_not_labels (ts : list Token) (c : Compiler) :
  Z.of_nat (length ts) < 2 ^ 63 -> reaches Insts ts c ->
  forall v, is_Some (vars c !! v) ->
    labels c !! v = None /\ v ∉ label_names (until_eof ts).
Proof.
  intros Hlen Hr v Hv.
  destruct (reaches_wf Insts ts c Hlen Hr) as (_ & _ & c1 & Hp & (_ & L & _)).
  destruct Hr as (c0 & Hs & Hvis).
  destruct (start_state_wf Insts ts c0 Hlen Hs) as (Hwf0 & _ & V0 & _).
  assert (labels c !! v = None) as Hnone.
  { apply (visits_vars_labels c0 c Hwf0 Hvis); [|done].
    intros v'. rewrite V0, lookup_empty. by intros [? ?]. }
  split; [done|]. intros Hin.
  apply (preproc_labels_dom Insts ts c1 Hp) in Hin. rewrite <- L, Hnone in Hin. by destruct Hin.
Qed.

Lemma visits_addresses (c c' : Compiler) :
  wf c -> visits Insts c c' ->
  (forall v a, vars c !! v = Some a ->
     exists k : nat, (k <= length (memory c))%nat /\ a = wrap64 (Z.of_nat k + 1)) ->
  forall v a, vars c' !! v = Some a ->
     exists k : nat, (k <= length (memory c'))%nat /\ a = wrap64 (Z.of_nat k + 1).
Proof.
  intros Hwf Hv. induction Hv as [c|c c1 c2 [Hne Hb] _ IH]; [done|].
  intros Hinv. pose proof Hb as Hb'.
  apply compile_body_Ok in Hb' as (_ & Hwf1 & _); [|done..].
  apply IH; [done|]. intros v a.
  pose proof (compile_body_grows Insts _ _ Hb) as (_ & M%prefix_length & _).
  apply compile_body_inv in Hb as (t0 & _ & [[_ H]|[_ H]]).
  - apply compileInst_Ok in H as (_ & _ & _ & V & _); [|done..]. rewrite V.
    intros (k & Hk & ->)%Hinv. exists k. split; [lia|done].
  - apply compileLet_Ok in H as (_ & _ & _ & _ & t & _ & _ & _ & _ & V); [|done..].
    rewrite V. destruct (decide (token.Data t = v)) as [<-|Hd].
    + rewrite lookup_insert_eq. intros [= <-]. exists (length (memory c)).
      split; [lia|]. rewrite (proj2 Hwf). apply wrap64_succ.
    + rewrite lookup_insert_ne by done.
      intros (k & Hk & ->)%Hinv. exists k. split; [lia|done].
Qed.

(** X12. A variable's address points into the data written so far, counted
    from one: in every state the compile loop comes to, a variable is bound
    to one more (as a [Word]) than a length the memory region has had, so
    to a number between 1 and the length of the region plus one when this
    fits a [Word]. *)
Theorem variable_addresses (ts : list Token) (c : Compiler) (v : string) (a : Z) :
  Z.of_nat (length ts) < 2 ^ 63 -> reaches Insts ts c ->
  vars c !! v = Some a ->
  (exists k : nat, (k <= length (memory c))%nat /\ a = wrap64 (Z.of_nat k + 1)) /\
  (Z.of_nat (length (memory c)) + 1 < 2 ^ 64 ->
   1 <= a <= Z.of_nat (length (memory c)) + 1).
Proof.
  intros Hlen (c0 & Hs & Hvis) Hv.
  destruct (start_state_wf Insts ts c0 Hlen Hs) as (Hwf0 & _ & V0 & _).
  assert (exists k : nat, (k <= length (memory c))%nat /\ a = wrap64 (Z.of_nat k + 1))
    as (k & Hk & ->).
  { apply (visits_addresses c0 c Hwf0 Hvis) with v; [|done].
    intros v' a'. by rewrite V0, lookup_empty. }
  split; [by exists k|]. intros Hm. rewrite wrap64_small by lia. lia.
Qed.

End VariableTable.

Lemma variables_not_labels_witness :
  labels (state_of (preproc SampleInsts (New let_program) ≫= compile SampleInsts))
    !! "x"%string = None /\
  "x"%string ∉ label_names (until_eof let_program).
Proof.
  apply (variables_not_labels SampleInsts let_program
           (state_of (preproc SampleInsts (New let_program) ≫= compile SampleInsts))).
  - vm_compute. reflexivity.
  - apply assembled_reaches. vm_compute. reflexivity.
  - vm_compute. eexists. reflexivity.
Defined.

Lemma variable_addresses_witness :
  (exists k : nat,
     (k <= length (memory (state_of
        (preproc SampleInsts (New two_lets_program) ≫= compile SampleInsts))))%nat /\
     3 = wrap64 (Z.of_nat k + 1)) /\
  (Z.of_nat (length (memory (state_of
        (preproc SampleInsts (New two_lets_program) ≫= compile SampleInsts)))) + 1 < 2 ^ 64 ->
   1 <= 3 <= Z.of_nat (length (memory (state_of
        (preproc SampleInsts (New two_lets_program) ≫= compile SampleInsts)))) + 1).
Proof.
  apply (variable_addresses SampleInsts two_lets_program
           (state_of (preproc SampleInsts (New two_lets_program) ≫= compile SampleInsts))
           "b" 3).
  - vm_compute. reflexivity.
  - apply assembled_reaches. vm_compute. reflexivity.
  - vm_compute. reflexivity.
Defined.

(** A [let] whose name a later label declares is refused. *)
Remark label_clash_refused :
  preproc SampleInsts (New label_clash_program) ≫= compile SampleInsts
  = Err (At (token.mkWhere 0 0) (LabelAlreadyExists "x")).
Proof. vm_compute. reflexivity. Qed.

(** ** Termination and panics *)

Lemma bind_no_panic {A B : Type} (m : result A) (k : A -> result B) :
  (forall p, m <> Panic p) -> (forall a, m = Ok a -> forall p, k a <> Panic p) ->
  forall p, m ≫= k <> Panic p.
Proof.
  destruct m; cbn; intros H1 H2 q; try discriminate; [by apply H2|].
  intros _. by apply (H1 p).
Qed.

Lemma next_no_panic (c : Compiler) : cursor_ok c -> forall p, next c <> Panic p.
Proof. intros H p. by destruct (next_total c H) as [c' ->]. Qed.

Lemma argToWord_no_panic (c : Compiler) (t : Token) :
  payload_ok t -> forall p, argToWord c t <> Panic p.
Proof.
  unfold payload_ok, argToWord, parseWord. intros H p.
  destruct (token.Type_ t); try done.
  1-4: by destruct H as [? ->].
  - destruct (token.Data t) as [|a [|b s]]; done.
  - by destruct H as [? ->].
  - repeat case_match; done.
Qed.

Lemma writeMemory_no_panic (data size : Z) (c : Compiler) p : writeMemory data size c <> Panic p.
Proof. unfold writeMemory. repeat case_match; discriminate. Qed.

Lemma writeRunes_no_panic (rs : list Z) (size : Z) (c : Compiler) p :
  writeRunes rs size c <> Panic p.
Proof.
  revert c p. induction rs as [|r rs IH]; intros c; cbn; [discriminate|].
  apply bind_no_panic; [intros; apply writeMemory_no_panic | intros; apply IH].
Qed.

Lemma compileLet_item_no_panic (size : Z) (c : Compiler) :
  payload_ok (tok c) -> forall p, compileLet_item size c <> Panic p.
Proof.
  intros H. unfold compileLet_item.
  destruct (decide _); [intros; apply writeRunes_no_panic|].
  destruct (negb _); [done|].
  apply bind_no_panic; [by apply argToWord_no_panic|]. intros.
  apply bind_no_panic; [intros; apply writeMemory_no_panic|]. done.
Qed.

(** The token under the cursor is one of the token list. *)
Lemma cursor_payload (c : Compiler) :
  cursor_ok c -> Forall payload_ok (toks c) -> payload_ok (tok c).
Proof.
  intros Hc Hf. rewrite Forall_lookup in Hf. apply (Hf _ _ (cur_tok c Hc)).
Qed.

Lemma compileLet_items_no_panic (fuel : nat) (size : Z) (c : Compiler) :
  wf c -> Forall payload_ok (toks c) -> forall p, compileLet_items fuel size c <> Panic p.
Proof.
  revert c. induction fuel as [|fuel IH]; intros c Hwf Hf; [done|]. cbn.
  apply bind_no_panic; [apply compileLet_item_no_panic, cursor_payload; (done || apply Hwf)|].
  intros c1 E1. apply compileLet_item_Ok in E1 as (((T1&_) & _ & _ & _ & Hwf1) & _ & _); [|done].
  apply bind_no_panic; [apply next_no_panic, Hwf1|]. intros c2 E2.
  pose proof (next_data_step _ _ Hwf1 E2) as ((T2&_)&_&_&_&Hwf2).
  destruct (decide _); [done|].
  apply bind_no_panic; [apply next_no_panic, Hwf2|]. intros c3 E3.
  pose proof (next_data_step _ _ Hwf2 E3) as ((T3&_)&_&_&_&Hwf3).
  apply IH; [done|]. by rewrite T3, T2, T1.
Qed.

Section NoPanic.

Variable Insts : gmap string Inst.

Lemma compileLet_no_panic (c : Compiler) :
  wf c -> Forall payload_ok (toks c) -> forall p, compileLet c <> Panic p.
Proof.
  intros Hwf Hf. unfold compileLet.
  apply bind_no_panic; [apply next_no_panic, Hwf|].
  intros c1 E1. pose proof (next_data_step _ _ Hwf E1) as ((T1&_)&_&_&_&Hwf1).
  repeat (destruct (decide _); [done|]).
  set (c2 := set_vars _ c1).
  assert (wf c2) as Hwf2 by by apply wf_set_vars.
  apply bind_no_panic; [apply next_no_panic, Hwf2|].
  intros c3 E3. pose proof (next_data_step _ _ Hwf2 E3) as ((T3&_)&_&_&_&Hwf3).
  apply bind_no_panic; [intros; repeat case_match; discriminate|]. intros size _.
  apply bind_no_panic; [apply next_no_panic, Hwf3|].
  intros c4 E4. pose proof (next_data_step _ _ Hwf3 E4) as ((T4&_)&_&_&_&Hwf4).
  apply compileLet_items_no_panic; [done|]. rewrite T4, T3. cbn. by rewrite T1.
Qed.

Lemma compileInst_no_panic (c : Compiler) :
  wf c -> Forall payload_ok (toks c) -> forall p, compileInst Insts c <> Panic p.
Proof.
  intros Hwf Hf. unfold compileInst. destruct (Insts !! _) as [inst|]; [|done].
  apply bind_no_panic; [apply next_no_panic, Hwf|].
  intros c1 E1. pose proof (next_data_step _ _ Hwf E1) as ((T1&_)&_&_&_&Hwf1).
  destruct (negb (token.IsArg _)); [by destruct (HasArg inst)|].
  destruct (negb (HasArg inst)); [done|]. cbn.
  apply bind_no_panic.
  { apply argToWord_no_panic, cursor_payload; [apply Hwf1|by rewrite T1]. }
  intros data _. apply bind_no_panic; [apply next_no_panic, Hwf1|]. done.
Qed.

Lemma compile_body_no_panic (c : Compiler) :
  wf c -> Forall payload_ok (toks c) -> forall p, compile_body Insts c <> Panic p.
Proof.
  intros Hwf Hf p. unfold compile_body. rewrite (cur_tok c (proj1 Hwf)).
  destruct (token.Type_ (tok c)); try done.
  - by apply compileInst_no_panic.
  - by apply compileLet_no_panic.
Qed.

Lemma compile_loop_no_panic (fuel : nat) (c : Compiler) :
  wf c -> Forall payload_ok (toks c) -> forall p, compile_loop Insts fuel c <> Panic p.
Proof.
  revert c. induction fuel as [|fuel IH]; intros c Hwf Hf; cbn.
  { by destruct (decide _). }
  destruct (decide _) as [|Hne]; [done|].
  apply bind_no_panic; [by apply compile_body_no_panic|]. intros c1 E1.
  apply compile_body_Ok in E1 as ((T&_) & Hwf1 & _); [|done..].
  apply IH; [done|]. by rewrite T.
Qed.

Lemma preproc_scan_returns (ts : list Token) (c : Compiler) :
  returns (preproc_scan Insts ts c).
Proof.
  revert c. induction ts as [|t ts IH]; intros c; cbn; [done|].
  destruct (token.Type_ t); try done; try apply IH.
  destruct (decide _); [done|apply IH].
Qed.

Lemma kept_until_eof_payload (ts : list Token) :
  Forall payload_ok ts -> Forall payload_ok (kept (until_eof ts)).
Proof.
  intros H. apply Forall_forall. intros t Ht.
  unfold kept in Ht. apply list_elem_of_filter in Ht as [_ Ht].
  rewrite Forall_forall in H. apply H. clear H.
  induction ts as [|t0 ts IH]; cbn in Ht; [done|].
  destruct (decide _); [by apply elem_of_nil in Ht|].
  apply elem_of_cons in Ht as [->|Ht]; [by left|right; by apply IH].
Qed.

(** X13. The assembler always comes back, and it does not panic on what a
    correct lexer gives it.  For a token stream of a length a Go slice can
    have, the two passes end; when moreover every number payload parses in
    the base of its kind and every character payload is one byte, they
    return [nil] or an error: no index is out of range and no [panic] of
    [argToWord] is reached.  The same holds of [CompileToBinary]. *)
Theorem assembly_returns (ts : list Token) (path : string) (executable : bool) (w : os.World) :
  Z.of_nat (length ts) < 2 ^ 63 ->
  preproc Insts (New ts) ≫= compile Insts <> OutOfFuel /\
  (Forall payload_ok ts ->
   returns (preproc Insts (New ts) ≫= compile Insts) /\
   returns (CompileToBinary Insts (New ts) path executable w).1).
Proof.
  intros Hlen. pose proof (compile_total Insts ts Hlen) as Hfuel.
  split; [done|]. intros Hpay.
  assert (returns (preproc Insts (New ts) ≫= compile Insts)) as Hret.
  { destruct (preproc Insts (New ts)) as [c1| | |] eqn:Hp; try done.
    - destruct (start_state Insts ts) as [c0| | |] eqn:Hs.
      + rewrite <- Hp, (compile_from_start Insts ts c0 Hs).
        destruct (start_state_wf Insts ts c0 Hlen Hs) as (Hwf0 & _ & _ & _ & _ & (e & Ke & T) & _).
        assert (Forall payload_ok (toks c0)) as Hf.
        { rewrite T. apply Forall_app. split; [by apply kept_until_eof_payload|].
          constructor; [|done]. unfold payload_ok. by rewrite Ke. }
        pose proof (compile_loop_no_panic (length (toks c0)) c0 Hwf0 Hf) as Hnp.
        rewrite <- Hp, (compile_from_start Insts ts c0 Hs) in Hfuel.
        destruct (compile_loop Insts _ c0); try done. by destruct (Hnp p).
      + unfold start_state in Hs. rewrite Hp in Hs. cbn in Hs. unfold compile_start in Hs.
        by destruct (toks _ !! _).
      + unfold start_state in Hs. rewrite Hp in Hs. cbn in Hs. unfold compile_start in Hs.
        destruct (toks _ !! _) eqn:Et; [done|].
        destruct (preproc_Ok Insts ts c1 Hp) as (T & _). cbn in Et. rewrite T in Et.
        by destruct (kept (until_eof ts)).
      + unfold start_state in Hs. rewrite Hp in Hs. cbn in Hs. unfold compile_start in Hs.
        by destruct (toks _ !! _).
    - unfold preproc in Hp. cbn [l New] in Hp.
      pose proof (preproc_scan_returns ts (New ts)) as Hr.
      destruct (preproc_scan Insts ts (New ts)); try done. cbn in Hp.
      by destruct (labels _ !! _). }
  split; [done|].
  unfold CompileToBinary.
  destruct (preproc Insts (New ts)) as [c1| | |]; try done. cbn in Hret.
  destruct (compile Insts c1) as [c2| | |]; try done.
  destruct (os.Create path w); [|done].
  unfold writeImage. repeat case_match; done.
Qed.

End NoPanic.

Lemma assembly_returns_witness :
  preproc SampleInsts (New let_program) ≫= compile SampleInsts <> OutOfFuel /\
  returns (preproc SampleInsts (New let_program) ≫= compile SampleInsts) /\
  returns (CompileToBinary SampleInsts (New let_program) "a.out" true empty_world).1.
Proof.
  destruct (assembly_returns SampleInsts let_program "a.out" true empty_world) as [F R].
  - vm_compute. reflexivity.
  - split; [exact F|]. apply R.
    repeat constructor; vm_compute; eauto.
Defined.

(** Without the lexer's care a payload makes the assembler panic. *)
Remark bad_payload_panics :
  preproc SampleInsts (New bad_payload_program) ≫= compile SampleInsts
  = Panic (PanicParse "0x10").
Proof. vm_compute. reflexivity. Qed.

(** ** The errors that are returned *)

Lemma bind_Err {A B : Type} (m : result A) (k : A -> result B) (e : error) :
  m ≫= k = Err e -> m = Err e \/ exists a, m = Ok a /\ k a = Err e.
Proof. destruct m; cbn; intros H; try discriminate; [right; eauto|inversion H; by left]. Qed.

Lemma next_no_Err (c : Compiler) (e : error) : next c <> Err e.
Proof. unfold next. repeat case_match; discriminate. Qed.

Lemma argToWord_Err (c : Compiler) (t : Token) (e : error) :
  token.IsArg t = true -> argToWord c t = Err e -> reported e.
Proof.
  unfold token.IsArg, argToWord, parseWord.
  destruct (token.Type_ t); try discriminate; intros _ H;
    repeat case_match; try discriminate.
  by inversion H.
Qed.

Lemma writeMemory_no_Err (data size : Z) (c : Compiler) (e : error) :
  In size [1; 2; 4; 8] -> writeMemory data size c <> Err e.
Proof. cbn. intros [<-|[<-|[<-|[<-|[]]]]]; discriminate. Qed.

Lemma writeRunes_no_Err (rs : list Z) (size : Z) (c : Compiler) (e : error) :
  In size [1; 2; 4; 8] -> writeRunes rs size c <> Err e.
Proof.
  intros Hs. revert c. induction rs as [|r rs IH]; intros c; cbn; [discriminate|].
  intros [H|(c1 & _ & H)]%bind_Err; [by apply writeMemory_no_Err in H|by apply IH in H].
Qed.

Lemma compileLet_item_Err (size : Z) (c : Compiler) (e : error) :
  In size [1; 2; 4; 8] -> compileLet_item size c = Err e -> reported e.
Proof.
  intros Hs. unfold compileLet_item.
  destruct (decide _); [by intros H%writeRunes_no_Err|].
  destruct (token.IsArg (tok c)) eqn:Ha; cbn; [|by intros [= <-]].
  intros [H|(data & _ & H)]%bind_Err; [by apply argToWord_Err in H|].
  apply bind_Err in H as [H|(c1 & _ & H)]; [by apply writeMemory_no_Err in H|done].
Qed.

Lemma compileLet_items_Err (fuel : nat) (size : Z) (c : Compiler) (e : error) :
  In size [1; 2; 4; 8] -> compileLet_items fuel size c = Err e -> reported e.
Proof.
  intros Hs. revert c. induction fuel as [|fuel IH]; intros c; cbn; [done|].
  intros [H|(c1 & _ & H)]%bind_Err; [by apply compileLet_item_Err in H|].
  apply bind_Err in H as [H|(c2 & _ & H)]; [by apply next_no_Err in H|].
  destruct (decide _); [done|].
  apply bind_Err in H as [H|(c3 & _ & H)]; [by apply next_no_Err in H|by apply IH in H].
Qed.

Section Reported.

Variable Insts : gmap string Inst.

Lemma compileLet_Err (c : Compiler) (e : error) : compileLet c = Err e -> reported e.
Proof.
  unfold compileLet.
  intros [H|(c1 & _ & H)]%bind_Err; [by apply next_no_Err in H|].
  destruct (decide _); [by inversion H|].
  destruct (decide _); [by inversion H|].
  destruct (decide _); [by inversion H|].
  apply bind_Err in H as [H|(c2 & _ & H)]; [by apply next_no_Err in H|].
  apply bind_Err in H as [H|(size & Hsize & H)].
  { destruct (token.Type_ (tok c2)); by inversion H. }
  assert (In size [1; 2; 4; 8]) as Hs.
  { cbn. destruct (token.Type_ (tok c2)); inversion Hsize; tauto. }
  apply bind_Err in H as [H|(c3 & _ & H)]; [by apply next_no_Err in H|].
  by apply compileLet_items_Err in H.
Qed.

Lemma compileInst_Err (c : Compiler) (e : error) : compileInst Insts c = Err e -> reported e.
Proof.
  unfold compileInst. destruct (Insts !! _) as [inst|]; [|by intros [= <-]].
  intros [H|(c1 & _ & H)]%bind_Err; [by apply next_no_Err in H|].
  destruct (token.IsArg (tok c1)) eqn:Ha; cbn in H.
  - destruct (HasArg inst); cbn in H; [|by inversion H].
    apply bind_Err in H as [H|(data & _ & H)]; [by apply argToWord_Err in H|].
    apply bind_Err in H as [H|(c2 & _ & H)]; [by apply next_no_Err in H|done].
  - destruct (HasArg inst); by inversion H.
Qed.

Lemma compile_loop_Err (fuel : nat) (c : Compiler) (e : error) :
  compile_loop Insts fuel c = Err e -> reported e.
Proof.
  revert c. induction fuel as [|fuel IH]; intros c; cbn.
  { by destruct (decide _). }
  destruct (decide _); [done|].
  intros [H|(c1 & _ & H)]%bind_Err; [|by apply IH in H].
  unfold compile_body in H. destruct (toks c !! _) as [t|]; [|done].
  destruct (token.Type_ t); try (by inversion H).
  - by apply compileInst_Err in H.
  - by apply compileLet_Err in H.
Qed.

Lemma preproc_scan_reported (ts : list Token) (c : Compiler) (e : error) :
  preproc_scan Insts ts c = Err e -> reported e.
Proof.
  revert c. induction ts as [|t ts IH]; intros c; cbn; [done|].
  destruct (token.Type_ t); try done; try apply IH; try (by intros [= <-]).
  destruct (decide _); [by intros [= <-]|apply IH].
Qed.

(** X14. Three of the error returns of the package are never taken.
    Whatever the state the passes start from, an error they return is not
    "Got wrong data element size" (the size comes from one of the four size
    keywords), not "Expected argument, got ..." (the second test of
    [compileInst] repeats the first) and not "Expected register argument,
    instead got ..." ([argToWord] is only called on argument tokens). *)
Theorem dead_error_returns (c : Compiler) (e : error) :
  preproc Insts c ≫= compile Insts = Err e ->
  reported e /\
  (forall n, e <> WrongElementSize n) /\
  (forall w t, e <> At w (ExpectedArgumentGot t)) /\
  (forall w t, e <> At w (ExpectedRegisterArgument t)).
Proof.
  intros H. assert (reported e) as R.
  { apply bind_Err in H as [H|(c1 & _ & H)].
    - unfold preproc in H. apply bind_Err in H as [H|(c1 & _ & H)].
      + by apply preproc_scan_reported in H.
      + destruct (labels c1 !! _); by inversion H.
    - unfold compile in H. apply bind_Err in H as [H|(c2 & _ & H)].
      + unfold compile_start in H. by destruct (toks _ !! _).
      + by apply compile_loop_Err in H. }
  split; [done|]. split_and!; intros; intros ->; done.
Qed.

End Reported.

Lemma dead_error_returns_witness :
  reported (At (token.mkWhere 0 0) (AddressNotDeclared "x")) /\
  (forall n, At (token.mkWhere 0 0) (AddressNotDeclared "x") <> WrongElementSize n) /\
  (forall w t, At (token.mkWhere 0 0) (AddressNotDeclared "x") <> At w (ExpectedArgumentGot t)) /\
  (forall w t, At (token.mkWhere 0 0) (AddressNotDeclared "x")
               <> At w (ExpectedRegisterArgument t)).
Proof.
  apply (dead_error_returns SampleInsts (New early_use_program)). vm_compute. reflexivity.
Defined.

(** ** Malformed statements *)

Section StatementErrors.

Variable Insts : gmap string Inst.

(** X15. A statement starts with an instruction word or with [let].  When
    the compile loop comes to a token of another kind (it is not the end
    marker), assembly fails with "Unexpected ..." at this token, and when it
    comes to a word that the instruction table does not have, with "... is
    not an instruction"; [CompileToBinary] returns the error and writes
    nothing. *)
Theorem statement_errors (ts : list Token) (c : Compiler)
    (path : string) (executable : bool) (w : os.World) :
  Z.of_nat (length ts) < 2 ^ 63 -> reaches Insts ts c ->
  (token.Type_ (tok c) <> token.EOF -> token.Type_ (tok c) <> token.Word ->
   token.Type_ (tok c) <> token.Let ->
   preproc Insts (New ts) ≫= compile Insts
     = Err (At (token.Where_ (tok c)) (Unexpected (tok c))) /\
   CompileToBinary Insts (New ts) path executable w
     = (Err (At (token.Where_ (tok c)) (Unexpected (tok c))), w)) /\
  (token.Type_ (tok c) = token.Word -> Insts !! token.Data (tok c) = None ->
   preproc Insts (New ts) ≫= compile Insts
     = Err (At (token.Where_ (tok c)) (NotAnInstruction (token.Data (tok c)))) /\
   CompileToBinary Insts (New ts) path executable w
     = (Err (At (token.Where_ (tok c)) (NotAnInstruction (token.Data (tok c)))), w)).
Proof.
  intros Hlen Hr. destruct (reaches_wf Insts ts c Hlen Hr) as ([Hc _] & _).
  split.
  - intros Ke Kw Kl.
    assert (preproc Insts (New ts) ≫= compile Insts
            = Err (At (token.Where_ (tok c)) (Unexpected (tok c)))) as H.
    { apply (compile_fails_at Insts ts c); [done..|].
      unfold compile_body. rewrite (cur_tok c Hc).
      destruct (token.Type_ (tok c)); done. }
    split; [done|by apply CompileToBinary_Err].
  - intros Kw Hn.
    assert (preproc Insts (New ts) ≫= compile Insts
            = Err (At (token.Where_ (tok c)) (NotAnInstruction (token.Data (tok c))))) as H.
    { apply (compile_fails_at Insts ts c); [done|done|by rewrite Kw|].
      unfold compile_body. rewrite (cur_tok c Hc), Kw. unfold compileInst. by rewrite Hn. }
    split; [done|by apply CompileToBinary_Err].
Qed.

(** What [compileLet] answers to a malformed declaration, token by token. *)
Lemma compileLet_malformed (c : Compiler) (t1 : Token) :
  cursor_ok c -> token.Type_ (tok c) = token.Let ->
  toks c !! Z.to_nat (pos c + 1) = Some t1 ->
  (token.Type_ t1 <> token.Word ->
   compileLet c = Err (At (token.Where_ t1) (ExpectedIdentifier t1))) /\
  (token.Type_ t1 = token.Word -> is_Some (vars c !! token.Data t1) ->
   compileLet c = Err (At (token.Where_ t1) (RedefinedVariable (token.Data t1)))) /\
  (token.Type_ t1 = token.Word -> vars c !! token.Data t1 = None ->
   is_Some (labels c !! token.Data t1) ->
   compileLet c = Err (At (token.Where_ t1) (LabelAlreadyExists (token.Data t1)))) /\
  (forall t2,
     token.Type_ t1 = token.Word -> vars c !! token.Data t1 = None ->
     labels c !! token.Data t1 = None ->
     toks c !! Z.to_nat (pos c + 2) = Some t2 ->
     (is_size (token.Type_ t2) = false ->
      compileLet c = Err (At (token.Where_ t2) (ExpectedSize t2))) /\
     (forall t3,
        is_size (token.Type_ t2) = true ->
        toks c !! Z.to_nat (pos c + 3) = Some t3 ->
        token.Type_ t3 <> token.String -> token.IsArg t3 = false ->
        compileLet c = Err (At (token.Where_ t3) (ExpectedData t3)))).
Proof.
  intros Hc Kl Ht1.
  assert (token.Type_ (tok c) <> token.EOF) as Hne by (by rewrite Kl).
  destruct (next_at c t1 Hc Hne Ht1) as [N1 Hc1].
  unfold compileLet. rewrite N1. cbn [mbind result_bind].
  set (c1 := set_tok t1 (set_pos (pos c + 1) c)) in *.
  change (tok c1) with t1. change (vars c1) with (vars c). change (labels c1) with (labels c).
  split_and!.
  - intros Kw. by rewrite decide_True.
  - intros Kw Hv. rewrite decide_False by (by intros ?). by rewrite decide_True.
  - intros Kw Hv Hl. rewrite decide_False by (by intros ?).
    rewrite decide_False by (rewrite Hv; by intros [? ?]). by rewrite decide_True.
  - intros t2 Kw Hv Hl Ht2.
    rewrite decide_False by (by intros ?).
    rewrite decide_False by (rewrite Hv; by intros [? ?]).
    rewrite decide_False by (rewrite Hl; by intros [? ?]).
    set (c2 := set_vars _ c1).
    assert (cursor_ok c2) as Hc2 by (by apply (cursor_ok_ext c1)).
    destruct (next_at c2 t2 Hc2) as [N2 Hc3].
    { cbn. by rewrite Kw. }
    { cbn. by replace (pos c + 1 + 1) with (pos c + 2) by lia. }
    rewrite N2. cbn [mbind result_bind].
    set (c3 := set_tok t2 (set_pos (pos c2 + 1) c2)) in *.
    change (tok c3) with t2.
    split.
    + intros Ks. destruct (token.Type_ t2); done.
    + intros t3 Ks Ht3 Kstr Ka.
      destruct (next_at c3 t3 Hc3) as [N3 Hc4].
      { cbn. destruct (token.Type_ t2); done. }
      { cbn. by replace (pos c + 1 + 1 + 1) with (pos c + 3) by lia. }
      assert (forall size : Z,
                 (c4 ← next c3; compileLet_items (length (toks c4)) size c4)
                 = Err (At (token.Where_ t3) (ExpectedData t3))) as Hitems.
      { intros size. rewrite N3. cbn [mbind result_bind].
        pose proof (cursor_lt _ Hc4) as Hlt.
        destruct (length (toks _)) as [|n]; [lia|].
        cbn [compileLet_items]. unfold compileLet_item. cbn [tok set_tok].
        rewrite decide_False by done. by rewrite Ka. }
      destruct (token.Type_ t2); try done; cbn [mbind result_bind]; apply Hitems.
Qed.

(** X16. A malformed [let] fails on its first wrong token.  When the
    compile loop comes to a [let], assembly fails: with "Expected variable
    identifier" when the next token is not a word; with "Redefined variable"
    when the name is a variable already, and otherwise with "Label ...
    already exists" when it is a label; then with "Expected data element
    size" when the token after the name is not a size keyword, and with
    "Expected data" when the token after the size is neither a string nor an
    argument.  The error carries the position of the wrong token. *)
Theorem let_errors (ts : list Token) (c : Compiler) (t1 : Token) :
  Z.of_nat (length ts) < 2 ^ 63 -> reaches Insts ts c ->
  token.Type_ (tok c) = token.Let ->
  toks c !! Z.to_nat (pos c + 1) = Some t1 ->
  (token.Type_ t1 <> token.Word ->
   preproc Insts (New ts) ≫= compile Insts
     = Err (At (token.Where_ t1) (ExpectedIdentifier t1))) /\
  (token.Type_ t1 = token.Word -> is_Some (vars c !! token.Data t1) ->
   preproc Insts (New ts) ≫= compile Insts
     = Err (At (token.Where_ t1) (RedefinedVariable (token.Data t1)))) /\
  (token.Type_ t1 = token.Word -> vars c !! token.Data t1 = None ->
   is_Some (labels c !! token.Data t1) ->
   preproc Insts (New ts) ≫= compile Insts
     = Err (At (token.Where_ t1) (LabelAlreadyExists (token.Data t1)))) /\
  (forall t2,
     token.Type_ t1 = token.Word -> vars c !! token.Data t1 = None ->
     labels c !! token.Data t1 = None ->
     toks c !! Z.to_nat (pos c + 2) = Some t2 ->
     (is_size (token.Type_ t2) = false ->
      preproc Insts (New ts) ≫= compile Insts
        = Err (At (token.Where_ t2) (ExpectedSize t2))) /\
     (forall t3,
        is_size (token.Type_ t2) = true ->
        toks c !! Z.to_nat (pos c + 3) = Some t3 ->
        token.Type_ t3 <> token.String -> token.IsArg t3 = false ->
        preproc Insts (New ts) ≫= compile Insts
          = Err (At (token.Where_ t3) (ExpectedData t3)))).
Proof.
  intros Hlen Hr Kl Ht1. destruct (reaches_wf Insts ts c Hlen Hr) as ([Hc _] & _).
  assert (forall e, compileLet c = Err e ->
                    preproc Insts (New ts) ≫= compile Insts = Err e) as Hfail.
  { intros e He. apply (compile_fails_at Insts ts c); [done|done|by rewrite Kl|].
    unfold compile_body. by rewrite (cur_tok c Hc), Kl. }
  destruct (compileLet_malformed c t1 Hc Kl Ht1) as (H1 & H2 & H3 & H4).
  split_and!; [by auto..|].
  intros t2 Kw Hv Hl Ht2. destruct (H4 t2 Kw Hv Hl Ht2) as [H5 H6].
  split; [by auto|]. intros t3 Ks Ht3 Kstr Ka. apply Hfail. by apply H6.
Qed.

End StatementErrors.

Lemma statement_errors_witness :
  (preproc SampleInsts (New stray_comma_program) ≫= compile SampleInsts
     = Err (At (token.mkWhere 0 0) (Unexpected (Tok token.Comma ","))) /\
   CompileToBinary SampleInsts (New stray_comma_program) "a.out" false empty_world
     = (Err (At (token.mkWhere 0 0) (Unexpected (Tok token.Comma ","))), empty_world)) /\
  (preproc SampleInsts (New unknown_word_program) ≫= compile SampleInsts
     = Err (At (token.mkWhere 0 0) (NotAnInstruction "nop")) /\
   CompileToBinary SampleInsts (New unknown_word_program) "a.out" false empty_world
     = (Err (At (token.mkWhere 0 0) (NotAnInstruction "nop")), empty_world)).
Proof.
  split.
  - apply (proj1 (statement_errors SampleInsts stray_comma_program
                    (state_of (start_state SampleInsts stray_comma_program))
                    "a.out" false empty_world
                    ltac:(vm_compute; reflexivity)
                    ltac:(eexists; split; [vm_compute; reflexivity|apply rtc_refl])));
      vm_compute; discriminate.
  - apply (proj2 (statement_errors SampleInsts unknown_word_program
                    (state_of (start_state SampleInsts unknown_word_program))
                    "a.out" false empty_world
                    ltac:(vm_compute; reflexivity)
                    ltac:(eexists; split; [vm_compute; reflexivity|apply rtc_refl])));
      vm_compute; reflexivity.
Defined.

Lemma let_errors_witness :
  preproc SampleInsts (New let_number_program) ≫= compile SampleInsts
    = Err (At (token.mkWhere 0 0) (ExpectedIdentifier (Tok token.Dec "1"))) /\
  preproc SampleInsts (New let_no_size_program) ≫= compile SampleInsts
    = Err (At (token.mkWhere 0 0) (ExpectedSize (Tok token.Word "halt"))) /\
  preproc SampleInsts (New let_no_data_program) ≫= compile SampleInsts
    = Err (At (token.mkWhere 0 0) (ExpectedData (Tok token.Word "halt"))).
Proof.
  split_and!.
  - apply (proj1 (let_errors SampleInsts let_number_program
                    (state_of (start_state SampleInsts let_number_program))
                    (Tok token.Dec "1")
                    ltac:(vm_compute; reflexivity)
                    ltac:(eexists; split; [vm_compute; reflexivity|apply rtc_refl])
                    ltac:(vm_compute; reflexivity) ltac:(vm_compute; reflexivity))).
    vm_compute. discriminate.
  - apply (proj2 (proj2 (proj2 (let_errors SampleInsts let_no_size_program
                    (state_of (start_state SampleInsts let_no_size_program))
                    (Tok token.Word "x")
                    ltac:(vm_compute; reflexivity)
                    ltac:(eexists; split; [vm_compute; reflexivity|apply rtc_refl])
                    ltac:(vm_compute; reflexivity) ltac:(vm_compute; reflexivity))))
             (Tok token.Word "halt"));
      vm_compute; reflexivity.
  - apply (proj2 (proj2 (proj2 (proj2 (let_errors SampleInsts let_no_data_program
                    (state_of (start_state SampleInsts let_no_data_program))
                    (Tok token.Word "x")
                    ltac:(vm_compute; reflexivity)
                    ltac:(eexists; split; [vm_compute; reflexivity|apply rtc_refl])
                    ltac:(vm_compute; reflexivity) ltac:(vm_compute; reflexivity))))
             (Tok token.Size8 "sz8") ltac:(vm_compute; reflexivity)
             ltac:(vm_compute; reflexivity) ltac:(vm_compute; reflexivity)
             ltac:(vm_compute; reflexivity)) (Tok token.Word "halt"));
      vm_compute; (reflexivity || discriminate).
Defined.

(** The second [let x] of [let_twice_program] is refused. *)
Remark let_twice_refused :
  preproc SampleInsts (New let_twice_program) ≫= compile SampleInsts
  = Err (At (token.mkWhere 0 0) (RedefinedVariable "x")).
Proof. vm_compute. reflexivity. Qed.

(** ** String data *)

Lemma writeMemory_size (data : Z) (n : nat) (c : Compiler) :
  In (Z.of_nat n) [1; 2; 4; 8] ->
  writeMemory data (Z.of_nat n) c = Ok (set_memory (memory c ++ be_bytes n data) c).
Proof.
  cbn. intros [H|[H|[H|[H|[]]]]].
  - replace n with 1%nat by lia. done.
  - replace n with 2%nat by lia. done.
  - replace n with 4%nat by lia. done.
  - replace n with 8%nat by lia. done.
Qed.

Lemma writeRunes_spec (rs : list Z) (n : nat) (c : Compiler) :
  In (Z.of_nat n) [1; 2; 4; 8] -> 0 <= memorySize c < 2 ^ 64 ->
  exists c', writeRunes rs (Z.of_nat n) c = Ok c' /\
    memory c' = memory c ++ concat (be_bytes n <$> rs) /\
    memorySize c' = wrap64 (memorySize c + Z.of_nat n * Z.of_nat (length rs)) /\
    same_tables c c' /\ vars c' = vars c /\ program c' = program c /\
    pos c' = pos c /\ tok c' = tok c.
Proof.
  intros Hn. revert c. induction rs as [|r rs IH]; intros c Hm.
  { exists c. cbn. rewrite app_nil_r, Z.mul_0_r, Z.add_0_r, wrap64_small by done.
    split_and!; done. }
  cbn [writeRunes]. rewrite writeMemory_size by done. cbn [mbind result_bind].
  edestruct IH as (c' & -> & M & MS & T & V & P & PO & TK).
  { cbn. apply wrap64_range. }
  exists c'. split; [done|]. cbn in *. rewrite M, MS. split_and!; try done.
  - by rewrite <- app_assoc.
  - rewrite wrap64_add_l. f_equal. lia.
Qed.

Lemma length_range_runes (steps : nat) (bs : list Z) :
  (length (range_runes steps bs) <= steps)%nat.
Proof.
  revert bs. induction steps as [|n IH]; intros bs; [done|].
  destruct bs as [|b bs]; cbn [range_runes]; [cbn; lia|].
  destruct (DecodeRune (b :: bs)) as [r w]. cbn [length]. specialize (IH (drop w (b :: bs))). lia.
Qed.

Lemma length_bytes_of_string (s : string) : length (bytes_of_string s) = String.length s.
Proof.
  unfold bytes_of_string. rewrite length_map.
  induction s as [|a s IH]; cbn; [done|by rewrite IH].
Qed.

Lemma range_runes_ascii (bs : list Z) (steps : nat) :
  Forall (fun b => b < 128) bs -> (length bs <= steps)%nat -> range_runes steps bs = bs.
Proof.
  intros H. revert steps. induction H as [|b bs Hb _ IH]; intros steps Hs.
  { by destruct steps. }
  destruct steps as [|n]; [cbn in Hs; lia|].
  cbn [range_runes DecodeRune].
  assert ((b <? 128) = true) as -> by by apply Z.ltb_lt.
  cbn [drop]. rewrite drop_0, IH; [done|]. cbn in Hs. lia.
Qed.

Lemma be_bytes_1_ascii (bs : list Z) :
  Forall (fun b => 0 <= b < 256) bs -> concat (be_bytes 1 <$> bs) = bs.
Proof.
  induction 1 as [|b bs Hb _ IH]; [done|].
  rewrite fmap_cons. cbn [concat be_bytes app]. f_equal; [|exact IH].
  change (2 ^ (8 * Z.of_nat 0)) with 1. rewrite Z.div_1_r. by apply Z.mod_small.
Qed.

Lemma bytes_of_string_range (s : string) : Forall (fun b => 0 <= b < 256) (bytes_of_string s).
Proof.
  unfold bytes_of_string. apply Forall_forall. intros b Hb.
  apply list_elem_of_fmap in Hb as (a & -> & _). unfold byte_of_ascii.
  pose proof (N_ascii_bounded a). lia.
Qed.

(** X17. A string in the data of a [let] is stored rune by rune, each rune
    as one element of the declared size, with no length and no terminator:
    the memory region grows by the big-endian elements of the runes, and
    [memorySize] by the element size times their number, which is at most
    the number of bytes of the string.  An empty string stores nothing, and
    a string of ASCII characters at size 8 bits is stored as its bytes. *)
Theorem string_data (c : Compiler) (n : nat) :
  token.Type_ (tok c) = token.String ->
  In (Z.of_nat n) [1; 2; 4; 8] -> 0 <= memorySize c < 2 ^ 64 ->
  exists c', compileLet_item (Z.of_nat n) c = Ok c' /\
    memory c' = memory c ++ concat (be_bytes n <$> runes (token.Data (tok c))) /\
    memorySize c'
      = wrap64 (memorySize c + Z.of_nat n * Z.of_nat (length (runes (token.Data (tok c))))) /\
    (length (runes (token.Data (tok c))) <= String.length (token.Data (tok c)))%nat /\
    vars c' = vars c /\ labels c' = labels c /\ program c' = program c /\
    pos c' = pos c /\ tok c' = tok c /\
    (token.Data (tok c) = EmptyString -> memory c' = memory c) /\
    (n = 1%nat -> Forall (fun b => b < 128) (bytes_of_string (token.Data (tok c))) ->
     memory c' = memory c ++ bytes_of_string (token.Data (tok c))).
Proof.
  intros K Hn Hm. unfold compileLet_item. rewrite decide_True by done.
  destruct (writeRunes_spec (runes (token.Data (tok c))) n c Hn Hm)
    as (c' & -> & M & MS & (_ & L & _) & V & P & PO & TK).
  exists c'. split_and!; try done.
  - unfold runes. rewrite <- length_bytes_of_string. apply length_range_runes.
  - intros E. rewrite M, E. cbn. by rewrite app_nil_r.
  - intros -> Ha. rewrite M. f_equal. unfold runes.
    rewrite range_runes_ascii by done. apply be_bytes_1_ascii, bytes_of_string_range.
Qed.

Lemma string_data_witness :
  exists c', compileLet_item 1 (set_tok (Tok token.String "hi") (New [])) = Ok c' /\
    memory c' = [104; 105] /\ memorySize c' = 2.
Proof.
  destruct (string_data (set_tok (Tok token.String "hi") (New [])) 1)
    as (c' & E & M & MS & _); [reflexivity | cbn; tauto | cbn; lia |].
  exists c'. split; [exact E|]. split; [rewrite M|rewrite MS]; vm_compute; reflexivity.
Defined.

(** The whole declaration [let s sz8 "hi"]: two bytes, and [s] is 1. *)
Remark string_program_memory :
  let c := state_of (preproc SampleInsts (New string_program) ≫= compile SampleInsts) in
  memory c = [104; 105] /\ memorySize c = 2 /\ vars c !! "s"%string = Some 1.
Proof. vm_compute. repeat split; reflexivity. Qed.

(** ** The container, read back *)

(** A write appends what the device has room for. *)
Lemma Write_take (path : string) (bs pre : list Z) (m : Z) (S : nat) (w : os.World) :
  os.files w !! path = Some (os.mkFile (take S pre) m) ->
  os.space w = (S - length pre)%nat ->
  os.files (os.Write path bs w).1 !! path = Some (os.mkFile (take S (pre ++ bs)) m) /\
  os.space (os.Write path bs w).1 = (S - length (pre ++ bs))%nat /\
  (os.Write path bs w).2 = bool_decide (length bs <= S - length pre)%nat.
Proof.
  intros Hf Hs. unfold os.Write. rewrite Hf, Hs. cbn. rewrite lookup_insert_eq.
  split_and!.
  - f_equal. f_equal. rewrite take_app. f_equal.
    destruct (decide (length bs <= S - length pre)%nat).
    + rewrite Nat.min_l by done. by rewrite !take_ge by lia.
    + rewrite Nat.min_r by lia. done.
  - rewrite length_app. lia.
  - apply bool_decide_ext. lia.
Qed.

(** Whatever room there is, the file ends up with the part of the image
    that the device had room for; the writer fails exactly when the write
    of the memory or of the program was short. *)
Lemma writeImage_contents (c : Compiler) (path : string) (ex : bool) (m : Z) (w : os.World) :
  os.files w !! path = Some (os.mkFile [] m) ->
  exists r w', writeImage c path ex w = (r, w') /\
    os.files w' !! path
      = Some (os.mkFile (take (os.space w) (image c ex)) (if ex then 511 else m)) /\
    (r = Ok c \/ r = Err (IOError path)) /\
    ((length (image c ex) <= os.space w)%nat -> r = Ok c) /\
    ((os.space w < length (image c ex))%nat -> memory c ++ program c <> [] ->
     r = Err (IOError path)).
Proof.
  intros Hf. unfold writeImage, image.
  set (S := os.space w).
  set (w0 := if ex then os.Chmod path 511 (os.Write path shebang w).1 else w).
  set (p0 := if ex then shebang else []).
  assert (os.files w0 !! path = Some (os.mkFile (take S p0) (if ex then 511 else m)) /\
          os.space w0 = (S - length p0)%nat) as [H0 S0].
  { subst w0 p0. destruct ex; [|split; [by rewrite take_nil|cbn; lia]].
    destruct (Write_take path shebang [] m S w) as (F & Sp & _);
      [by rewrite take_nil | cbn; lia |].
    destruct (os.files (os.Write path shebang w).1 !! path) as [f|] eqn:Ef; [|done].
    destruct (Chmod_file path 511 f _ Ef) as [F' S'].
    rewrite F', S', Sp. inversion F; subst f. done. }
  clearbody w0. set (md := if ex then 511 else m) in *. clearbody md.
  destruct (Write_take path magic p0 md S w0 H0 S0) as (H1 & S1 & _).
  destruct (Write_take path [VersionMajor; VersionMinor; VersionPatch] _ md S _ H1 S1)
    as (H2 & S2 & _).
  unfold fileWriteWord.
  destruct (Write_take path (be_bytes 8 (programSize c)) _ md S _ H2 S2) as (H3 & S3 & _).
  destruct (Write_take path (be_bytes 8 (memorySize c)) _ md S _ H3 S3) as (H4 & S4 & _).
  destruct (Write_take path (be_bytes 8 (entryPoint c)) _ md S _ H4 S4) as (H5 & S5 & _).
  destruct (Write_take path (memory c) _ md S _ H5 S5) as (H6 & S6 & O6).
  destruct (Write_take path (program c) _ md S _ H6 S6) as (H7 & S7 & O7).
  set (w5 := (os.Write path (be_bytes 8 (entryPoint c)) _).1) in *. clearbody w5.
  set (hd := ((((p0 ++ magic) ++ [VersionMajor; VersionMinor; VersionPatch]) ++
               be_bytes 8 (programSize c)) ++ be_bytes 8 (memorySize c)) ++
             be_bytes 8 (entryPoint c)) in *.
  assert (p0 ++ magic ++ [VersionMajor; VersionMinor; VersionPatch] ++
          be_bytes 8 (programSize c) ++ be_bytes 8 (memorySize c) ++
          be_bytes 8 (entryPoint c) ++ memory c ++ program c
          = (hd ++ memory c) ++ program c) as Himg.
  { subst hd. by rewrite <- !app_assoc. }
  rewrite Himg. rewrite !length_app.
  destruct (os.Write path (memory c) w5) as [w6 ok6] eqn:E6. cbn [fst snd] in *.
  destruct ok6; cbn [negb].
  - symmetry in O6. apply bool_decide_eq_true in O6.
    destruct (os.Write path (program c) w6) as [w7 ok7] eqn:E7. cbn [fst snd] in *.
    destruct ok7; cbn [negb].
    + symmetry in O7. apply bool_decide_eq_true in O7. rewrite length_app in O7.
      eexists _, _. split; [reflexivity|]. split; [exact H7|].
      split; [by left|]. split; [done|]. intros Hlt Hne.
      destruct (memory c) as [|b mem]; [destruct (program c) as [|b prog]; [done|]|];
        cbn [length] in *; lia.
    + symmetry in O7. apply bool_decide_eq_false in O7. rewrite length_app in O7.
      eexists _, _. split; [reflexivity|]. split; [exact H7|].
      split; [by right|]. split; [intros; lia|done].
  - symmetry in O6. apply bool_decide_eq_false in O6.
    eexists _, _. split; [reflexivity|]. split.
    { rewrite H6. f_equal. f_equal. rewrite (take_app (hd ++ memory c) (program c) S).
      replace (S - length (hd ++ memory c))%nat with 0%nat by (rewrite length_app; lia).
      by rewrite take_0, app_nil_r. }
    split; [by right|]. split; [intros; lia|done].
Qed.

Ltac list_of_length H :=
  lazymatch type of H with
  | length ?l = O => destruct l; [clear H|discriminate H]
  | length ?l = S _ =>
      destruct l as [|? l]; [discriminate H|];
      cbn [length] in H; apply Nat.succ_inj in H; list_of_length H
  end.

(** Where the parts of a container lie. *)
Lemma container_layout (a b p m e mem prog : list Z) :
  length a = 3%nat -> length b = 3%nat ->
  length p = 8%nat -> length m = 8%nat -> length e = 8%nat ->
  let f := a ++ b ++ p ++ m ++ e ++ mem ++ prog in
  length f = (30 + length mem + length prog)%nat /\
  take 3 f = a /\ take 3 (drop 3 f) = b /\
  take 8 (drop 6 f) = p /\ take 8 (drop 14 f) = m /\ take 8 (drop 22 f) = e /\
  take (length mem) (drop 30 f) = mem /\ drop (30 + length mem) f = prog.
Proof.
  intros Ha Hb Hp Hm He.
  list_of_length Ha. list_of_length Hb. list_of_length Hp. list_of_length Hm.
  list_of_length He. cbn [app take drop length Nat.add].
  split_and!; try done.
  - rewrite length_app. lia.
  - apply take_app_length.
  - apply drop_app_length.
Qed.

Section Container.

Variable Insts : gmap string Inst.

(** The three words of the header are [Word]s. *)
Lemma header_words (ts : list Token) (c : Compiler) :
  Z.of_nat (length ts) < 2 ^ 63 ->
  preproc Insts (New ts) ≫= compile Insts = Ok c ->
  0 <= programSize c < 2 ^ 64 /\ 0 <= memorySize c < 2 ^ 64 /\ 0 <= entryPoint c < 2 ^ 64 /\
  memorySize c = wrap64 (Z.of_nat (length (memory c))).
Proof.
  intros Hlen H. destruct (assembled_reaches Insts ts c H) as [Hr _].
  destruct (reaches_wf Insts ts c Hlen Hr) as ([_ Hm] & _ & c1 & Hp & (_ & _ & PS & EP)).
  pose proof (preproc_programSize Insts ts c1 ltac:(lia) Hp) as PS1.
  destruct (preproc_Ok Insts ts c1 Hp) as (_ & _ & _ & E1 & _).
  pose proof (preproc_label_range Insts ts c1 ltac:(lia) Hp _ _ E1) as B.
  pose proof (slots_nonneg Insts (until_eof ts)).
  pose proof (slots_le Insts (until_eof ts)). pose proof (until_eof_length ts).
  rewrite PS, EP, Hm. split_and!; try done; try apply wrap64_range; lia.
Qed.

(** X18. The container can be read back.  When [CompileToBinary] returns
    [nil] for a plain (not executable) container and the device had room
    for it, the file holds the magic bytes [AVM], the three version bytes,
    then three big-endian words that decode to the program size, the
    memory size and the entry point, then the memory region and the program
    region; a new file has mode 0666 less the umask and an existing one
    keeps its mode. *)
Theorem plain_container (ts : list Token) (c : Compiler) (path : string) (w w' : os.World) :
  Z.of_nat (length ts) < 2 ^ 63 ->
  CompileToBinary Insts (New ts) path false w = (Ok c, w') ->
  (length (image c false) <= os.space w)%nat ->
  exists f, os.files w' !! path = Some f /\
    os.mode f = match os.files w !! path with
                | Some f0 => os.mode f0
                | None => Z.ldiff 438 (os.umask w)
                end /\
    length (os.contents f) = (30 + length (memory c) + length (program c))%nat /\
    take 3 (os.contents f) = magic /\
    take 3 (drop 3 (os.contents f)) = [VersionMajor; VersionMinor; VersionPatch] /\
    be_value (take 8 (drop 6 (os.contents f))) = programSize c /\
    be_value (take 8 (drop 14 (os.contents f))) = memorySize c /\
    be_value (take 8 (drop 22 (os.contents f))) = entryPoint c /\
    take (length (memory c)) (drop 30 (os.contents f)) = memory c /\
    drop (30 + length (memory c)) (os.contents f) = program c.
Proof.
  intros Hlen H Hsp. unfold CompileToBinary in H.
  destruct (preproc Insts (New ts)) as [c1| | |] eqn:Hp; try (by inversion H).
  destruct (compile Insts c1) as [c2| | |] eqn:Hc; try (by inversion H).
  destruct (os.Create path w) as [w0|] eqn:Ec; [|by inversion H].
  assert (c2 = c) as ->.
  { unfold writeImage in H. repeat case_match; by inversion H. }
  assert (preproc Insts (New ts) ≫= compile Insts = Ok c) as Hpass by (by rewrite Hp).
  destruct (header_words ts c Hlen Hpass) as (PS & MS & EP & _).
  set (m := match os.files w !! path with
            | Some f0 => os.mode f0
            | None => Z.ldiff 438 (os.umask w)
            end).
  assert (os.files w0 !! path = Some (os.mkFile [] m) /\ os.space w0 = os.space w) as [Hf Hs0].
  { unfold os.Create in Ec. destruct (decide _); [done|]. inversion Ec; subst w0. cbn.
    by rewrite lookup_insert_eq. }
  destruct (writeImage_fits c path false m w0 Hf ltac:(lia)) as (w'' & E & F).
  rewrite E in H. inversion H; subst w''. exists (os.mkFile (image c false) m).
  split; [done|]. split; [done|]. cbn [os.contents].
  destruct (container_layout magic [VersionMajor; VersionMinor; VersionPatch]
              (be_bytes 8 (programSize c)) (be_bytes 8 (memorySize c))
              (be_bytes 8 (entryPoint c)) (memory c) (program c))
    as (L & T1 & T2 & T3 & T4 & T5 & T6 & T7); [done|done|apply length_be_bytes..|].
  assert (forall v, 0 <= v < 2 ^ 64 -> be_value (be_bytes 8 v) = v) as Hback.
  { intros v Hv. unfold be_value. rewrite be_value_from. change (8 * Z.of_nat 8) with 64.
    rewrite Z.mod_small; lia. }
  change (image c false)
    with (magic ++ [VersionMajor; VersionMinor; VersionPatch] ++
          be_bytes 8 (programSize c) ++ be_bytes 8 (memorySize c) ++
          be_bytes 8 (entryPoint c) ++ memory c ++ program c).
  rewrite L, T1, T2, T3, T4, T5, T6, T7, !Hback by done. done.
Qed.

(** X19. What goes wrong after the passes.  When both passes succeed but
    the file cannot be created, [CompileToBinary] returns the error of
    [os.Create] and nothing is written.  When the file is created but the
    device has too little room for the image (and there is a memory or
    program byte to write), a write error is returned and the file stays
    behind, holding the part of the image that the device had room for. *)
Theorem output_errors (c0 c : Compiler) (path : string) (executable : bool) (w : os.World) :
  preproc Insts c0 ≫= compile Insts = Ok c ->
  (path ∈ os.denied w ->
   CompileToBinary Insts c0 path executable w = (Err (IOError path), w)) /\
  (path ∉ os.denied w ->
   (os.space w < length (image c executable))%nat -> memory c ++ program c <> [] ->
   exists w' f,
     CompileToBinary Insts c0 path executable w = (Err (IOError path), w') /\
     os.files w' !! path = Some f /\
     os.contents f = take (os.space w) (image c executable)).
Proof.
  intros H. unfold CompileToBinary.
  destruct (preproc Insts c0) as [c1| | |]; cbn in H; try done. rewrite H.
  split.
  - intros Hd. unfold os.Create. by rewrite decide_True.
  - intros Hd Hsp Hne. unfold os.Create. rewrite decide_False by done.
    set (w0 := os.mkWorld _ _ _ _).
    destruct (writeImage_contents c path executable
                (match os.files w !! path with
                 | Some f0 => os.mode f0
                 | None => Z.ldiff 438 (os.umask w)
                 end) w0) as (r & w' & E & F & _ & _ & Hr).
    { subst w0. cbn. by rewrite lookup_insert_eq. }
    rewrite E. rewrite (Hr Hsp Hne). eexists _, _. split; [reflexivity|].
    split; [exact F|done].
Qed.

End Container.

Lemma plain_container_witness :
  exists f,
    os.files (CompileToBinary SampleInsts (New let_program) "a.out" false empty_world).2
      !! "a.out"%string = Some f /\
    os.mode f = 420 /\ length (os.contents f) = 42%nat /\
    be_value (take 8 (drop 6 (os.contents f))) = 1 /\
    be_value (take 8 (drop 14 (os.contents f))) = 3 /\
    be_value (take 8 (drop 22 (os.contents f))) = 0 /\
    take 3 (drop 30 (os.contents f)) = [1; 2; 3].
Proof.
  destruct (plain_container SampleInsts let_program
              (state_of (CompileToBinary SampleInsts (New let_program) "a.out" false empty_world).1)
              "a.out" empty_world
              (CompileToBinary SampleInsts (New let_program) "a.out" false empty_world).2)
    as (f & F & M & L & _ & _ & PS & MS & EP & Mem & _);
    [vm_compute; reflexivity | vm_compute; reflexivity | vm_compute; lia |].
  exists f. split; [exact F|]. split; [rewrite M; vm_compute; reflexivity|].
  split; [rewrite L; vm_compute; reflexivity|].
  split; [rewrite PS; vm_compute; reflexivity|].
  split; [rewrite MS; vm_compute; reflexivity|].
  split; [rewrite EP; vm_compute; reflexivity|].
  exact Mem.
Defined.

Lemma output_errors_witness :
  CompileToBinary SampleInsts (New let_program) "a.out" false denied_world
    = (Err (IOError "a.out"), denied_world) /\
  exists w' f,
    CompileToBinary SampleInsts (New let_program) "a.out" false small_world
      = (Err (IOError "a.out"), w') /\
    os.files w' !! "a.out"%string = Some f /\
    os.contents f = take 40 (image (state_of (preproc SampleInsts (New let_program)
                                                ≫= compile SampleInsts)) false).
Proof.
  destruct (output_errors SampleInsts (New let_program)
              (state_of (preproc SampleInsts (New let_program) ≫= compile SampleInsts))
              "a.out" false denied_world) as [D _]; [vm_compute; reflexivity|].
  destruct (output_errors SampleInsts (New let_program)
              (state_of (preproc SampleInsts (New let_program) ≫= compile SampleInsts))
              "a.out" false small_world) as [_ S]; [vm_compute; reflexivity|].
  split.
  - apply D. unfold denied_world. cbn [os.denied]. by apply elem_of_singleton_2.
  - apply S; [apply not_elem_of_empty | vm_compute; lia | vm_compute; discriminate].
Defined.

(** ** Numeric data *)

(** X20. A datum that is not a string is stored as one element of the
    declared size, and a value that does not fit is cut down without an
    error: the memory region grows by [size] bytes that stand for the value
    of the argument modulo 2^(8*size), and [memorySize] grows by [size]. *)
Theorem data_item_truncates (c : Compiler) (n : nat) (v : Z) :
  token.Type_ (tok c) <> token.String -> token.IsArg (tok c) = true ->
  argToWord c (tok c) = Ok v ->
  In (Z.of_nat n) [1; 2; 4; 8] ->
  exists c' bs, compileLet_item (Z.of_nat n) c = Ok c' /\
    memory c' = memory c ++ bs /\ length bs = n /\
    be_value bs = v mod 2 ^ (8 * Z.of_nat n) /\
    memorySize c' = wrap64 (memorySize c + Z.of_nat n) /\
    vars c' = vars c /\ labels c' = labels c /\ program c' = program c /\
    pos c' = pos c /\ tok c' = tok c.
Proof.
  intros Ks Ka Hv Hn.
  rewrite (compileLet_item_arg (Z.of_nat n) n c v Ks Ka Hv (writeMemory_size v n c Hn)).
  eexists _, (be_bytes n v). split; [reflexivity|]. cbn.
  split_and!; try done; [apply length_be_bytes|].
  unfold be_value. rewrite be_value_from. lia.
Qed.

Lemma data_item_truncates_witness :
  exists c' bs, compileLet_item 1 (set_tok (Tok token.Dec "300") (New [])) = Ok c' /\
    memory c' = bs /\ length bs = 1%nat /\ be_value bs = 44.
Proof.
  destruct (data_item_truncates (set_tok (Tok token.Dec "300") (New [])) 1 300)
    as (c' & bs & E & M & L & V & _);
    [discriminate | reflexivity | vm_compute; reflexivity | cbn; tauto |].
  exists c', bs. split; [exact E|]. split; [exact M|]. split; [exact L|].
  rewrite V. vm_compute. reflexivity.
Defined.
